(** * AdvanceDB: the slotted-page B+ tree and the expression evaluator

    A shallow embedding of the storage core ([src/storage/page.cpp],
    [src/storage/btree/leaf.cpp], [src/storage/btree/internal.cpp],
    [src/storage/btree/btree.cpp]) and of [src/executor/evaluator.cpp].

    Conventions of the embedding.
    - Fixed-width integers are [Z] with the wrap-around written out
      ([u16], [u32], [i32]).
    - A [Page] is the 8192-byte buffer split in its three regions: the
      header (a record of the [PageHeader] fields), the record area
      (records by start offset) and the slot directory (16-bit words by
      byte address).  The slot loops of [insert_slot] and [remove_slot]
      are executed word by word, in the order the source executes them.
    - [assert(false)] and failed assertions halt the process (spec
      section 7, ProgrammingError); a C++ [throw] is an error result; a
      machine division by zero, or one whose quotient does not fit
      [int], is a trap.  All are results of the [Outcome] monad.
    - [while] loops without a syntactic bound take fuel; the theorems
      show which fuel is enough. *)

From Stdlib Require Import ZArith Lia List.
From Stdlib.Strings Require Import Byte.
From stdpp Require Import base numbers list option gmap strings pretty.

Local Open Scope Z_scope.

(** ** Results of fallible code *)

Inductive Outcome (A : Type) : Type :=
| Ok (a : A)
| AssertFail (msg : string)
| Throw (msg : string)
| Trap (msg : string)
| OutOfFuel.

Arguments Ok {A} a.
Arguments AssertFail {A} msg.
Arguments Throw {A} msg.
Arguments Trap {A} msg.
Arguments OutOfFuel {A}.

Definition obind {A B} (f : A → Outcome B) (m : Outcome A) : Outcome B :=
  match m with
  | Ok a => f a
  | AssertFail s => AssertFail s
  | Throw s => Throw s
  | Trap s => Trap s
  | OutOfFuel => OutOfFuel
  end.

#[global] Instance Outcome_ret : MRet Outcome := λ A a, Ok a.
#[global] Instance Outcome_bind : MBind Outcome := λ A B f m, obind f m.
#[global] Instance Outcome_fmap : FMap Outcome := λ A B f m, obind (λ a, Ok (f a)) m.

Definition assert_that (b : bool) (msg : string) : Outcome unit :=
  if b then Ok tt else AssertFail msg.

(** ** Machine integers *)

Definition u16 (z : Z) : Z := z mod 65536.
Definition u32 (z : Z) : Z := z mod 4294967296.

Definition UINT32_MAX : Z := 4294967295.

(** ** Constants of [storage/page.hpp] and [storage/record.hpp] *)

(** Modelled from the spec: [storage/page.hpp] is not part of the
    sources.  Section 3 fixes PAGE_SIZE at 8192 bytes and
    INVALID_PAGE_ID at the all-ones sentinel; the size of the packed
    header, 32, is the one the B+ tree test states. *)
Definition PAGE_SIZE : Z := 8192.
Definition INVALID_PAGE_ID : Z := UINT32_MAX.
Definition SIZEOF_PageHeader : Z := 32.

(** Modelled from the spec: [storage/record.hpp] is not part of the
    sources.  Section 6: a leaf record is
    [u16 key_size | u16 value_size | key | value]. *)
Definition SIZEOF_RecordHeader : Z := 4.

(** [include/storage/btree.hpp]: packed [InternalEntry] is
    [u16 key_size | u32 child_page | key]. *)
Definition SIZEOF_InternalEntry : Z := 6.

Definition SIZEOF_slot : Z := 2.

(** ** Keys, values and records *)

(** [struct Key { const uint8_t* data; uint16_t size; }]: the bytes the
    pointer designates; [size] is their number. *)
Definition Key : Type := list byte.
Definition Value : Type := list byte.

Definition key_size (k : list byte) : Z := Z.of_nat (length k).

Definition byte_lt (a b : byte) : bool := (Byte.to_N a <? Byte.to_N b)%N.

(** Modelled from the spec: [compare_keys] of [storage/record.hpp] is
    not part of the sources.  Section 4.2: comparison is lexicographic
    over raw bytes and a proper prefix is smaller.  The result is
    negative, zero or positive. *)
Fixpoint compare_keys (a b : list byte) : Z :=
  match a, b with
  | [], [] => 0
  | [], _ :: _ => -1
  | _ :: _, [] => 1
  | x :: a', y :: b' =>
      if byte_lt x y then -1
      else if byte_lt y x then 1
      else compare_keys a' b'
  end.

(** Modelled from the spec: [record_size] of [storage/record.hpp] is
    not part of the sources; the record header followed by key and
    value, returned as [uint16_t]. *)
Definition record_size (ks vs : Z) : Z := u16 (SIZEOF_RecordHeader + ks + vs).

(** What the record area holds at an offset. *)
Inductive Cell : Type :=
| LeafRecord (key : list byte) (value : list byte)
| InternalEntry (key : list byte) (child_page : Z).

(** ** Pages *)

Inductive PageType : Type := META | INDEX | DATA.
Inductive PageLevel : Type := LEAF | INTERNAL.

#[global] Instance PageLevel_eq_dec : EqDecision PageLevel.
Proof. solve_decision. Defined.

Record PageHeader : Type := mkPageHeader {
  page_id : Z;
  parent_page_id : Z;
  page_type : PageType;
  page_level : PageLevel;
  cell_count : Z;
  free_start : Z;
  free_end : Z;
  root_page : Z;
  (** the [uint32_t] stored in [reserved[0..4]]: the leftmost child *)
  reserved : Z
}.

Record Page : Type := mkPage {
  header : PageHeader;
  (** record area: the record that starts at each offset *)
  cells : gmap Z Cell;
  (** slot directory: the 16-bit word at each byte address *)
  slotmem : gmap Z Z
}.

Definition get_header (page : Page) : PageHeader := header page.

Definition set_header (page : Page) (h : PageHeader) : Page :=
  mkPage h (cells page) (slotmem page).

Definition with_parent_page_id (h : PageHeader) (v : Z) : PageHeader :=
  mkPageHeader (page_id h) v (page_type h) (page_level h) (cell_count h)
    (free_start h) (free_end h) (root_page h) (reserved h).
Definition with_cell_count (h : PageHeader) (v : Z) : PageHeader :=
  mkPageHeader (page_id h) (parent_page_id h) (page_type h) (page_level h) v
    (free_start h) (free_end h) (root_page h) (reserved h).
Definition with_free_start (h : PageHeader) (v : Z) : PageHeader :=
  mkPageHeader (page_id h) (parent_page_id h) (page_type h) (page_level h)
    (cell_count h) v (free_end h) (root_page h) (reserved h).
Definition with_free_end (h : PageHeader) (v : Z) : PageHeader :=
  mkPageHeader (page_id h) (parent_page_id h) (page_type h) (page_level h)
    (cell_count h) (free_start h) v (root_page h) (reserved h).
Definition with_root_page (h : PageHeader) (v : Z) : PageHeader :=
  mkPageHeader (page_id h) (parent_page_id h) (page_type h) (page_level h)
    (cell_count h) (free_start h) (free_end h) v (reserved h).
Definition with_reserved (h : PageHeader) (v : Z) : PageHeader :=
  mkPageHeader (page_id h) (parent_page_id h) (page_type h) (page_level h)
    (cell_count h) (free_start h) (free_end h) (root_page h) v.

(** A buffer of zero bytes, as [read_page] leaves it past the end of
    the file.  The zero tag of each enumeration is taken to be its
    first enumerator. *)
Definition zero_page : Page :=
  mkPage (mkPageHeader 0 0 META LEAF 0 0 0 0 0) ∅ ∅.

(** [page.cpp: init_page] *)
Definition init_page (pid : Z) (pt : PageType) (pl : PageLevel) : Page :=
  mkPage (mkPageHeader pid 0 pt pl 0 SIZEOF_PageHeader PAGE_SIZE 0 0) ∅ ∅.

Definition read_slot_word (m : gmap Z Z) (addr : Z) : Z := default 0 (m !! addr).

(** [page.cpp: slot_ptr]: the address of slot [index]. *)
Definition slot_ptr (page : Page) (index : Z) : Z :=
  free_end (header page) + index * SIZEOF_slot.

(** [*slot_ptr(page, index)] *)
Definition slot_at (page : Page) (index : Z) : Z :=
  read_slot_word (slotmem page) (slot_ptr page index).

(** One iteration of a slot-copy loop: the word at [src] is stored at
    [dst]. *)
Definition copy_word (m : gmap Z Z) (dst src : Z) : gmap Z Z :=
  <[dst := read_slot_word m src]> m.

(** [page.cpp: insert_slot] *)
Definition insert_slot (page : Page) (index record_offset : Z) : Outcome Page :=
  let h := header page in
  let old_free_end := free_end h in
  let current_count := cell_count h in
  let new_free_end := u16 (old_free_end - SIZEOF_slot) in
  (* for (i = 0; i < index; ++i) *)
  let m1 := foldl (λ m i, copy_word m (new_free_end + i * 2) (old_free_end + i * 2))
                  (slotmem page) (seqZ 0 index) in
  (* for (i = current_count; i > index; --i) *)
  let m2 := foldl (λ m i, copy_word m (new_free_end + i * 2) (old_free_end + (i - 1) * 2))
                  m1 (reverse (seqZ (index + 1) (current_count - index))) in
  let m3 := <[new_free_end + index * 2 := record_offset]> m2 in
  let h' := with_cell_count (with_free_end h new_free_end) (u16 (current_count + 1)) in
  _ ← assert_that (free_start h' <=? free_end h') "free_start <= free_end";
  _ ← assert_that (cell_count h' * 2 <=? PAGE_SIZE) "cell_count * 2 <= PAGE_SIZE";
  Ok (mkPage h' (cells page) m3).

(** [page.cpp: remove_slot] *)
Definition remove_slot (page : Page) (index : Z) : Outcome Page :=
  let h := header page in
  if index >? cell_count h - 1 then Throw "Could not remove an invalid slot"
  else
    let old_free_end := free_end h in
    let current_count := cell_count h in
    let new_free_end := u16 (old_free_end + SIZEOF_slot) in
    (* for (i = 0; i < index; ++i) *)
    let m1 := foldl (λ m i, copy_word m (new_free_end + i * 2) (old_free_end + i * 2))
                    (slotmem page) (seqZ 0 index) in
    (* for (i = index + 1; i < current_count; ++i) *)
    let m2 := foldl (λ m i, copy_word m (new_free_end + (i - 1) * 2) (old_free_end + i * 2))
                    m1 (seqZ (index + 1) (current_count - (index + 1))) in
    let h' := with_cell_count (with_free_end h new_free_end) (u16 (current_count - 1)) in
    _ ← assert_that (free_start h' <=? free_end h') "free_start <= free_end";
    _ ← assert_that (cell_count h' * 2 <=? PAGE_SIZE) "cell_count * 2 <= PAGE_SIZE";
    Ok (mkPage h' (cells page) m2).

(** The slots [0 .. cell_count-1] of a page, in order. *)
Definition slot_list (page : Page) : list Z :=
  (λ i, slot_at page i) <$> seqZ 0 (cell_count (header page)).

(** ** Record access ([storage/record.hpp]) *)

Definition cell_at (page : Page) (offset : Z) : option Cell := cells page !! offset.

(** The record at [offset] read through [RecordHeader*]: key and value.
    Bytes that hold no leaf record read as the zero header. *)
Definition leaf_record_at (page : Page) (offset : Z) : list byte * list byte :=
  match cell_at page offset with
  | Some (LeafRecord k v) => (k, v)
  | _ => ([], [])
  end.

(** The record at [offset] read through [InternalEntry*]: key and child. *)
Definition internal_entry_at (page : Page) (offset : Z) : list byte * Z :=
  match cell_at page offset with
  | Some (InternalEntry k c) => (k, c)
  | _ => ([], 0)
  end.

(** Modelled from the spec: [slot_key] of [storage/record.hpp] is not
    part of the sources.  Section 4.2: the key bytes of slot [i],
    read with the layout of the page's level. *)
Definition slot_key (page : Page) (i : Z) : list byte :=
  match page_level (header page) with
  | LEAF => fst (leaf_record_at page (slot_at page i))
  | INTERNAL => fst (internal_entry_at page (slot_at page i))
  end.

(** Modelled from the spec: [slot_value] of [storage/record.hpp] is not
    part of the sources.  Section 4.2: the value bytes of slot [i] of a
    LEAF page. *)
Definition slot_value (page : Page) (i : Z) : list byte :=
  snd (leaf_record_at page (slot_at page i)).

(** [entry->child_page] of slot [i] of an INTERNAL page. *)
Definition slot_child (page : Page) (i : Z) : Z :=
  snd (internal_entry_at page (slot_at page i)).

Record BSearchResult : Type := mkBSearchResult { found : bool; index : Z }.

(** Modelled from the spec: [search_record] of [storage/record.hpp] is
    not part of the sources.  Section 4.2: a binary search over the
    slots; on a hit [index] is the matching slot, on a miss it is the
    insertion position. *)
Fixpoint search_record_loop (fuel : nat) (page : Page) (key : list byte)
    (left right : Z) : BSearchResult :=
  match fuel with
  | O => mkBSearchResult false left
  | S fuel' =>
      if left <=? right then
        let mid := (left + right) `quot` 2 in
        let cmp := compare_keys key (slot_key page mid) in
        if cmp =? 0 then mkBSearchResult true mid
        else if cmp <? 0 then search_record_loop fuel' page key left (mid - 1)
        else search_record_loop fuel' page key (mid + 1) right
      else mkBSearchResult false left
  end.

Definition search_record (page : Page) (key : list byte) : BSearchResult :=
  let n := cell_count (header page) in
  search_record_loop (S (Z.to_nat n)) page key 0 (n - 1).

(** Modelled from the spec: [can_insert] of [storage/page.hpp] is not
    part of the sources.  Section 4.2:
    [free_end − free_start ≥ record_size + sizeof(slot)]. *)
Definition can_insert (page : Page) (rec_size : Z) : bool :=
  rec_size + SIZEOF_slot <=? free_end (header page) - free_start (header page).

(** Modelled from the spec: [write_raw_record] is declared in
    [include/storage/btree.hpp] and defined outside the sources.
    Section 4.2: the bytes are appended at [free_start], which advances
    by [size]; the offset of the record is returned. *)
Definition write_raw_record (page : Page) (raw : Cell) (size : Z) : Z * Page :=
  let h := header page in
  let offset := free_start h in
  (offset,
   mkPage (with_free_start h (u16 (offset + size)))
          (<[offset := raw]> (cells page)) (slotmem page)).

(** Modelled from the spec: [page_insert] of [storage/page.hpp] is not
    part of the sources.  Section 4.2: binary search for the position,
    write the leaf record, insert the slot there. *)
Definition page_insert (page : Page) (key value : list byte) : Outcome Page :=
  let sr := search_record page key in
  let '(offset, page1) :=
    write_raw_record page (LeafRecord key value)
      (record_size (key_size key) (key_size value)) in
  insert_slot page1 (index sr) offset.

(** ** Disk manager and table handle *)

(** [disk_manager.cpp]: the file, page by page.  A page the file does
    not reach reads as zero bytes.  I/O errors are not modelled. *)
Definition read_page (dm : gmap Z Page) (pid : Z) : Page :=
  default zero_page (dm !! pid).

Definition write_page (dm : gmap Z Page) (pid : Z) (page : Page) : gmap Z Page :=
  <[pid := page]> dm.

Record TableHandle : Type := mkTableHandle {
  dm : gmap Z Page;
  th_root_page : Z;
  next_free_page_id : Z
}.

Definition th_write (th : TableHandle) (pid : Z) (page : Page) : TableHandle :=
  mkTableHandle (write_page (dm th) pid page) (th_root_page th) (next_free_page_id th).

Definition th_set_root (th : TableHandle) (root : Z) : TableHandle :=
  mkTableHandle (dm th) root (next_free_page_id th).

(** Modelled from the spec: [allocate_page] of
    [storage/table_handle.hpp] is not part of the sources.  Sections 3
    and 6: the page id is the handle's next free id, which is bumped. *)
Definition allocate_page (th : TableHandle) : Z * TableHandle :=
  (next_free_page_id th,
   mkTableHandle (dm th) (th_root_page th) (u32 (next_free_page_id th + 1))).

(** Modelled from the spec: [create_table] and [open_table] are not
    part of the sources.  Section 6: the meta page is page 0 with
    [root_page = 0]; the handle caches that root, and the first page to
    allocate is page 1. *)
Definition fresh_table : TableHandle :=
  mkTableHandle {[ 0 := init_page 0 META LEAF ]} 0 1.

(** ** Internal pages ([src/storage/btree/internal.cpp]) *)

Definition valid_child_id (c : Z) : bool :=
  negb (c =? 0) && (c <? 1000000).

(** The binary search of [internal_find_child]: [pos] is the last
    [mid] where [key < key_mid] held. *)
Fixpoint find_child_loop (fuel : nat) (page : Page) (key : list byte)
    (left right pos : Z) : Z :=
  match fuel with
  | O => pos
  | S fuel' =>
      if left <=? right then
        let mid := (right + left) `quot` 2 in
        let cmp := compare_keys key (slot_key page mid) in
        if cmp <? 0 then find_child_loop fuel' page key left (mid - 1) mid
        else find_child_loop fuel' page key (mid + 1) right pos
      else pos
  end.

Definition find_child_pos (page : Page) (key : list byte) : Z :=
  let n := cell_count (header page) in
  find_child_loop (S (Z.to_nat n)) page key 0 (n - 1) n.

(** [internal.cpp: internal_find_child] *)
Definition internal_find_child (page : Page) (key : list byte) : Outcome Z :=
  let ph := header page in
  _ ← assert_that (bool_decide (page_level ph = INTERNAL)) "page_level == INTERNAL";
  let pos := find_child_pos page key in
  if pos =? 0 then
    let leftmost_child := reserved ph in
    if negb (leftmost_child =? 0) && (leftmost_child <? 1000000)
       && negb (leftmost_child =? INVALID_PAGE_ID)
    then Ok leftmost_child
    else if (parent_page_id ph =? 0) && negb (root_page ph =? 0)
            && negb (root_page ph =? page_id ph) && (root_page ph <? 1000000)
    then Ok (root_page ph)
    else if (cell_count ph >? 0)
            && negb (slot_child page 0 =? 0) && (slot_child page 0 <? 1000000)
    then Ok (slot_child page 0)
    else AssertFail "No valid leftmost child found"
  else if pos =? cell_count ph then
    if cell_count ph =? 0 then Ok 0
    else Ok (slot_child page (cell_count ph - 1))
  else if (pos >? 0) && (pos <=? cell_count ph) && (pos - 1 <? cell_count ph) then
    let child := slot_child page (pos - 1) in
    if (child =? 0) || (child >=? 1000000) then AssertFail "Invalid child page ID"
    else Ok child
  else AssertFail "Invalid position in internal_find_child".

(** [internal.cpp: write_internal_entry] *)
Definition write_internal_entry (page : Page) (key : list byte) (child : Z)
    : Outcome (Z * Page) :=
  let ph := header page in
  _ ← assert_that (bool_decide (page_level ph = INTERNAL)) "page_level == INTERNAL";
  let offset := free_start ph in
  Ok (u16 offset,
      mkPage (with_free_start ph (u16 (free_start ph + (SIZEOF_InternalEntry + key_size key))))
             (<[offset := InternalEntry key child]> (cells page)) (slotmem page)).

(** [internal.cpp: insert_internal_no_split] *)
Definition insert_internal_no_split (page : Page) (key : list byte) (child : Z)
    : Outcome (bool * Page) :=
  let ph := header page in
  _ ← assert_that (bool_decide (page_level ph = INTERNAL)) "page_level == INTERNAL";
  let rec_size := u16 (SIZEOF_InternalEntry + key_size key) in
  if negb (can_insert page rec_size) then Ok (false, page)
  else
    let sr := search_record page key in
    if found sr then Ok (false, page)
    else
      '(offset, page1) ← write_internal_entry page key child;
      page2 ← insert_slot page1 (index sr) offset;
      Ok (true, page2).

Record SplitLeafResult : Type := mkSplitResult {
  new_page : Z;
  seperator_key : list byte
}.

(** The removal loop shared by both splits:
    [for (j = 0; j < num_to_remove; j++)] removing the last slot while
    it is not below [keep]. *)
Fixpoint remove_tail_slots (num_to_remove : nat) (page : Page) (keep : Z)
    : Outcome Page :=
  match num_to_remove with
  | O => Ok page
  | S n =>
      let last_index := u16 (cell_count (header page) - 1) in
      if last_index >=? keep then
        page' ← remove_slot page last_index;
        remove_tail_slots n page' keep
      else Ok page
  end.

(** One iteration of the copy loop of [split_internal_page], slot [i]. *)
Definition split_internal_copy (new_pid : Z) (page : Page)
    (st : Page * TableHandle) (i : Z) : Outcome (Page * TableHandle) :=
  let '(new_pg, th) := st in
  let offset := slot_at page i in
  let '(ekey, echild) := internal_entry_at page offset in
  let size := u16 (SIZEOF_InternalEntry + key_size ekey) in
  let '(new_off, new_pg1) := write_raw_record new_pg (InternalEntry ekey echild) size in
  new_pg2 ← insert_slot new_pg1 (cell_count (header new_pg1)) new_off;
  let child_page := read_page (dm th) echild in
  let child_page' := set_header child_page (with_parent_page_id (header child_page) new_pid) in
  Ok (new_pg2, th_write th echild child_page').

Fixpoint ofoldl {A B} (f : A → B → Outcome A) (a : A) (l : list B) : Outcome A :=
  match l with
  | [] => Ok a
  | b :: l' => a' ← f a b; ofoldl f a' l'
  end.

(** [internal.cpp: split_internal_page] *)
Definition split_internal_page (th : TableHandle) (page : Page)
    : Outcome (SplitLeafResult * Page * TableHandle) :=
  let ph := header page in
  _ ← assert_that (bool_decide (page_level ph = INTERNAL)) "page_level == INTERNAL";
  let '(new_pid, th1) := allocate_page th in
  let new_pg := init_page new_pid INDEX INTERNAL in
  let total := cell_count ph in
  if total <? 2 then
    AssertFail "Cannot split internal page with less than 2 elements"
  else
    let mid := total `quot` 2 in
    let sep := slot_key page mid in
    if key_size sep >? 256 then AssertFail "Key too large"
    else
      let new_leftmost_child := if mid <? total then slot_child page mid else 0 in
      '(new_pg1, th2) ←
        ofoldl (split_internal_copy new_pid page) (new_pg, th1)
               (seqZ (mid + 1) (total - (mid + 1)));
      let new_pg2 :=
        if negb (new_leftmost_child =? 0)
        then set_header new_pg1 (with_reserved (header new_pg1) new_leftmost_child)
        else new_pg1 in
      let num_to_remove := u16 (total - mid) in
      page' ← remove_tail_slots (Z.to_nat num_to_remove) page mid;
      let new_pg3 :=
        set_header new_pg2 (with_parent_page_id (header new_pg2) (parent_page_id (header page'))) in
      Ok (mkSplitResult new_pid sep, page', th_write th2 new_pid new_pg3).

(** [internal.cpp: create_new_root] *)
Definition create_new_root (th : TableHandle) (left : Z) (key : list byte) (right : Z)
    : Outcome TableHandle :=
  let '(new_root_id, th1) := allocate_page th in
  let root := init_page new_root_id INDEX INTERNAL in
  let root1 := set_header root (with_root_page (with_reserved (header root) left) left) in
  '(offset, root2) ← write_internal_entry root1 key right;
  root3 ← insert_slot root2 0 offset;
  let th2 := th_set_root th1 new_root_id in
  let meta := read_page (dm th2) 0 in
  let th3 := th_write th2 0 (set_header meta (with_root_page (header meta) new_root_id)) in
  let th4 := th_write th3 new_root_id root3 in
  let left_page := read_page (dm th4) left in
  _ ← assert_that (page_id (header left_page) =? left) "Left page ID mismatch";
  let th5 := th_write th4 left
               (set_header left_page (with_parent_page_id (header left_page) new_root_id)) in
  let right_page := read_page (dm th5) right in
  Ok (th_write th5 right
        (set_header right_page (with_parent_page_id (header right_page) new_root_id))).

(** [internal.cpp: insert_into_parent]; the recursion on the parent
    chain takes fuel. *)
Fixpoint insert_into_parent (fuel : nat) (th : TableHandle) (left : Z)
    (key : list byte) (right : Z) : Outcome TableHandle :=
  match fuel with
  | O => OutOfFuel
  | S fuel' =>
      let left_page := read_page (dm th) left in
      let lh := header left_page in
      if parent_page_id lh =? 0 then create_new_root th left key right
      else
        let parent_pid := parent_page_id lh in
        if (parent_pid =? 0) || (parent_pid =? INVALID_PAGE_ID)
        then create_new_root th left key right
        else
          let parent := read_page (dm th) parent_pid in
          if negb (bool_decide (page_level (header parent) = INTERNAL))
          then create_new_root th left key right
          else
            let sr := search_record parent key in
            if found sr then create_new_root th left key right
            else
              let parent1 :=
                if index sr =? 0
                then set_header parent (with_reserved (header parent) left)
                else parent in
              '(ok, parent2) ← insert_internal_no_split parent1 key right;
              if (ok : bool) then Ok (th_write th parent_pid parent2)
              else
                '(split, parent3, th1) ← split_internal_page th parent2;
                let th2 := th_write th1 parent_pid parent3 in
                insert_into_parent fuel' th2 parent_pid (seperator_key split) (new_page split)
  end.

(** ** Leaf pages ([src/storage/btree/leaf.cpp]) *)

(** The [while(1)] loop of [find_leaf_page]; one unit of fuel per page
    read.  The result is the returned page id and the buffer
    [out_page] as the function leaves it. *)
Fixpoint find_leaf_loop (fuel : nat) (d : gmap Z Page) (key : list byte)
    (pid depth : Z) : Outcome (Z * Page) :=
  match fuel with
  | O => OutOfFuel
  | S fuel' =>
      let out_page := read_page d pid in
      if bool_decide (page_level (header out_page) = LEAF) then Ok (pid, out_page)
      else
        next_page_id ← internal_find_child out_page key;
        if (next_page_id =? 0) || (next_page_id >=? 1000000)
        then Ok (UINT32_MAX, out_page)
        else
          let depth' := depth + 1 in
          if depth' >? 100 then Ok (UINT32_MAX, out_page)
          else find_leaf_loop fuel' d key next_page_id depth'
  end.

(** Fuel for [find_leaf_page]: the depth check stops the loop after
    101 page reads. *)
Definition find_leaf_fuel : nat := 101.

(** [leaf.cpp: find_leaf_page] *)
Definition find_leaf_page (th : TableHandle) (key : list byte) : Outcome (Z * Page) :=
  find_leaf_loop find_leaf_fuel (dm th) key (th_root_page th) 0.

Definition header_corrupted (h : PageHeader) : bool :=
  (free_start h <? SIZEOF_PageHeader) || (free_start h >=? PAGE_SIZE)
  || (free_end h <? SIZEOF_PageHeader) || (free_end h >? PAGE_SIZE)
  || (free_start h >? free_end h).

(** [leaf.cpp: btree_insert_leaf_no_split] *)
Definition btree_insert_leaf_no_split (th : TableHandle) (pid : Z) (page : Page)
    (key value : list byte) : Outcome (bool * Page * TableHandle) :=
  let rec_size := record_size (key_size key) (key_size value) in
  if negb (can_insert page rec_size) then Ok (false, page, th)
  else
    page1 ← page_insert page key value;
    if header_corrupted (header page1) then AssertFail "Corrupted page header"
    else Ok (true, page1, th_write th pid page1).

(** One iteration of the copy loop of [split_leaf_page], slot [i]. *)
Definition split_leaf_copy (page : Page) (new_pg : Page) (i : Z) : Outcome Page :=
  let offset := slot_at page i in
  let '(rkey, rvalue) := leaf_record_at page offset in
  let rec_size := record_size (key_size rkey) (key_size rvalue) in
  let '(new_offset, new_pg1) := write_raw_record new_pg (LeafRecord rkey rvalue) rec_size in
  insert_slot new_pg1 (cell_count (header new_pg1)) new_offset.

(** [leaf.cpp: split_leaf_page] *)
Definition split_leaf_page (th : TableHandle) (page : Page)
    : Outcome (SplitLeafResult * Page * TableHandle) :=
  let ph := header page in
  _ ← assert_that (bool_decide (page_level ph = LEAF)) "page_level == LEAF";
  if header_corrupted ph then AssertFail "Cannot split corrupted page"
  else
    let '(new_page_id, th1) := allocate_page th in
    let new_pg := init_page new_page_id DATA LEAF in
    let new_pg := set_header new_pg (with_parent_page_id (header new_pg) (parent_page_id ph)) in
    let total := cell_count ph in
    if total <? 2 then AssertFail "Cannot split page with less than 2 elements"
    else
      let split_index := total `quot` 2 in
      let split_index := if split_index =? 0 then 1 else split_index in
      new_pg1 ← ofoldl (split_leaf_copy page) new_pg
                  (seqZ split_index (total - split_index));
      let num_to_remove := u16 (total - split_index) in
      page' ← remove_tail_slots (Z.to_nat num_to_remove) page split_index;
      let sep :=
        if cell_count (header new_pg1) >? 0 then slot_key new_pg1 0
        else slot_key page' 0 in
      if key_size sep >? 256 then AssertFail "Key too large"
      else Ok (mkSplitResult new_page_id sep, page', th_write th1 new_page_id new_pg1).

(** ** Search and insert ([src/storage/btree/btree.cpp]) *)

(** [btree.cpp: btree_search]; [Some v] is [true] with [value] set. *)
Definition btree_search (th : TableHandle) (key : list byte) : Outcome (option (list byte)) :=
  if th_root_page th =? 0 then Ok None
  else
    '(leaf_page_id, leaf_page) ← find_leaf_page th key;
    let result := search_record leaf_page key in
    if negb (found result) then Ok None
    else Ok (Some (slot_value leaf_page (index result))).

(** The safety branch of [btree_insert] (lines 133-183): the single
    large record of the left page moves to the empty right page. *)
Definition move_large_record (fuel : nat) (th : TableHandle)
    (leaf_page_id : Z) (leaf_page : Page) (new_page_id : Z) (new_pg : Page)
    (key value : list byte) : Outcome (bool * TableHandle) :=
  let large_offset := slot_at leaf_page 0 in
  let '(large_key, large_value) := leaf_record_at leaf_page large_offset in
  let large_rec_size := record_size (key_size large_key) (key_size large_value) in
  if key_size large_key >? 256 then AssertFail "Key too large"
  else
    leaf1 ← remove_slot leaf_page 0;
    let '(new_offset, new_pg1) :=
      write_raw_record new_pg (LeafRecord large_key large_value) large_rec_size in
    new_pg2 ← insert_slot new_pg1 0 new_offset;
    let th1 := th_write th leaf_page_id leaf1 in
    let th2 := th_write th1 new_page_id new_pg2 in
    let leaf2 := read_page (dm th2) leaf_page_id in
    if negb (can_insert leaf2 (record_size (key_size key) (key_size value)))
    then AssertFail "Left page still doesn't have space after moving large record"
    else
      leaf3 ← page_insert leaf2 key value;
      let th3 := th_write th2 leaf_page_id leaf3 in
      th4 ← insert_into_parent fuel th3 leaf_page_id large_key new_page_id;
      Ok (true, th4).

(** [btree.cpp: btree_insert]; [fuel] bounds the recursion of
    [insert_into_parent]. *)
Definition btree_insert (fuel : nat) (th : TableHandle) (key value : list byte)
    : Outcome (bool * TableHandle) :=
  if th_root_page th =? 0 then
    let '(root_page_id, th1) := allocate_page th in
    let root := init_page root_page_id DATA LEAF in
    let th2 := th_set_root th1 root_page_id in
    let meta := read_page (dm th2) 0 in
    let th3 := th_write th2 0 (set_header meta (with_root_page (header meta) root_page_id)) in
    root1 ← page_insert root key value;
    Ok (true, th_write th3 root_page_id root1)
  else
    '(leaf_page_id, leaf_page) ← find_leaf_page th key;
    let search_result := search_record leaf_page key in
    if found search_result then Ok (false, th)
    else
      '(done, leaf_page, th) ← btree_insert_leaf_no_split th leaf_page_id leaf_page key value;
      if (done : bool) then Ok (true, th)
      else
        '(split_result, leaf_page, th) ← split_leaf_page th leaf_page;
        _ ← assert_that (page_id (header leaf_page) =? leaf_page_id)
              "Page ID mismatch after split";
        let th := th_write th leaf_page_id leaf_page in
        let new_pg := read_page (dm th) (new_page split_result) in
        let sep_key :=
          if cell_count (header new_pg) >? 0 then slot_key new_pg 0
          else seperator_key split_result in
        if key_size sep_key >? 256 then AssertFail "Key too large"
        else
          let cmp := compare_keys key sep_key in
          let rec_size := record_size (key_size key) (key_size value) in
          if cmp <? 0 then
            if negb (can_insert leaf_page rec_size) then
              if (cell_count (header new_pg) =? 0) && (cell_count (header leaf_page) =? 1)
              then move_large_record fuel th leaf_page_id leaf_page
                     (new_page split_result) new_pg key value
              else AssertFail "Left page doesn't have space after split"
            else
              leaf_page ← page_insert leaf_page key value;
              let th := th_write th leaf_page_id leaf_page in
              th ← insert_into_parent fuel th leaf_page_id sep_key (new_page split_result);
              Ok (true, th)
          else
            if negb (can_insert new_pg rec_size)
            then AssertFail "Right page doesn't have space after split"
            else
              new_pg ← page_insert new_pg key value;
              let th := th_write th (new_page split_result) new_pg in
              th ← insert_into_parent fuel th leaf_page_id sep_key (new_page split_result);
              Ok (true, th).

(** ** Tree inspection (used to state the invariants of section 8) *)

(** The keys of the slots [0 .. cell_count-1] of a page. *)
Definition page_keys (page : Page) : list (list byte) :=
  (λ i, slot_key page i) <$> seqZ 0 (cell_count (header page)).

(** The leaf records of a page, slot by slot. *)
Definition leaf_records (page : Page) : list (list byte * list byte) :=
  (λ i, (slot_key page i, slot_value page i)) <$> seqZ 0 (cell_count (header page)).

(** The entries of an INTERNAL page, slot by slot. *)
Definition internal_entries (page : Page) : list (list byte * Z) :=
  (λ i, (slot_key page i, slot_child page i)) <$> seqZ 0 (cell_count (header page)).

(** The children of an INTERNAL page: the leftmost child, then the
    right child of every entry. *)
Definition children (page : Page) : list Z :=
  reserved (header page) :: (snd <$> internal_entries page).

(** All keys stored in the leaves reachable from page [pid]. *)
Fixpoint subtree_keys (fuel : nat) (d : gmap Z Page) (pid : Z) : list (list byte) :=
  match fuel with
  | O => []
  | S fuel' =>
      let page := read_page d pid in
      match page_level (header page) with
      | LEAF => page_keys page
      | INTERNAL => concat (subtree_keys fuel' d <$> children page)
      end
  end.

Definition key_ltb (a b : list byte) : bool := compare_keys a b <? 0.

(** P3 at entry [i] of an INTERNAL page: the keys below the left
    neighbour of the entry are smaller than its key, the keys below its
    right child are not. *)
Definition separator_ok (fuel : nat) (d : gmap Z Page) (page : Page) (i : Z) : bool :=
  let k := slot_key page i in
  let left_child := if i =? 0 then reserved (header page) else slot_child page (i - 1) in
  forallb (λ x, key_ltb x k) (subtree_keys fuel d left_child)
  && forallb (λ x, negb (key_ltb x k)) (subtree_keys fuel d (slot_child page i)).

(** P3 on every INTERNAL page reachable from [pid]. *)
Fixpoint separator_contract (fuel : nat) (d : gmap Z Page) (pid : Z) : bool :=
  match fuel with
  | O => true
  | S fuel' =>
      let page := read_page d pid in
      match page_level (header page) with
      | LEAF => true
      | INTERNAL =>
          forallb (separator_ok fuel' d page) (seqZ 0 (cell_count (header page)))
          && forallb (separator_contract fuel' d) (children page)
      end
  end.

(** A sequence of [btree_insert] calls; the results of the calls and
    the final handle. *)
Fixpoint insert_all (fuel : nat) (th : TableHandle)
    (kvs : list (list byte * list byte)) : Outcome (list bool * TableHandle) :=
  match kvs with
  | [] => Ok ([], th)
  | (k, v) :: rest =>
      '(b, th1) ← btree_insert fuel th k v;
      '(bs, th2) ← insert_all fuel th1 rest;
      Ok (b :: bs, th2)
  end.

(** The handle after a sequence of [btree_insert] calls on a fresh
    table (the fresh table itself when a call halts). *)
Definition table_after (kvs : list (list byte * list byte)) : TableHandle :=
  match insert_all 8 fresh_table kvs with
  | Ok (_, th) => th
  | _ => fresh_table
  end.

(** The results of a sequence of [btree_insert] calls on a fresh table. *)
Definition results_of (kvs : list (list byte * list byte)) : Outcome (list bool) :=
  fst <$> insert_all 8 fresh_table kvs.

Definition bytes (s : string) : list byte := String.list_byte_of_string s.

(** [n] bytes of value, the letter A. *)
Definition filler (n : Z) : list byte := repeat x41 (Z.to_nat n).

(** The key is present in the leaf that [find_leaf_page] reaches for
    it (the buffer [btree_insert] searches before inserting). *)
Definition key_in_target_leaf (th : TableHandle) (key : list byte) : bool :=
  negb (th_root_page th =? 0)
  && match find_leaf_page th key with
     | Ok (_, leaf_page) => found (search_record leaf_page key)
     | _ => false
     end.

(** One step of the descent: page [pid] is INTERNAL and
    [internal_find_child] names a child that [find_leaf_page] accepts. *)
Definition descend (d : gmap Z Page) (key : list byte) (pid : Z) : option Z :=
  let page := read_page d pid in
  if bool_decide (page_level (header page) = LEAF) then None
  else match internal_find_child page key with
       | Ok next => if (next =? 0) || (next >=? 1000000) then None else Some next
       | _ => None
       end.

(** [n] steps of the descent. *)
Fixpoint descend_n (n : nat) (d : gmap Z Page) (key : list byte) (pid : Z) : option Z :=
  match n with
  | O => Some pid
  | S n' =>
      match descend d key pid with
      | Some next => descend_n n' d key next
      | None => None
      end
  end.

(** P1 on one page: the slot keys are strictly ascending. *)
Definition slots_sorted (page : Page) : Prop :=
  ∀ i j, 0 ≤ i → i < j → j < cell_count (header page) →
         compare_keys (slot_key page i) (slot_key page j) < 0.

(** The check of [internal_find_child] on the leftmost child. *)
Definition valid_leftmost (c : Z) : bool :=
  negb (c =? 0) && (c <? 1000000) && negb (c =? INVALID_PAGE_ID).

(** *** Pages under construction *)

(** The record a split copies out of slot [i] of a LEAF page. *)
Definition leaf_cell (page : Page) (i : Z) : Cell :=
  let '(k, v) := leaf_record_at page (slot_at page i) in LeafRecord k v.

(** The entry a split copies out of slot [i] of an INTERNAL page. *)
Definition internal_cell (page : Page) (i : Z) : Cell :=
  let '(k, c) := internal_entry_at page (slot_at page i) in InternalEntry k c.

(** The bytes the slots [idxs] of a LEAF page take in another page:
    each record and its slot. *)
Definition leaf_moved_size (page : Page) (idxs : list Z) : Z :=
  foldr (λ i acc, SIZEOF_RecordHeader + key_size (slot_key page i)
                  + key_size (slot_value page i) + SIZEOF_slot + acc) 0 idxs.

(** The bytes the slots [idxs] of an INTERNAL page take in another
    page: each entry and its slot. *)
Definition internal_moved_size (page : Page) (idxs : list Z) : Z :=
  foldr (λ i acc, SIZEOF_InternalEntry + key_size (slot_key page i)
                  + SIZEOF_slot + acc) 0 idxs.

(** A page to which the records [cs] were appended one by one, each by
    [write_raw_record] and [insert_slot] at the end: slot [j] designates
    the [j]-th of them. *)
Definition appended (pg : Page) (cs : list Cell) : Prop :=
  cell_count (header pg) = Z.of_nat (length cs)
  ∧ free_end (header pg) = PAGE_SIZE - 2 * Z.of_nat (length cs)
  ∧ 0 ≤ free_start (header pg) ≤ free_end (header pg)
  ∧ ∀ j c, cs !! j = Some c →
      cells pg !! slot_at pg (Z.of_nat j) = Some c
      ∧ slot_at pg (Z.of_nat j) < free_start (header pg).

(** *** Scenarios *)

(** Five records that fill a leaf four at a time. *)
Definition five_inserts : list (list byte * list byte) :=
  [(bytes "a", filler 2000); (bytes "b", filler 2000); (bytes "c", filler 2000);
   (bytes "d", filler 2000); (bytes "e", filler 2000)].

(** Two more records for the left leaf of the first split. *)
Definition seven_inserts : list (list byte * list byte) :=
  five_inserts ++ [(bytes "b", filler 100); (bytes "bb", filler 100)].

(** Scenario 5 of section 8 ([test_btree_large_value_split]): a value
    of 8000 bytes, then five small records. *)
Definition large_value_test : list (list byte * list byte) :=
  [(bytes "large_key1", filler 8000);
   (bytes "small_key_1", bytes "Small value number 1");
   (bytes "small_key_2", bytes "Small value number 2");
   (bytes "small_key_3", bytes "Small value number 3");
   (bytes "small_key_4", bytes "Small value number 4");
   (bytes "small_key_5", bytes "Small value number 5")].

(** A key of 256 bytes that starts with the byte [n]. *)
Definition wide_key (n : Z) : list byte :=
  default x00 (Byte.of_N (Z.to_N n)) :: repeat x00 255.

(** [n] records in ascending key order, two to a leaf, whose
    separators fill an INTERNAL page thirty at a time. *)
Definition ascending_inserts (n : Z) : list (list byte * list byte) :=
  (λ i, (wide_key i, filler 3000)) <$> seqZ 1 n.

(** An INTERNAL page with leftmost child 2 and the single entry
    [("m", child)]. *)
Definition internal_page_with_child (pid child : Z) : Page :=
  mkPage (mkPageHeader pid 0 INDEX INTERNAL 1 (SIZEOF_PageHeader + 7) (PAGE_SIZE - 2) 2 2)
         {[ SIZEOF_PageHeader := InternalEntry (bytes "m") child ]}
         {[ PAGE_SIZE - 2 := SIZEOF_PageHeader ]}.

(** An INTERNAL page with leftmost child 1 and the entries
    [("g", c)] and [("p", 4)]. *)
Definition two_entries (c : Z) : Page :=
  mkPage (mkPageHeader 3 0 INDEX INTERNAL 2 (SIZEOF_PageHeader + 14) (PAGE_SIZE - 4) 1 1)
         {[ SIZEOF_PageHeader := InternalEntry (bytes "g") c;
            SIZEOF_PageHeader + 7 := InternalEntry (bytes "p") 4 ]}
         {[ PAGE_SIZE - 4 := SIZEOF_PageHeader; PAGE_SIZE - 2 := SIZEOF_PageHeader + 7 ]}.

Definition two_entry_page : Page := two_entries 2.

(** An INTERNAL page with leftmost child 1 and the entries
    [("g", 2)], [("p", 4)] and [("t", 5)]. *)
Definition three_entry_page : Page :=
  mkPage (mkPageHeader 3 0 INDEX INTERNAL 3 (SIZEOF_PageHeader + 21) (PAGE_SIZE - 6) 1 1)
         {[ SIZEOF_PageHeader := InternalEntry (bytes "g") 2;
            SIZEOF_PageHeader + 7 := InternalEntry (bytes "p") 4;
            SIZEOF_PageHeader + 14 := InternalEntry (bytes "t") 5 ]}
         {[ PAGE_SIZE - 6 := SIZEOF_PageHeader; PAGE_SIZE - 4 := SIZEOF_PageHeader + 7;
            PAGE_SIZE - 2 := SIZEOF_PageHeader + 14 ]}.

(** A table whose root is [three_entry_page]; its children are LEAF
    pages without records. *)
Definition three_entry_table : TableHandle :=
  mkTableHandle
    {[ 0 := set_header (init_page 0 META LEAF) (with_root_page (header (init_page 0 META LEAF)) 3);
       1 := set_header (init_page 1 DATA LEAF) (with_parent_page_id (header (init_page 1 DATA LEAF)) 3);
       2 := set_header (init_page 2 DATA LEAF) (with_parent_page_id (header (init_page 2 DATA LEAF)) 3);
       3 := three_entry_page;
       4 := set_header (init_page 4 DATA LEAF) (with_parent_page_id (header (init_page 4 DATA LEAF)) 3);
       5 := set_header (init_page 5 DATA LEAF) (with_parent_page_id (header (init_page 5 DATA LEAF)) 3) ]}
    3 6.

(** A LEAF page with the records [("a", "1")], [("b", "2")] and
    [("c", "3")]. *)
Definition three_record_leaf : Page :=
  mkPage (mkPageHeader 1 0 DATA LEAF 3 (SIZEOF_PageHeader + 18) (PAGE_SIZE - 6) 0 0)
         {[ SIZEOF_PageHeader := LeafRecord (bytes "a") (bytes "1");
            SIZEOF_PageHeader + 6 := LeafRecord (bytes "b") (bytes "2");
            SIZEOF_PageHeader + 12 := LeafRecord (bytes "c") (bytes "3") ]}
         {[ PAGE_SIZE - 6 := SIZEOF_PageHeader; PAGE_SIZE - 4 := SIZEOF_PageHeader + 6;
            PAGE_SIZE - 2 := SIZEOF_PageHeader + 12 ]}.

(** A LEAF page with the single record [("a", "1")]. *)
Definition one_record_leaf : Page :=
  mkPage (mkPageHeader 1 0 DATA LEAF 1 (SIZEOF_PageHeader + 6) (PAGE_SIZE - 2) 0 0)
         {[ SIZEOF_PageHeader := LeafRecord (bytes "a") (bytes "1") ]}
         {[ PAGE_SIZE - 2 := SIZEOF_PageHeader ]}.

(** A table whose root is the LEAF page [leaf]. *)
Definition leaf_root_table (leaf : Page) : TableHandle :=
  mkTableHandle
    {[ 0 := set_header (init_page 0 META LEAF) (with_root_page (header (init_page 0 META LEAF)) 1);
       1 := leaf ]}
    1 2.

(** An INTERNAL page without entries whose leftmost child is itself. *)
Definition self_loop_page (pid : Z) : Page :=
  mkPage (mkPageHeader pid 0 INDEX INTERNAL 0 SIZEOF_PageHeader PAGE_SIZE 0 pid) ∅ ∅.

(** ** Expression evaluation ([src/executor/evaluator.cpp]) *)

Module Executor.

(** [int]: 32-bit two's complement. *)
Definition i32 (z : Z) : Z := (z + 2147483648) mod 4294967296 - 2147483648.

(** [types.h]: [std::variant<int, std::string>] *)
Inductive Value : Type :=
| VInt (n : Z)
| VString (s : string).

Definition Tuple : Type := list Value.

(** [expr_defs.h]; [ENull] is the null pointer, [EUnary] the kind
    without a node type. *)
Inductive Expr : Type :=
| ENull
| EIdentifier (name : string)
| ENumber (value : Z)
| EString (value : string)
| EUnary
| EBinary (op : string) (left right : Expr).

(** The machine instruction behind [/] on [int]: it traps on a zero
    divisor, and on the one quotient that does not fit [int],
    [INT_MIN / -1] (undefined behaviour of the language; the division
    instruction raises the exception of the zero divisor). *)
Definition machine_div (a b : Z) : Outcome Z :=
  if b =? 0 then Trap "integer division by zero"
  else if (a =? -2147483648) && (b =? -1) then Trap "integer overflow"
  else Ok (i32 (a `quot` b)).

(** [evaluator.cpp: get_int] *)
Definition get_int (v : Value) : Outcome Z :=
  match v with
  | VInt n => Ok n
  | VString _ => Throw "Expected integer value"
  end.

(** [evaluator.cpp: get_string] *)
Definition get_string (v : Value) : Outcome string :=
  match v with
  | VString s => Ok s
  | VInt n => Ok (pretty n)
  end.

(** [evaluator.cpp: find_column_index] *)
Fixpoint find_column_index_from (i : Z) (name : string) (column_names : list string)
    : Outcome Z :=
  match column_names with
  | [] => Throw ("Column not found: " +:+ name)
  | c :: rest =>
      if String.eqb c name then Ok (i32 i)
      else find_column_index_from (i + 1) name rest
  end.

Definition find_column_index (name : string) (column_names : list string) : Outcome Z :=
  find_column_index_from 0 name column_names.

Definition both_int (a b : Value) : option (Z * Z) :=
  match a, b with
  | VInt x, VInt y => Some (x, y)
  | _, _ => None
  end.

Definition both_string (a b : Value) : option (string * string) :=
  match a, b with
  | VString x, VString y => Some (x, y)
  | _, _ => None
  end.

Definition of_bool (b : bool) : Value := VInt (if b then 1 else 0).

(** The shape shared by the comparison operators: on two [int]s, on
    two strings, otherwise 0. *)
Definition compare_values (fi : Z → Z → bool) (fs : string → string → bool)
    (a b : Value) : Value :=
  match both_int a b with
  | Some (x, y) => of_bool (fi x y)
  | None =>
      match both_string a b with
      | Some (x, y) => of_bool (fs x y)
      | None => VInt 0
      end
  end.

Definition op_is (op : string) (s : string) : bool := String.eqb op s.

(** The operator dispatch of the [Binary] case, on evaluated operands. *)
Definition eval_binary (op : string) (left_val right_val : Value) : Outcome Value :=
  if op_is op "+" then
    match both_int left_val right_val with
    | Some (x, y) => Ok (VInt (i32 (x + y)))
    | None =>
        l ← get_string left_val; r ← get_string right_val; Ok (VString (l +:+ r))
    end
  else if op_is op "-" then
    l ← get_int left_val; r ← get_int right_val; Ok (VInt (i32 (l - r)))
  else if op_is op "*" then
    l ← get_int left_val; r ← get_int right_val; Ok (VInt (i32 (l * r)))
  else if op_is op "/" then
    right_ ← get_int right_val;
    if right_ =? 0 then Throw "Division by zero"
    else l ← get_int left_val; q ← machine_div l right_; Ok (VInt q)
  else if op_is op "=" || op_is op "==" then
    Ok (compare_values Z.eqb String.eqb left_val right_val)
  else if op_is op "<" then
    Ok (compare_values Z.ltb String.ltb left_val right_val)
  else if op_is op ">" then
    Ok (compare_values Z.gtb (λ x y, String.ltb y x) left_val right_val)
  else if op_is op "<=" then
    Ok (compare_values Z.leb String.leb left_val right_val)
  else if op_is op ">=" then
    Ok (compare_values Z.geb (λ x y, String.leb y x) left_val right_val)
  else if op_is op "AND" || op_is op "&&" then
    l ← get_int left_val; r ← get_int right_val;
    Ok (of_bool (negb (l =? 0) && negb (r =? 0)))
  else if op_is op "OR" || op_is op "||" then
    l ← get_int left_val; r ← get_int right_val;
    Ok (of_bool (negb (l =? 0) || negb (r =? 0)))
  else Throw ("Unknown binary operator: " +:+ op).

(** [evaluator.cpp: evaluate_expr] *)
Fixpoint evaluate_expr (expr : Expr) (tuple : Tuple) (column_names : list string)
    : Outcome Value :=
  match expr with
  | ENull => Throw "Null expression"
  | EIdentifier name =>
      idx ← find_column_index name column_names;
      if (idx <? 0) || (Z.of_nat (length tuple) <=? idx)
      then Throw ("Column index out of bounds: " +:+ name)
      else
        match tuple !! Z.to_nat idx with
        | Some v => Ok v
        | None => Throw ("Column index out of bounds: " +:+ name)
        end
  | ENumber value => Ok (VInt value)
  | EString value => Ok (VString value)
  | EUnary => Throw "Unsupported expression kind"
  | EBinary op left_ right_ =>
      left_val ← evaluate_expr left_ tuple column_names;
      right_val ← evaluate_expr right_ tuple column_names;
      eval_binary op left_val right_val
  end.

(** [evaluator.cpp: evaluate_predicate] *)
Definition evaluate_predicate (predicate : Expr) (tuple : Tuple)
    (column_names : list string) : Outcome bool :=
  result ← evaluate_expr predicate tuple column_names;
  match result with
  | VInt n => Ok (negb (n =? 0))
  | VString _ => Ok true
  end.

End Executor.

(** A LEAF page with the records [("a", "1")], [("b", "2")],
    [("c", "3")] and [("d", "4")]. *)
Definition four_record_leaf : Page :=
  mkPage (mkPageHeader 1 0 DATA LEAF 4 (SIZEOF_PageHeader + 24) (PAGE_SIZE - 8) 0 0)
         {[ SIZEOF_PageHeader := LeafRecord (bytes "a") (bytes "1");
            SIZEOF_PageHeader + 6 := LeafRecord (bytes "b") (bytes "2");
            SIZEOF_PageHeader + 12 := LeafRecord (bytes "c") (bytes "3");
            SIZEOF_PageHeader + 18 := LeafRecord (bytes "d") (bytes "4") ]}
         {[ PAGE_SIZE - 8 := SIZEOF_PageHeader; PAGE_SIZE - 6 := SIZEOF_PageHeader + 6;
            PAGE_SIZE - 4 := SIZEOF_PageHeader + 12; PAGE_SIZE - 2 := SIZEOF_PageHeader + 18 ]}.

(** *** A tree that is a single leaf *)

(** A LEAF page as [init_page] and [page_insert] leave it: header
    within the page, directory of [cell_count] slots above [free_end],
    ascending keys, and every slot designating bytes below
    [free_start]. *)
Definition leaf_ok (page : Page) : Prop :=
  page_level (header page) = LEAF
  ∧ 0 ≤ cell_count (header page)
  ∧ SIZEOF_PageHeader ≤ free_start (header page)
  ∧ free_start (header page) ≤ free_end (header page)
  ∧ free_end (header page) + 2 * cell_count (header page) ≤ PAGE_SIZE
  ∧ slots_sorted page
  ∧ ∀ i, 0 ≤ i < cell_count (header page) → slot_at page i < free_start (header page).

(** What [btree_search] reads off the leaf it reached. *)
Definition leaf_lookup (page : Page) (key : list byte) : option (list byte) :=
  let result := search_record page key in
  if negb (found result) then None else Some (slot_value page (index result)).

(** The bytes a sequence of records takes in a leaf: each record and
    its slot. *)
Definition records_size (kvs : list (list byte * list byte)) : Z :=
  foldr (λ kv acc, SIZEOF_RecordHeader + key_size kv.1 + key_size kv.2
                   + SIZEOF_slot + acc) 0 kvs.

(** ** Expression evaluation: operators and messages *)

(** The comparison operators of [evaluate_expr]. *)
Definition comparison_ops : list string := ["="; "=="; "<"; ">"; "<="; ">="].

(** The messages the operator dispatch of [evaluate_expr] can throw
    for the operator [op]. *)
Definition binary_errors (op : string) : list string :=
  if bool_decide (op ∈ "+" :: comparison_ops) then []
  else if bool_decide (op ∈ ["-"; "*"; "AND"; "&&"; "OR"; "||"])
  then ["Expected integer value"]
  else if bool_decide (op = "/") then ["Expected integer value"; "Division by zero"]
  else ["Unknown binary operator: " +:+ op].

(** The messages [evaluate_expr] can throw on [expr]. *)
Fixpoint error_messages (expr : Executor.Expr) : list string :=
  match expr with
  | Executor.ENull => ["Null expression"]
  | Executor.EIdentifier name =>
      ["Column not found: " +:+ name; "Column index out of bounds: " +:+ name]
  | Executor.ENumber _ | Executor.EString _ => []
  | Executor.EUnary => ["Unsupported expression kind"]
  | Executor.EBinary op l r => error_messages l ++ error_messages r ++ binary_errors op
  end.

(** The expression holds a division. *)
Fixpoint has_division (expr : Executor.Expr) : bool :=
  match expr with
  | Executor.EBinary op l r => String.eqb op "/" || has_division l || has_division r
  | _ => false
  end.

(** ** Plans and the planner ([src/planner/plan.h], [src/planner/planner.cpp]) *)

Module Planner.
Import Executor.

(** [plan.h]: the plan nodes; [NullPlan] is the null pointer.  The
    type [Assignment] of [parser/statements/update.h] is not part of
    the sources; the planner only passes assignments on, so plans are
    parametric in it. *)
Inductive Plan (Assignment : Type) : Type :=
| NullPlan
| SeqScanPlan (table : string)
| IndexScanPlan (table index_name : string)
| FilterPlan (predicate : Expr) (source : Plan Assignment)
| ProjectPlan (projections : list Expr) (source : Plan Assignment)
| SortPlan (order_by : list Expr) (source : Plan Assignment)
| InsertPlan (table : string) (columns : list string) (source : Plan Assignment)
| UpdatePlan (table : string) (assignments : list Assignment) (source : Plan Assignment)
| DeletePlan (table : string) (source : Plan Assignment)
| CollectPlan (source : Plan Assignment)
| ValuesPlan (values : list Expr).

Arguments NullPlan {Assignment}.
Arguments SeqScanPlan {Assignment} table.
Arguments IndexScanPlan {Assignment} table index_name.
Arguments FilterPlan {Assignment} predicate source.
Arguments ProjectPlan {Assignment} projections source.
Arguments SortPlan {Assignment} order_by source.
Arguments InsertPlan {Assignment} table columns source.
Arguments UpdatePlan {Assignment} table assignments source.
Arguments DeletePlan {Assignment} table source.
Arguments CollectPlan {Assignment} source.
Arguments ValuesPlan {Assignment} values.

(** [parser/statements.h] *)
Record ColumnDef : Type := mkColumnDef {
  name : string;
  data_type : string;
  is_primary_key : bool;
  is_unique : bool;
  is_not_null : bool
}.

(** [parser/statements.h: SelectStmt]; a null [where] is [ENull]. *)
Record SelectStmt : Type := mkSelectStmt {
  select_columns : list Expr;
  select_table : string;
  select_where : Expr;
  select_order_by : list Expr;
  select_group_by : list Expr
}.

Inductive CreateStmt : Type :=
| CreateDatabaseStmt (database_name : string)
| CreateTableStmt (table_name : string) (columns : list ColumnDef).

(** Modelled from the spec: [parser/statements/insert.h] is not part
    of the sources.  Section 7 names the statement kinds; the fields
    are the ones [build_insert_plan] reads. *)
Record InsertStmt : Type := mkInsertStmt {
  insert_table : string;
  insert_columns : list string;
  insert_values : list Expr
}.

(** Modelled from the spec: [parser/statements/update.h] is not part
    of the sources.  Section 7 names the statement kinds; the fields
    are the ones [build_update_plan] reads. *)
Record UpdateStmt (Assignment : Type) : Type := mkUpdateStmt {
  update_table : string;
  update_assignments : list Assignment;
  update_where : Expr
}.

Arguments mkUpdateStmt {Assignment}.
Arguments update_table {Assignment}.
Arguments update_assignments {Assignment}.
Arguments update_where {Assignment}.

(** Modelled from the spec: [parser/statements/delete.h] is not part
    of the sources.  Section 7 names the statement kinds; the fields
    are the ones [build_delete_plan] reads. *)
Record DeleteStmt : Type := mkDeleteStmt {
  delete_table : string;
  delete_where : Expr
}.

(** Modelled from the spec: [parser/statements/statement.h] is not
    part of the sources.  Section 7: a closed set of statement kinds;
    the tags are the ones [build_plan] switches on. *)
Inductive Statement (Assignment : Type) : Type :=
| Select (s : SelectStmt)
| Insert (s : InsertStmt)
| Update (s : UpdateStmt Assignment)
| Delete (s : DeleteStmt)
| Create (s : CreateStmt).

Arguments Select {Assignment} s.
Arguments Insert {Assignment} s.
Arguments Update {Assignment} s.
Arguments Delete {Assignment} s.
Arguments Create {Assignment} s.

Definition is_null (e : Expr) : bool :=
  match e with ENull => true | _ => false end.

Section Build.
Context {Assignment : Type}.

(** [planner.cpp: needs_collection] *)
Fixpoint needs_collection (plan : Plan Assignment) : bool :=
  match plan with
  | NullPlan => false
  | SeqScanPlan _ => true
  | IndexScanPlan _ _ => true
  | FilterPlan _ source => needs_collection source
  | ProjectPlan _ source => needs_collection source
  | ValuesPlan _ => false
  | CollectPlan _ => false
  | _ => false
  end.

(** [planner.cpp: build_select_plan] *)
Definition build_select_plan (select_stmt : SelectStmt) : Plan Assignment :=
  let plan := SeqScanPlan (select_table select_stmt) in
  let plan :=
    if negb (is_null (select_where select_stmt))
    then FilterPlan (select_where select_stmt) plan else plan in
  let plan :=
    if negb (bool_decide (select_order_by select_stmt = []))
    then SortPlan (select_order_by select_stmt) (CollectPlan plan) else plan in
  if negb (bool_decide (select_columns select_stmt = []))
  then ProjectPlan (select_columns select_stmt) plan else plan.

(** [planner.cpp: build_insert_plan] *)
Definition build_insert_plan (insert_stmt : InsertStmt) : Plan Assignment :=
  let values_plan := ValuesPlan (insert_values insert_stmt) in
  InsertPlan (insert_table insert_stmt) (insert_columns insert_stmt) values_plan.

(** [planner.cpp: build_update_plan] *)
Definition build_update_plan (update_stmt : UpdateStmt Assignment) : Plan Assignment :=
  let plan := SeqScanPlan (update_table update_stmt) in
  let plan :=
    if negb (is_null (update_where update_stmt))
    then FilterPlan (update_where update_stmt) plan else plan in
  let plan := if needs_collection plan then CollectPlan plan else plan in
  UpdatePlan (update_table update_stmt) (update_assignments update_stmt) plan.

(** [planner.cpp: build_delete_plan] *)
Definition build_delete_plan (delete_stmt : DeleteStmt) : Plan Assignment :=
  let plan := SeqScanPlan (delete_table delete_stmt) in
  let plan :=
    if negb (is_null (delete_where delete_stmt))
    then FilterPlan (delete_where delete_stmt) plan else plan in
  let plan := if needs_collection plan then CollectPlan plan else plan in
  DeletePlan (delete_table delete_stmt) plan.

(** [planner.cpp: build_plan] *)
Definition build_plan (stmt : Statement Assignment) : Outcome (Plan Assignment) :=
  match stmt with
  | Select s => Ok (build_select_plan s)
  | Insert s => Ok (build_insert_plan s)
  | Update s => Ok (build_update_plan s)
  | Delete s => Ok (build_delete_plan s)
  | Create _ => Throw "CREATE statements do not require execution plans"
  end.

End Build.
End Planner.

(** ** The executor pipeline ([src/executor]) *)

Module Engine.
Import Executor Planner.

(** [types.h] *)
Definition Table : Type := list Tuple.

(** [storage.h]: the tables by name. *)
Record Storage : Type := mkStorage { tables : gmap string Table }.

(** [storage.cpp: Storage::Storage] *)
Definition new_storage : Storage :=
  mkStorage {[ "users" := [ [VInt 1; VString "Alice"; VInt 20];
                            [VInt 2; VString "Bob"; VInt 17];
                            [VInt 3; VString "Carol"; VInt 25] ] ]}.

(** [storage.cpp: Storage::get_table]: the table, created empty when
    it is missing. *)
Definition get_table (s : Storage) (name : string) : Table * Storage :=
  match tables s !! name with
  | Some t => (t, s)
  | None => ([], mkStorage (<[name := []]> (tables s)))
  end.

(** [storage.cpp: Storage::insert] *)
Definition Storage_insert (s : Storage) (table : string) (tuple : Tuple) : Storage :=
  let '(t, s1) := get_table s table in
  mkStorage (<[table := t ++ [tuple]]> (tables s1)).

(** [storage.cpp: Storage::has_table] *)
Definition has_table (s : Storage) (name : string) : bool :=
  bool_decide (is_Some (tables s !! name)).

(** [executors.h]: the executor objects.  A [SeqScanExecutor] points
    to a table of the storage; the table is read through the storage
    at every [next]. *)
Inductive Exec : Type :=
| SeqScanExecutor (table_name : string) (cursor : nat)
| FilterExecutor (child : Exec) (predicate : Expr) (column_names : list string)
| ProjectExecutor (child : Exec) (projections : list Expr) (column_names : list string).

(** [*table] of a [SeqScanExecutor]. *)
Definition table_of (s : Storage) (name : string) : Table :=
  default [] (tables s !! name).

(** The loop of [ProjectExecutor::next] over the projections. *)
Definition project_tuple (projections : list Expr) (input : Tuple)
    (column_names : list string) : Outcome Tuple :=
  ofoldl (λ output proj, value ← evaluate_expr proj input column_names;
                         Ok (output ++ [value]))
         [] projections.

(** [executors.cpp]: [SeqScanExecutor::next], [FilterExecutor::next]
    and [ProjectExecutor::next]; one unit of fuel per call and per
    round of the loop of the filter. *)
Fixpoint next (fuel : nat) (s : Storage) (e : Exec) : Outcome (option Tuple * Exec) :=
  match fuel with
  | O => OutOfFuel
  | S fuel' =>
      match e with
      | SeqScanExecutor table_name cursor =>
          match table_of s table_name !! cursor with
          | None => Ok (None, e)
          | Some t => Ok (Some t, SeqScanExecutor table_name (S cursor))
          end
      | FilterExecutor child predicate column_names =>
          '(tuple, child') ← next fuel' s child;
          match tuple with
          | None => Ok (None, FilterExecutor child' predicate column_names)
          | Some t =>
              pass ← evaluate_predicate predicate t column_names;
              if (pass : bool)
              then Ok (Some t, FilterExecutor child' predicate column_names)
              else next fuel' s (FilterExecutor child' predicate column_names)
          end
      | ProjectExecutor child projections column_names =>
          '(input_tuple, child') ← next fuel' s child;
          match input_tuple with
          | None => Ok (None, ProjectExecutor child' projections column_names)
          | Some t =>
              output_tuple ← project_tuple projections t column_names;
              Ok (Some output_tuple, ProjectExecutor child' projections column_names)
          end
      end
  end.

Section Factory.
Context {Assignment : Type}.

(** The walk of [build_executor] from the source of a Filter or
    Project node down to the base table: the column names of the
    schema for the table of the first [SeqScan] below Filter and
    Project nodes, empty when there is none or the schema does not
    know the table. *)
Fixpoint base_columns (child_plan : Plan Assignment)
    (schema : gmap string (list string)) : list string :=
  match child_plan with
  | SeqScanPlan table => default [] (schema !! table)
  | FilterPlan _ source => base_columns source schema
  | ProjectPlan _ source => base_columns source schema
  | _ => []
  end.

(** [executor_factory.cpp: build_executor]; the constructor of
    [SeqScanExecutor] calls [get_table], which may add a table to the
    storage. *)
Fixpoint build_executor (plan : Plan Assignment) (s : Storage)
    (schema : gmap string (list string)) : Outcome (Exec * Storage) :=
  match plan with
  | NullPlan => Throw "Null plan"
  | SeqScanPlan table =>
      let '(_, s') := get_table s table in Ok (SeqScanExecutor table 0, s')
  | FilterPlan predicate source =>
      '(child, s') ← build_executor source s schema;
      Ok (FilterExecutor child predicate (base_columns source schema), s')
  | ProjectPlan projections source =>
      '(child, s') ← build_executor source s schema;
      Ok (ProjectExecutor child projections (base_columns source schema), s')
  | _ => Throw "Unsupported plan type in executor factory"
  end.

(** The loop of [execute_plan]. *)
Fixpoint pull (fuel : nat) (s : Storage) (root_executor : Exec) (results : list Tuple)
    : Outcome (list Tuple) :=
  match fuel with
  | O => OutOfFuel
  | S fuel' =>
      '(tuple, root_executor') ← next fuel' s root_executor;
      match tuple with
      | None => Ok results
      | Some t => pull fuel' s root_executor' (results ++ [t])
      end
  end.

(** [executor.cpp: execute_plan]: the result rows and the storage as
    the call leaves it. *)
Definition execute_plan (fuel : nat) (plan : Plan Assignment) (s : Storage)
    (schema : gmap string (list string)) : Outcome (list Tuple * Storage) :=
  '(root_executor, s') ← build_executor plan s schema;
  results ← pull fuel s' root_executor [];
  Ok (results, s').

(** *** The meaning of a plan, row by row *)

(** The plan is a stack of Filter and Project nodes over a SeqScan:
    the plans [build_executor] accepts. *)
Fixpoint supported (plan : Plan Assignment) : bool :=
  match plan with
  | SeqScanPlan _ => true
  | FilterPlan _ source | ProjectPlan _ source => supported source
  | _ => false
  end.

(** The table of the scan at the bottom of the stack. *)
Fixpoint base_table (plan : Plan Assignment) : string :=
  match plan with
  | SeqScanPlan table => table
  | FilterPlan _ source | ProjectPlan _ source => base_table source
  | _ => ""
  end.

(** The number of Filter and Project nodes of the stack. *)
Fixpoint depth (plan : Plan Assignment) : nat :=
  match plan with
  | FilterPlan _ source | ProjectPlan _ source => S (depth source)
  | _ => 0
  end.

(** The executor tree of a plan with the scan at [cursor]. *)
Fixpoint exec_at (plan : Plan Assignment) (schema : gmap string (list string))
    (cursor : nat) : Exec :=
  match plan with
  | FilterPlan predicate source =>
      FilterExecutor (exec_at source schema cursor) predicate (base_columns source schema)
  | ProjectPlan projections source =>
      ProjectExecutor (exec_at source schema cursor) projections (base_columns source schema)
  | _ => SeqScanExecutor (base_table plan) cursor
  end.

(** What the stack makes of one row of the table: the row it outputs,
    nothing when a filter rejects the row, or the error of the first
    evaluation that fails, from the scan upwards. *)
Fixpoint row_result (plan : Plan Assignment) (schema : gmap string (list string))
    (t : Tuple) : Outcome (option Tuple) :=
  match plan with
  | FilterPlan predicate source =>
      r ← row_result source schema t;
      match r with
      | None => Ok None
      | Some t' =>
          pass ← evaluate_predicate predicate t' (base_columns source schema);
          Ok (if (pass : bool) then Some t' else None)
      end
  | ProjectPlan projections source =>
      r ← row_result source schema t;
      match r with
      | None => Ok None
      | Some t' =>
          output ← project_tuple projections t' (base_columns source schema);
          Ok (Some output)
      end
  | _ => Ok (Some t)
  end.

(** The rows a plan outputs over the rows of a table, in table order;
    the first row that fails decides the error. *)
Fixpoint rows_result (plan : Plan Assignment) (schema : gmap string (list string))
    (rows : list Tuple) : Outcome (list Tuple) :=
  match rows with
  | [] => Ok []
  | t :: rest =>
      r ← row_result plan schema t;
      output ← rows_result plan schema rest;
      Ok (match r with Some t' => t' :: output | None => output end)
  end.

(** The first row the stack outputs, with the number of rows it
    consumed before. *)
Fixpoint first_hit (plan : Plan Assignment) (schema : gmap string (list string))
    (rows : list Tuple) : Outcome (option (nat * Tuple)) :=
  match rows with
  | [] => Ok None
  | t :: rest =>
      r ← row_result plan schema t;
      match r with
      | Some output => Ok (Some (0%nat, output))
      | None =>
          h ← first_hit plan schema rest;
          Ok (match h with
              | Some (k, output) => Some (S k, output)
              | None => None
              end)
      end
  end.

End Factory.

(** The schema of [executor/main.cpp]. *)
Definition users_schema : gmap string (list string) :=
  {[ "users" := ["id"; "name"; "age"] ]}.

End Engine.

(** ** Plans: what the factory and the planner look at *)

Module PlanShape.
Import Executor Planner.

Section Shape.
Context {Assignment : Type}.

(** The node below the Filter and Project nodes at the top of a plan. *)
Fixpoint bottom (plan : Plan Assignment) : Plan Assignment :=
  match plan with
  | FilterPlan _ source | ProjectPlan _ source => bottom source
  | _ => plan
  end.

(** Cursor safety of section 7: no Sort, Update or Delete node reads
    from a source that [needs_collection]. *)
Fixpoint barrier_ok (plan : Plan Assignment) : bool :=
  match plan with
  | SortPlan _ source | UpdatePlan _ _ source | DeletePlan _ source =>
      negb (needs_collection source) && barrier_ok source
  | FilterPlan _ source | ProjectPlan _ source | InsertPlan _ _ source
  | CollectPlan source => barrier_ok source
  | _ => true
  end.

End Shape.
End PlanShape.

(** ** The lexer and the expression parser ([src/parser/parser.cpp]) *)

Module Parser.
Import Executor.

(** [TokenType]; the enumerators carry the prefix [T_]. *)
Inductive TokenType : Type :=
| T_Identifier | T_Number | T_String
| T_Select | T_From | T_Where | T_And | T_Or
| T_OrderBy | T_GroupBy | T_By
| T_Create | T_Database | T_Table | T_In
| T_Primary | T_Key | T_Unique | T_Not | T_Null
| T_Insert | T_Into | T_Values
| T_Update | T_Set
| T_Delete
| T_Plus | T_Minus | T_Star | T_Slash
| T_Eq | T_Lt | T_Gt | T_LtEq | T_GtEq
| T_Comma | T_Semicolon
| T_LParen | T_RParen
| T_End.

#[global] Instance TokenType_eq_dec : EqDecision TokenType.
Proof. solve_decision. Defined.

Record Token : Type := mkToken { type : TokenType; text : string }.

(** The classes of [<cctype>] in the "C" locale; a byte above 127 is
    in none of them. *)
Definition code (c : Ascii.ascii) : N := Ascii.N_of_ascii c.

Definition isspace (c : Ascii.ascii) : bool :=
  (code c =? 32)%N || ((9 <=? code c)%N && (code c <=? 13)%N).

Definition isdigit (c : Ascii.ascii) : bool := (48 <=? code c)%N && (code c <=? 57)%N.

Definition isalpha (c : Ascii.ascii) : bool :=
  ((65 <=? code c)%N && (code c <=? 90)%N) || ((97 <=? code c)%N && (code c <=? 122)%N).

Definition isalnum (c : Ascii.ascii) : bool := isalpha c || isdigit c.

Definition is_char (c : Ascii.ascii) (d : string) : bool :=
  match d with
  | String.String d' String.EmptyString => Ascii.eqb c d'
  | _ => false
  end.

(** [while (pos < input.size() && p(input[pos])) pos++]: the
    characters passed and the rest of the input. *)
Fixpoint scan_while (p : Ascii.ascii → bool) (input : list Ascii.ascii)
    : list Ascii.ascii * list Ascii.ascii :=
  match input with
  | c :: rest =>
      if p c then let '(word, rest') := scan_while p rest in (c :: word, rest')
      else ([], input)
  | [] => ([], [])
  end.

(** The loop over the body of a string literal: the body and the
    input after the closing quote, or nothing when the input ends
    first.  A backslash takes the next character with it. *)
Fixpoint scan_string (input : list Ascii.ascii) : option (list Ascii.ascii * list Ascii.ascii) :=
  match input with
  | [] => None
  | c :: rest =>
      if is_char c "'" then Some ([], rest)
      else
        match rest with
        | d :: rest' =>
            if is_char c "\" then
              '(str, after) ← scan_string rest'; Some (c :: d :: str, after)
            else '(str, after) ← scan_string rest; Some (c :: str, after)
        | [] => None
        end
  end.

Definition keyword (word : string) : TokenType :=
  if String.eqb word "SELECT" then T_Select
  else if String.eqb word "FROM" then T_From
  else if String.eqb word "WHERE" then T_Where
  else if String.eqb word "AND" then T_And
  else if String.eqb word "OR" then T_Or
  else if String.eqb word "ORDER" then T_OrderBy
  else if String.eqb word "GROUP" then T_GroupBy
  else if String.eqb word "BY" then T_By
  else if String.eqb word "CREATE" then T_Create
  else if String.eqb word "DATABASE" then T_Database
  else if String.eqb word "TABLE" then T_Table
  else if String.eqb word "IN" then T_In
  else if String.eqb word "PRIMARY" then T_Primary
  else if String.eqb word "KEY" then T_Key
  else if String.eqb word "UNIQUE" then T_Unique
  else if String.eqb word "NOT" then T_Not
  else if String.eqb word "NULL" then T_Null
  else if String.eqb word "INSERT" then T_Insert
  else if String.eqb word "INTO" then T_Into
  else if String.eqb word "VALUES" then T_Values
  else if String.eqb word "UPDATE" then T_Update
  else if String.eqb word "SET" then T_Set
  else if String.eqb word "DELETE" then T_Delete
  else T_Identifier.

Definition str (l : list Ascii.ascii) : string := String.string_of_list_ascii l.

(** [Lexer::next] on the input from [pos] on: the token and the input
    that is left. *)
Definition next (input : list Ascii.ascii) : Outcome (Token * list Ascii.ascii) :=
  let input := snd (scan_while isspace input) in
  match input with
  | [] => Ok (mkToken T_End "", [])
  | c :: rest =>
      if isalpha c || is_char c "_" then
        let '(word, rest') := scan_while (λ c, isalnum c || is_char c "_") input in
        Ok (mkToken (keyword (str word)) (str word), rest')
      else if is_char c "'" then
        match scan_string rest with
        | None => Throw "Unterminated string literal"
        | Some (body, rest') => Ok (mkToken T_String (str body), rest')
        end
      else if isdigit c then
        let '(digits, rest1) := scan_while isdigit input in
        match rest1 with
        | d :: rest2 =>
            if is_char d "." then
              let '(fraction, rest3) := scan_while isdigit rest2 in
              Ok (mkToken T_Number (str (digits ++ d :: fraction)), rest3)
            else Ok (mkToken T_Number (str digits), rest1)
        | [] => Ok (mkToken T_Number (str digits), rest1)
        end
      else if is_char c "+" then Ok (mkToken T_Plus "+", rest)
      else if is_char c "-" then Ok (mkToken T_Minus "-", rest)
      else if is_char c "*" then Ok (mkToken T_Star "*", rest)
      else if is_char c "/" then Ok (mkToken T_Slash "/", rest)
      else if is_char c "=" then Ok (mkToken T_Eq "=", rest)
      else if is_char c "<" then
        match rest with
        | d :: rest' => if is_char d "=" then Ok (mkToken T_LtEq "<=", rest')
                        else Ok (mkToken T_Lt "<", rest)
        | [] => Ok (mkToken T_Lt "<", rest)
        end
      else if is_char c ">" then
        match rest with
        | d :: rest' => if is_char d "=" then Ok (mkToken T_GtEq ">=", rest')
                        else Ok (mkToken T_Gt ">", rest)
        | [] => Ok (mkToken T_Gt ">", rest)
        end
      else if is_char c "," then Ok (mkToken T_Comma ",", rest)
      else if is_char c ";" then Ok (mkToken T_Semicolon ";", rest)
      else if is_char c "(" then Ok (mkToken T_LParen "(", rest)
      else if is_char c ")" then Ok (mkToken T_RParen ")", rest)
      else Throw "Unknown character"
  end.

(** [precedence] *)
Definition precedence (t : Token) : Z :=
  match type t with
  | T_Or => 5
  | T_And => 10
  | T_Eq | T_Lt | T_Gt | T_LtEq | T_GtEq => 20
  | T_Plus | T_Minus => 30
  | T_Star | T_Slash => 40
  | _ => 0
  end.

(** [Parser]: the lexer (its input from [pos] on) and the current
    token. *)
Record ParserState : Type := mkParser { lexer : list Ascii.ascii; current : Token }.

(** [Parser::Parser] *)
Definition new_parser (s : string) : Outcome ParserState :=
  '(tok, rest) ← next (String.list_ascii_of_string s);
  Ok (mkParser rest tok).

(** [Parser::eat] *)
Definition eat (p : ParserState) (t : TokenType) : Outcome ParserState :=
  if negb (bool_decide (type (current p) = t)) then Throw "Unexpected token"
  else '(tok, rest) ← next (lexer p); Ok (mkParser rest tok).

(** [std::stoi] on the text of a Number token: the digits before the
    decimal point, read in base ten; a value that does not fit [int]
    is the exception [std::out_of_range]. *)
Definition digit_value (c : Ascii.ascii) : Z := Z.of_N (code c) - 48.

Definition stoi (text : string) : Outcome Z :=
  let digits := fst (scan_while isdigit (String.list_ascii_of_string text)) in
  let value := foldl (λ acc c, acc * 10 + digit_value c) 0 digits in
  if value >? 2147483647 then Throw "stoi" else Ok value.

(** [Parser::parse_expr], its loop, and [Parser::parse_primary]; one
    unit of fuel per call and per round of the loop. *)
Fixpoint parse_expr (fuel : nat) (p : ParserState) (min_prec : Z)
    : Outcome (Expr * ParserState) :=
  match fuel with
  | O => OutOfFuel
  | S fuel' =>
      '(left_, p) ← parse_primary fuel' p;
      parse_loop fuel' p min_prec left_
  end
with parse_loop (fuel : nat) (p : ParserState) (min_prec : Z) (left_ : Expr)
    : Outcome (Expr * ParserState) :=
  match fuel with
  | O => OutOfFuel
  | S fuel' =>
      if precedence (current p) >? min_prec then
        let op := current p in
        p ← eat p (type (current p));
        '(right_, p) ← parse_expr fuel' p (precedence op);
        parse_loop fuel' p min_prec (EBinary (text op) left_ right_)
      else Ok (left_, p)
  end
with parse_primary (fuel : nat) (p : ParserState) : Outcome (Expr * ParserState) :=
  match fuel with
  | O => OutOfFuel
  | S fuel' =>
      match type (current p) with
      | T_Identifier =>
          let name := text (current p) in
          p ← eat p T_Identifier; Ok (EIdentifier name, p)
      | T_Number =>
          val ← stoi (text (current p));
          p ← eat p T_Number; Ok (ENumber val, p)
      | T_String =>
          let val := text (current p) in
          p ← eat p T_String; Ok (EString val, p)
      | T_LParen =>
          p ← eat p T_LParen;
          '(e, p) ← parse_expr fuel' p 0;
          p ← eat p T_RParen;
          Ok (e, p)
      | _ => Throw "Invalid expression"
      end
  end.

(** An expression parsed from a string: [Parser parser(s)] followed
    by [parser.parse_expr()]. *)
Definition parse_expression (fuel : nat) (s : string) : Outcome Expr :=
  p ← new_parser s;
  '(e, _) ← parse_expr fuel p 0;
  Ok e.

(** The operator texts the lexer gives to the tokens that have a
    precedence. *)
Definition parser_ops : list string :=
  ["OR"; "AND"; "="; "<"; ">"; "<="; ">="; "+"; "-"; "*"; "/"].

(** Expressions built from identifiers, numbers, strings and the
    operators of the parser. *)
Fixpoint parsed_shape (e : Expr) : bool :=
  match e with
  | EIdentifier _ | ENumber _ | EString _ => true
  | EBinary op l r => bool_decide (op ∈ parser_ops) && parsed_shape l && parsed_shape r
  | _ => false
  end.

(** The current token of a parser, when it has a precedence, carries
    one of the operator texts. *)
Definition token_ok (t : Token) : bool :=
  (precedence t <=? 0) || bool_decide (text t ∈ parser_ops).

(** The messages of the lexer and of the expression parser. *)
Definition parser_errors : list string :=
  ["Unterminated string literal"; "Unknown character"; "Unexpected token";
   "Invalid expression"; "stoi"].

(** The lexeme of a token: its text, for a string literal between
    quotes. *)
Definition lexeme (t : Token) : list Ascii.ascii :=
  let body := String.list_ascii_of_string (text t) in
  if bool_decide (type t = T_String)
  then String.list_ascii_of_string "'" ++ body ++ String.list_ascii_of_string "'"
  else body.

(** The tokens still to be read, counted from above: the characters
    left, and one for a current token that is not [End]. *)
Definition remaining (p : ParserState) : nat :=
  length (lexer p) + (if bool_decide (type (current p) = T_End) then 0 else 1).

(** What a run of the parser ends in: an expression of the parser's
    shape and a state with fewer tokens left, one of the parser's
    messages, or, without result, a fuel below the bound. *)
Definition parse_outcome (strict : bool) (bound : nat) (fuel : nat) (p : ParserState)
    (r : Outcome (Expr * ParserState)) : Prop :=
  match r with
  | Ok (e, p') =>
      parsed_shape e = true ∧ token_ok (current p') = true
      ∧ (if strict then remaining p' < remaining p else remaining p' ≤ remaining p)%nat
  | Throw m => m ∈ parser_errors
  | OutOfFuel => (fuel < bound)%nat
  | _ => False
  end.

End Parser.

(** *** Internal pages with room *)

(** An INTERNAL page as [init_page] and [insert_internal_no_split]
    leave it: header within the page, directory of [cell_count] slots
    above [free_end], ascending keys, and every slot designating bytes
    below [free_start]. *)
Definition internal_ok (page : Page) : Prop :=
  page_level (header page) = INTERNAL
  ∧ 0 ≤ cell_count (header page)
  ∧ SIZEOF_PageHeader ≤ free_start (header page)
  ∧ free_start (header page) ≤ free_end (header page)
  ∧ free_end (header page) + 2 * cell_count (header page) ≤ PAGE_SIZE
  ∧ slots_sorted page
  ∧ ∀ i, 0 ≤ i < cell_count (header page) → slot_at page i < free_start (header page).

(** ** Expressions written out *)

Module Printer.
Import Executor Parser.

Definition chars (s : string) : list Ascii.ascii := String.list_ascii_of_string s.

Definition digit (d : Z) : Ascii.ascii := Ascii.ascii_of_N (Z.to_N (48 + d)).

(** The decimal digits of [n] in front of [acc], at most [fuel] of
    them. *)
Fixpoint decimal (fuel : nat) (n : Z) (acc : list Ascii.ascii) : list Ascii.ascii :=
  match fuel with
  | O => acc
  | S fuel' =>
      let acc' := digit (n mod 10) :: acc in
      if n <? 10 then acc' else decimal fuel' (n / 10) acc'
  end.

(** A number of [int] without sign has at most ten digits. *)
Definition numeral (value : Z) : list Ascii.ascii := decimal 10 value [].

(** An expression as text, every operation in parentheses. *)
Fixpoint render (e : Expr) : list Ascii.ascii :=
  match e with
  | EIdentifier name => chars name
  | ENumber value => numeral value
  | EString value => chars "'" ++ chars value ++ chars "'"
  | EBinary op l r =>
      chars "(" ++ render l ++ chars " " ++ chars op ++ chars " " ++ render r ++ chars ")"
  | _ => []
  end.

Definition print (e : Expr) : string := str (render e).

(** A name the lexer reads as one Identifier token. *)
Definition identifier_ok (name : string) : bool :=
  match chars name with
  | c :: _ =>
      (isalpha c || is_char c "_")
      && forallb (λ c, isalnum c || is_char c "_") (chars name)
      && bool_decide (keyword name = T_Identifier)
  | [] => false
  end.

(** The expressions that can be written: names of the lexer, numbers
    of [int] without sign, strings without quote and backslash, and
    the operators of the parser. *)
Fixpoint printable (e : Expr) : bool :=
  match e with
  | EIdentifier name => identifier_ok name
  | ENumber value => (0 <=? value) && (value <=? 2147483647)
  | EString value =>
      forallb (λ c, negb (is_char c "'") && negb (is_char c "\")) (chars value)
  | EBinary op l r => bool_decide (op ∈ parser_ops) && printable l && printable r
  | _ => false
  end.

(** The depth of the operations of an expression. *)
Fixpoint nesting (e : Expr) : nat :=
  match e with
  | EBinary _ l r => S (Nat.max (nesting l) (nesting r))
  | _ => 0
  end.

(** What may follow an expression in the text. *)
Definition delimited (rest : list Ascii.ascii) : bool :=
  match rest with
  | [] => true
  | c :: _ => is_char c " " || is_char c ")"
  end.

End Printer.

(** ** Operators in a row *)

Module Chain.
Import Executor Parser Printer.

(** The precedence of the token the lexer makes of an operator. *)
Definition op_precedence (op : string) : Z :=
  match next (chars op) with
  | Ok (tok, _) => precedence tok
  | _ => 0
  end.

(** Three operands and two operators written in a row, without
    parentheses around the operations. *)
Definition chain (a : Expr) (op1 : string) (b : Expr) (op2 : string) (c : Expr) : string :=
  str (render a ++ chars " " ++ chars op1 ++ chars " "
       ++ render b ++ chars " " ++ chars op2 ++ chars " " ++ render c).

End Chain.

(** * Theorems *)

(** Closed goals: split the conjunctions and evaluate. *)
Ltac evaluate :=
  cbv zeta;
  repeat match goal with |- _ ∧ _ => split end;
  vm_compute; reflexivity.

(** ** Slot directory: what the loops of [page.cpp] compute *)

Example remove_slot_1_of_3 :
  slot_list <$> (p ← insert_slot (init_page 0 DATA LEAF) 0 12;
                 p ← insert_slot p 1 13; p ← insert_slot p 2 14; remove_slot p 1)
  = Ok [12; 14].
Proof. vm_compute. reflexivity. Qed.

(** The first loop of [remove_slot] copies upwards in ascending order:
    from index 2 on, every slot below the removed one receives the word
    of slot 0. *)
Example remove_slot_3_of_4 :
  slot_list <$> (p ← insert_slot (init_page 0 DATA LEAF) 0 12;
                 p ← insert_slot p 1 13; p ← insert_slot p 2 14;
                 p ← insert_slot p 3 15; remove_slot p 3)
  = Ok [12; 12; 12].
Proof. vm_compute. reflexivity. Qed.

(** ** Expression evaluation *)

Section Evaluator.
Import Executor.







End Evaluator.

(** ** Duplicate keys *)

Ltac case_outcome :=
  match goal with
  | |- context [obind _ ?m] => destruct m as [?| | | |] eqn:?; simpl
  | |- context [let '(_, _) := ?p in _] => destruct p eqn:?; simpl
  | |- context [if ?b then _ else _] => destruct b eqn:?; simpl
  end.

Lemma move_large_record_true fuel th lid lp nid np key value th' :
  move_large_record fuel th lid lp nid np key value ≠ Ok (false, th').
Proof.
  unfold move_large_record, mbind, Outcome_bind.
  repeat case_outcome; congruence.
Qed.

(** C3.  [btree_insert] returns [false] exactly when the key is
    already present in the leaf the descent reaches for it; the call
    then leaves the handle and every page as they were, so
    [btree_search] sees the same value, of the same size, for every
    key. *)
Theorem btree_insert_false_iff_duplicate fuel th key value :
  (∀ th', btree_insert fuel th key value = Ok (false, th')
          ↔ key_in_target_leaf th key = true ∧ th' = th)
  ∧ (∀ th' k, btree_insert fuel th key value = Ok (false, th')
              → dm th' = dm th ∧ btree_search th' k = btree_search th k).
Proof.
  assert (H : ∀ th', btree_insert fuel th key value = Ok (false, th')
                     ↔ key_in_target_leaf th key = true ∧ th' = th).
  { intros th'. unfold btree_insert, key_in_target_leaf, mbind, Outcome_bind.
    destruct (th_root_page th =? 0) eqn:Hroot; simpl.
    - split; [|intros [? _]; discriminate].
      repeat case_outcome; congruence.
    - destruct (find_leaf_page th key) as [[lid lp]| | | |] eqn:Hfind; simpl;
        try (split; [discriminate | intros [? _]; discriminate]).
      destruct (found (search_record lp key)) eqn:Hfound; simpl.
      + split; [intros [= <-]; auto | intros [_ ->]; reflexivity].
      + split; [|intros [? _]; discriminate].
        repeat case_outcome; try congruence.
        all: intros Hm; exfalso; eapply move_large_record_true; exact Hm. }
  split; [exact H|].
  intros th' k Hins. apply H in Hins as [_ ->]. auto.
Qed.

(** Scenario 4 of section 8: the second insert of a key is refused and
    the first value stays. *)
Example duplicate_insert_is_rejected :
  results_of [(bytes "a", bytes "val1"); (bytes "a", bytes "dup")] = Ok [true; false]
  ∧ btree_search (table_after [(bytes "a", bytes "val1"); (bytes "a", bytes "dup")])
      (bytes "a") = Ok (Some (bytes "val1")).
Proof. evaluate. Qed.

(** ** Bounded descent *)

Lemma internal_find_child_not_out_of_fuel page key :
  internal_find_child page key ≠ OutOfFuel.
Proof.
  unfold internal_find_child, mbind, Outcome_bind, assert_that.
  destruct (bool_decide _); simpl; [|discriminate].
  repeat case_outcome; discriminate.
Qed.

Section Descent.
Variable d : gmap Z Page.
Variable key : list byte.

(** With the depth counter at [depth], [101 - depth] page reads are
    enough, and more fuel changes nothing. *)
Lemma find_leaf_loop_enough fuel :
  ∀ pid depth, 0 ≤ depth ≤ 100 → 101 - depth ≤ Z.of_nat fuel →
    find_leaf_loop fuel d key pid depth ≠ OutOfFuel
    ∧ ∀ fuel', 101 - depth ≤ Z.of_nat fuel' →
        find_leaf_loop fuel' d key pid depth = find_leaf_loop fuel d key pid depth.
Proof.
  induction fuel as [|fuel IH]; intros pid depth Hd Hf; [lia|].
  assert (Hstep : ∀ f, find_leaf_loop (S f) d key pid depth =
    let out_page := read_page d pid in
    if bool_decide (page_level (header out_page) = LEAF) then Ok (pid, out_page)
    else next_page_id ← internal_find_child out_page key;
         if (next_page_id =? 0) || (next_page_id >=? 1000000)
         then Ok (UINT32_MAX, out_page)
         else if depth + 1 >? 100 then Ok (UINT32_MAX, out_page)
              else find_leaf_loop f d key next_page_id (depth + 1)) by reflexivity.
  split.
  - rewrite Hstep. cbv zeta. unfold mbind, Outcome_bind.
    destruct (bool_decide _); [discriminate|].
    pose proof (internal_find_child_not_out_of_fuel (read_page d pid) key) as Hc.
    destruct (internal_find_child _ _) as [next| | | |]; simpl; try discriminate;
      [|congruence].
    destruct (_ || _); [discriminate|].
    destruct (depth + 1 >? 100) eqn:E; [discriminate|].
    apply IH; lia.
  - intros [|fuel'] Hf'; [lia|].
    rewrite !Hstep. cbv zeta. unfold mbind, Outcome_bind.
    destruct (bool_decide _); [reflexivity|].
    destruct (internal_find_child _ _) as [next| | | |]; simpl; try reflexivity.
    destruct (_ || _); [reflexivity|].
    destruct (depth + 1 >? 100) eqn:E; [reflexivity|].
    destruct (IH next (depth + 1)) as [_ IH']; [lia | lia |].
    apply IH'. lia.
Qed.

Lemma find_leaf_loop_descend k :
  ∀ fuel pid depth p,
    descend_n k d key pid = Some p → 0 ≤ depth → depth + Z.of_nat k ≤ 100 →
    find_leaf_loop (k + fuel) d key pid depth
    = find_leaf_loop fuel d key p (depth + Z.of_nat k).
Proof.
  induction k as [|k IH]; intros fuel pid depth p Hk Hd Hle; simpl in Hk.
  - injection Hk as ->. simpl. f_equal. lia.
  - destruct (descend d key pid) as [next|] eqn:Hdesc; [|discriminate].
    unfold descend in Hdesc.
    change (S k + fuel)%nat with (S (k + fuel)). simpl.
    destruct (bool_decide _); [discriminate|].
    destruct (internal_find_child _ _) as [n| | | |]; try discriminate. simpl.
    destruct (_ || _); [discriminate|]. injection Hdesc as ->.
    destruct (depth + 1 >? 100) eqn:E; [lia|].
    rewrite (IH fuel next (depth + 1) p Hk); [f_equal; lia | lia | lia].
Qed.

Lemma descend_n_snoc k :
  ∀ pid, descend_n (S k) d key pid = descend_n k d key pid ≫= descend d key.
Proof.
  induction k as [|k IH]; intros pid.
  - simpl. destruct (descend d key pid); reflexivity.
  - cbn [descend_n] in *.
    destruct (descend d key pid) as [next|]; [|reflexivity].
    apply IH.
Qed.

Lemma find_leaf_loop_bounded root :
  find_leaf_loop find_leaf_fuel d key root 0 ≠ OutOfFuel
  ∧ (∀ fuel, (find_leaf_fuel ≤ fuel)%nat →
       find_leaf_loop fuel d key root 0 = find_leaf_loop find_leaf_fuel d key root 0)
  ∧ (∀ k p, (k ≤ 100)%nat → descend_n k d key root = Some p →
       page_level (header (read_page d p)) = LEAF →
       find_leaf_loop find_leaf_fuel d key root 0 = Ok (p, read_page d p))
  ∧ (is_Some (descend_n 101 d key root) →
       ∃ out_page, find_leaf_loop find_leaf_fuel d key root 0 = Ok (UINT32_MAX, out_page)).
Proof.
  unfold find_leaf_fuel.
  destruct (find_leaf_loop_enough 101 root 0) as [Hne Heq]; [lia | lia |].
  split; [exact Hne|]. split; [intros fuel Hf; apply Heq; lia|]. split.
  - intros k p Hk Hdesc Hleaf.
    replace 101%nat with (k + S (100 - k))%nat by lia.
    rewrite (find_leaf_loop_descend k _ root 0 p Hdesc); [|lia|lia].
    simpl. rewrite Hleaf. reflexivity.
  - intros [q Hq]. rewrite descend_n_snoc in Hq.
    destruct (descend_n 100 d key root) as [p|] eqn:Hp; [|discriminate].
    simpl in Hq. exists (read_page d p).
    change 101%nat with (100 + 1)%nat.
    rewrite (find_leaf_loop_descend 100 _ root 0 p Hp); [|lia|lia].
    unfold descend in Hq. simpl.
    destruct (bool_decide _); [discriminate|].
    destruct (internal_find_child _ _) as [n| | | |]; try discriminate. simpl.
    destruct (_ || _); [discriminate|]. reflexivity.
Qed.

End Descent.

(** The descent follows no child id that is 0 or at least 1,000,000. *)
Lemma descend_valid d key pid next :
  descend d key pid = Some next → next ≠ 0 ∧ next < 1000000.
Proof.
  unfold descend. destruct (bool_decide _); [discriminate|].
  destruct (internal_find_child _ _) as [n| | | |]; try discriminate.
  destruct (_ || _) eqn:E; [discriminate|]. intros [= <-]. lia.
Qed.

(** C8.  [find_leaf_page] terminates on every input: the 101 page
    reads it is given are enough, and more fuel gives the same result.
    It starts at [root_page], follows the children that
    [internal_find_child] names through INTERNAL pages and returns the
    first LEAF page it meets within depth 100; when 101 descents are
    possible it stops and returns the sentinel [UINT32_MAX]. *)
Theorem find_leaf_page_bounded_descent th key :
  find_leaf_page th key ≠ OutOfFuel
  ∧ (∀ fuel, (find_leaf_fuel ≤ fuel)%nat →
       find_leaf_loop fuel (dm th) key (th_root_page th) 0 = find_leaf_page th key)
  ∧ (∀ k p, (k ≤ 100)%nat → descend_n k (dm th) key (th_root_page th) = Some p →
       page_level (header (read_page (dm th) p)) = LEAF →
       find_leaf_page th key = Ok (p, read_page (dm th) p))
  ∧ (is_Some (descend_n 101 (dm th) key (th_root_page th)) →
       ∃ out_page, find_leaf_page th key = Ok (UINT32_MAX, out_page)).
Proof. apply find_leaf_loop_bounded. Qed.

(** A page that is its own leftmost child: the descent gives up after
    depth 100. *)
Example find_leaf_page_cycle :
  find_leaf_page (mkTableHandle {[ 1 := self_loop_page 1 ]} 1 2) (bytes "k")
  = Ok (UINT32_MAX, self_loop_page 1).
Proof. vm_compute. reflexivity. Qed.

(** ** Section 8 on concrete tables *)

(** C1.  Five inserts into a fresh table all return [true]; the fifth
    splits the root leaf, and the key "b" is no longer found. *)
Theorem btree_search_loses_inserted_key :
  results_of five_inserts = Ok [true; true; true; true; true]
  ∧ btree_search (table_after five_inserts) (bytes "a") = Ok (Some (filler 2000))
  ∧ btree_search (table_after five_inserts) (bytes "b") = Ok None
  ∧ page_keys (read_page (dm (table_after five_inserts)) 1) = [bytes "a"; bytes "a"].
Proof. evaluate. Qed.

(** The same defect on scenario 5 of section 8: the insert of
    "small_key_4" splits the leaf of four records, and "small_key_1",
    which stays on the left page, is no longer found. *)
Example large_value_test_loses_small_key_1 :
  results_of large_value_test = Ok [true; true; true; true; true; true]
  ∧ btree_search (table_after large_value_test) (bytes "large_key1")
    = Ok (Some (filler 8000))
  ∧ btree_search (table_after large_value_test) (bytes "small_key_1") = Ok None
  ∧ page_keys (read_page (dm (table_after large_value_test)) 1)
    = [bytes "large_key1"; bytes "large_key1"].
Proof. evaluate. Qed.

(** A second defect behind C1: [insert_into_parent] splits a full
    parent and passes the separator of that split upwards, but never
    inserts the pair it was called with.  After 33 ascending inserts
    the leaf that holds the keys 32 and 33 is the child of no page. *)
Example btree_insert_orphans_leaf_of_full_parent :
  results_of (ascending_inserts 33) = Ok (repeat true 33)
  ∧ btree_search (table_after (ascending_inserts 33)) (wide_key 33) = Ok None
  ∧ page_keys (read_page (dm (table_after (ascending_inserts 33))) 33)
    = [wide_key 32; wide_key 33]
  ∧ forallb (λ p, negb (bool_decide
                          (33 ∈ children (read_page (dm (table_after (ascending_inserts 33))) p))))
            (seqZ 0 (next_free_page_id (table_after (ascending_inserts 33)))) = true.
Proof. evaluate. Qed.

(** C2.  Seven inserts into a fresh table all return [true]; afterwards
    the root is an INTERNAL page whose entry 0 has the key "a", and its
    leftmost child holds the key "a": P3 fails at the root. *)
Theorem btree_insert_breaks_separator_contract :
  let th := table_after seven_inserts in
  let root := read_page (dm th) (th_root_page th) in
  results_of seven_inserts = Ok [true; true; true; true; true; true; true]
  ∧ page_level (header root) = INTERNAL
  ∧ slot_key root 0 = bytes "a"
  ∧ subtree_keys 4 (dm th) (reserved (header root)) = [bytes "a"]
  ∧ separator_contract 4 (dm th) (th_root_page th) = false.
Proof. evaluate. Qed.

(** C5.  After one oversized record, the insert of a small record
    finds no room, calls [split_leaf_page] on the leaf with its single
    slot and halts on the guard of the split; the branch of
    [btree_insert] that moves the oversized record is never entered. *)
Theorem btree_insert_oversized_then_small_halts :
  results_of [(bytes "big", filler 8100)] = Ok [true]
  ∧ btree_insert 8 (table_after [(bytes "big", filler 8100)]) (bytes "a") (filler 100)
    = AssertFail "Cannot split page with less than 2 elements".
Proof. evaluate. Qed.

(** C9.  On the branch [pos == cell_count], [internal_find_child]
    returns the child of the last entry unchecked, here the id
    2,000,000, while the branch [0 < pos < cell_count] halts on the
    same id; [find_leaf_page] answers the returned id with the
    sentinel and leaves the INTERNAL page in the buffer. *)
Theorem internal_find_child_returns_large_id :
  internal_find_child (internal_page_with_child 3 2000000) (bytes "z") = Ok 2000000
  ∧ internal_find_child (two_entries 2000000) (bytes "k")
    = AssertFail "Invalid child page ID"
  ∧ find_leaf_page (mkTableHandle {[ 3 := internal_page_with_child 3 2000000 ]} 3 4)
      (bytes "z")
    = Ok (UINT32_MAX, internal_page_with_child 3 2000000).
Proof. evaluate. Qed.

(** ** Key order *)

Lemma byte_lt_total x y : byte_lt x y = false → byte_lt y x = false → x = y.
Proof.
  unfold byte_lt. intros H1%N.ltb_ge H2%N.ltb_ge.
  assert (E : Byte.to_N x = Byte.to_N y) by lia.
  apply (f_equal Byte.of_N) in E. rewrite !Byte.of_to_N in E. congruence.
Qed.

Lemma byte_lt_asym x y : byte_lt x y = true → byte_lt y x = false.
Proof. unfold byte_lt. intros H%N.ltb_lt. apply N.ltb_ge. lia. Qed.

Lemma byte_lt_trans x y z : byte_lt x y = true → byte_lt y z = true → byte_lt x z = true.
Proof. unfold byte_lt. intros H1%N.ltb_lt H2%N.ltb_lt. apply N.ltb_lt. lia. Qed.

Lemma compare_keys_antisym a : ∀ b, compare_keys b a = - compare_keys a b.
Proof.
  induction a as [|x a IH]; intros [|y b]; simpl; try reflexivity.
  destruct (byte_lt x y) eqn:Exy, (byte_lt y x) eqn:Eyx; try reflexivity.
  - rewrite (byte_lt_asym _ _ Exy) in Eyx. discriminate.
  - apply IH.
Qed.

Lemma compare_keys_range a : ∀ b, -1 ≤ compare_keys a b ≤ 1.
Proof.
  induction a as [|x a IH]; intros [|y b]; simpl; try lia.
  destruct (byte_lt x y), (byte_lt y x); try lia. apply IH.
Qed.

Lemma compare_keys_lt_le_trans a :
  ∀ b c, compare_keys a b < 0 → compare_keys b c ≤ 0 → compare_keys a c < 0.
Proof.
  induction a as [|x a IH]; intros [|y b] [|z c]; simpl; try lia.
  destruct (byte_lt x y) eqn:Exy.
  - intros _. destruct (byte_lt y z) eqn:Eyz.
    + intros _. rewrite (byte_lt_trans _ _ _ Exy Eyz). lia.
    + destruct (byte_lt z y) eqn:Ezy; [lia|].
      rewrite <- (byte_lt_total _ _ Eyz Ezy), Exy. lia.
  - destruct (byte_lt y x) eqn:Eyx; [lia|].
    rewrite <- (byte_lt_total _ _ Exy Eyx).
    destruct (byte_lt x z) eqn:Exz; [lia|].
    destruct (byte_lt z x) eqn:Ezx; [lia|]. apply IH.
Qed.

(** B5: "ab" < "abc" < "b". *)
Example compare_keys_prefix_order :
  compare_keys (bytes "ab") (bytes "abc") = -1
  ∧ compare_keys (bytes "abc") (bytes "b") = -1
  ∧ compare_keys (bytes "b") (bytes "b") = 0.
Proof. evaluate. Qed.

(** ** Child dispatch *)

Section FindChild.
Variable page : Page.
Variable key : list byte.
Hypothesis Hsorted : slots_sorted page.

Let n := cell_count (header page).

Lemma key_ge_below i mid :
  0 ≤ i → i ≤ mid → mid < n →
  0 ≤ compare_keys key (slot_key page mid) → 0 ≤ compare_keys key (slot_key page i).
Proof.
  intros Hi Him Hmn Hge.
  destruct (decide (i = mid)) as [->|Hne]; [exact Hge|].
  assert (Hlt : compare_keys (slot_key page i) (slot_key page mid) < 0)
    by (apply Hsorted; lia).
  assert (Hle : compare_keys (slot_key page mid) key ≤ 0)
    by (rewrite compare_keys_antisym; lia).
  pose proof (compare_keys_lt_le_trans _ _ _ Hlt Hle) as Hik.
  rewrite compare_keys_antisym in Hik. lia.
Qed.

Lemma key_lt_above i mid :
  0 ≤ mid → mid ≤ i → i < n →
  compare_keys key (slot_key page mid) < 0 → compare_keys key (slot_key page i) < 0.
Proof.
  intros Hm Hmi Hin Hlt.
  destruct (decide (i = mid)) as [->|Hne]; [exact Hlt|].
  apply (compare_keys_lt_le_trans _ _ _ Hlt).
  assert (compare_keys (slot_key page mid) (slot_key page i) < 0)
    by (apply Hsorted; lia).
  lia.
Qed.

(** The loop invariant of the binary search: [pos] is [right + 1],
    the slots below [left] are not above the key, the slots from [pos]
    on are. *)
Lemma find_child_loop_spec fuel :
  ∀ left right,
    0 ≤ left → left ≤ right + 1 → right < n → right - left + 1 ≤ Z.of_nat fuel →
    (∀ i, 0 ≤ i < left → 0 ≤ compare_keys key (slot_key page i)) →
    (∀ i, right < i < n → compare_keys key (slot_key page i) < 0) →
    let pos := find_child_loop fuel page key left right (right + 1) in
    left ≤ pos ≤ right + 1
    ∧ (∀ i, 0 ≤ i < pos → 0 ≤ compare_keys key (slot_key page i))
    ∧ (∀ i, pos ≤ i < n → compare_keys key (slot_key page i) < 0).
Proof.
  induction fuel as [|fuel IH]; intros left right Hl Hlr Hr Hf Hlo Hhi; simpl.
  - assert (left = right + 1) as -> by lia.
    split; [lia|]. split; [exact Hlo | intros i Hi; apply Hhi; lia].
  - destruct (left <=? right) eqn:E.
    + apply Z.leb_le in E.
      assert (Hq : (right + left) `quot` 2 = (right + left) / 2)
        by (apply Z.quot_div_nonneg; lia).
      rewrite Hq. set (mid := (right + left) / 2).
      assert (Hmid : left ≤ mid ≤ right) by (unfold mid; Z.div_mod_to_equations; lia).
      destruct (compare_keys key (slot_key page mid) <? 0) eqn:C.
      * apply Z.ltb_lt in C.
        assert (IH' := IH left (mid - 1)).
        replace (mid - 1 + 1) with mid in IH' by lia.
        destruct IH' as (H1 & H2 & H3); try lia; try assumption.
        { intros i Hi. apply (key_lt_above i mid); lia. }
        split; [lia|]. split; assumption.
      * apply Z.ltb_ge in C.
        destruct (IH (mid + 1) right) as (H1 & H2 & H3); try lia; try assumption.
        { intros i Hi. apply (key_ge_below i mid); lia. }
        split; [lia|]. split; assumption.
    + apply Z.leb_gt in E. assert (left = right + 1) as -> by lia.
      split; [lia|]. split; [exact Hlo | intros i Hi; apply Hhi; lia].
Qed.

Lemma find_child_pos_spec :
  0 ≤ n →
  let pos := find_child_pos page key in
  0 ≤ pos ≤ n
  ∧ (∀ i, 0 ≤ i < pos → 0 ≤ compare_keys key (slot_key page i))
  ∧ (∀ i, pos ≤ i < n → compare_keys key (slot_key page i) < 0).
Proof.
  intros Hn. unfold find_child_pos. fold n.
  assert (H := find_child_loop_spec (S (Z.to_nat n)) 0 (n - 1)).
  replace (n - 1 + 1) with n in H by lia.
  destruct H as (H1 & H2 & H3); try lia.
  split; [lia|]. split; assumption.
Qed.

End FindChild.

(** C6.  On an INTERNAL page whose slot keys are ascending,
    [internal_find_child] computes [pos], the smallest slot index whose
    key is above the search key ([cell_count] when there is none), and
    returns the leftmost child of [reserved] when [pos = 0], the child
    of entry [pos - 1] when [0 < pos < cell_count], and the child of the
    last entry when [pos = cell_count]; in the first two cases the id
    it returns has passed the function's validity check. *)
Theorem internal_find_child_dispatch page key :
  page_level (header page) = INTERNAL →
  0 ≤ cell_count (header page) →
  slots_sorted page →
  let n := cell_count (header page) in
  let pos := find_child_pos page key in
  (0 ≤ pos ≤ n
   ∧ (∀ i, 0 ≤ i < pos → 0 ≤ compare_keys key (slot_key page i))
   ∧ (∀ i, pos ≤ i < n → compare_keys key (slot_key page i) < 0))
  ∧ (pos = 0 → valid_leftmost (reserved (header page)) = true →
       internal_find_child page key = Ok (reserved (header page)))
  ∧ (0 < pos < n → valid_child_id (slot_child page (pos - 1)) = true →
       internal_find_child page key = Ok (slot_child page (pos - 1)))
  ∧ (pos = n → 0 < n →
       internal_find_child page key = Ok (slot_child page (n - 1))).
Proof.
  intros Hlevel Hn Hsorted n pos.
  pose proof (find_child_pos_spec page key Hsorted Hn) as Hpos.
  split; [exact Hpos|].
  unfold internal_find_child. rewrite Hlevel. simpl.
  fold pos. fold n.
  split; [|split].
  - intros -> Hv. simpl. unfold valid_leftmost in Hv. rewrite Hv. reflexivity.
  - intros Hp Hv. unfold valid_child_id in Hv.
    destruct (pos =? 0) eqn:E0; [lia|].
    destruct (pos =? n) eqn:En; [lia|].
    replace ((pos >? 0) && (pos <=? n) && (pos - 1 <? n)) with true by lia.
    apply andb_prop in Hv as [Hv1 Hv2].
    replace (slot_child page (pos - 1) =? 0) with false
      by (symmetry; apply negb_true_iff; exact Hv1).
    replace (slot_child page (pos - 1) >=? 1000000) with false by lia.
    reflexivity.
  - intros Hp Hn0.
    destruct (pos =? 0) eqn:E0; [lia|].
    destruct (pos =? n) eqn:En; [|lia].
    destruct (n =? 0) eqn:En0; [lia|]. reflexivity.
Qed.

Lemma internal_find_child_dispatch_witness :
  find_child_pos two_entry_page (bytes "k") = 1
  ∧ internal_find_child two_entry_page (bytes "k") = Ok 2.
Proof.
  split; [reflexivity|].
  assert (Hsorted : slots_sorted two_entry_page).
  { intros i j Hi Hij Hj. change (cell_count (header two_entry_page)) with 2 in Hj.
    assert (i = 0) as -> by lia. assert (j = 1) as -> by lia.
    vm_compute. reflexivity. }
  assert (Hn : 0 ≤ cell_count (header two_entry_page)) by (simpl; lia).
  destruct (internal_find_child_dispatch two_entry_page (bytes "k")
              eq_refl Hn Hsorted) as (_ & _ & Hmid & _).
  apply Hmid; [vm_compute; split; reflexivity | reflexivity].
Defined.

(** ** The slot directory under [insert_slot] at the end *)

Lemma read_copy_word_eq m dst src :
  read_slot_word (copy_word m dst src) dst = read_slot_word m src.
Proof. unfold copy_word, read_slot_word. rewrite lookup_insert_eq. reflexivity. Qed.

Lemma read_copy_word_ne m dst src a :
  a ≠ dst → read_slot_word (copy_word m dst src) a = read_slot_word m a.
Proof.
  intros Hne. unfold copy_word, read_slot_word.
  rewrite lookup_insert_ne by congruence. reflexivity.
Qed.

(** The first loop of [insert_slot]: copying downwards in ascending
    order moves every word. *)
Lemma insert_slot_shift_down (m : gmap Z Z) (ofe : Z) (k : nat) :
  let m' := foldl (λ m i, copy_word m (ofe - 2 + i * 2) (ofe + i * 2)) m
                  (seqZ 0 (Z.of_nat k)) in
  (∀ i, 0 ≤ i < Z.of_nat k →
        read_slot_word m' (ofe - 2 + i * 2) = read_slot_word m (ofe + i * 2))
  ∧ (∀ a, ofe - 2 + Z.of_nat k * 2 ≤ a → read_slot_word m' a = read_slot_word m a).
Proof.
  induction k as [|k IH].
  - simpl. split; [intros i Hi; lia | reflexivity].
  - rewrite seqZ_S, foldl_app. simpl.
    destruct IH as [IH1 IH2]. split.
    + intros i Hi. destruct (decide (i = Z.of_nat k)) as [->|Hne].
      * rewrite read_copy_word_eq. apply IH2. lia.
      * rewrite read_copy_word_ne by lia. apply IH1. lia.
    + intros a Ha. rewrite read_copy_word_ne by lia. apply IH2. lia.
Qed.

Lemma u16_small z : 0 ≤ z < 65536 → u16 z = z.
Proof. intros H. unfold u16. apply Z.mod_small. lia. Qed.

Lemma assert_that_ok b msg u : assert_that b msg = Ok u → b = true.
Proof. destruct b; [reflexivity | discriminate]. Qed.

Lemma obind_ok {A B} (f : A → Outcome B) (m : Outcome A) (b : B) :
  obind f m = Ok b → ∃ a, m = Ok a ∧ f a = Ok b.
Proof. destruct m; simpl; try discriminate. eauto. Qed.

(** Inversion of a successful run: every bind on the way succeeded. *)
Ltac inv_ok H :=
  unfold mbind, Outcome_bind in H;
  repeat match type of H with
         | obind _ _ = Ok _ =>
             let a := fresh "a" in let Ha := fresh "Ha" in
             apply obind_ok in H as (a & Ha & H)
         end.

(** [insert_slot] at index [cell_count] of a page whose directory holds
    exactly its slots. *)
Lemma insert_slot_append page off page' :
  let k := cell_count (header page) in
  0 ≤ k → 0 ≤ free_end (header page) → free_end (header page) = PAGE_SIZE - 2 * k →
  insert_slot page k off = Ok page' →
  header page' = with_cell_count (with_free_end (header page) (free_end (header page) - 2)) (k + 1)
  ∧ cells page' = cells page
  ∧ (∀ i, 0 ≤ i < k → slot_at page' i = slot_at page i)
  ∧ slot_at page' k = off
  ∧ free_start (header page) ≤ free_end (header page) - 2.
Proof.
  intros k Hk Hfe0 Hfe. unfold insert_slot. fold k.
  assert (Hk' : k ≤ 4096) by (unfold PAGE_SIZE in Hfe; lia).
  rewrite (u16_small (k + 1)) by lia.
  replace (k - k) with 0 by lia. rewrite (seqZ_nil (k + 1) 0) by lia. simpl foldl.
  intros Hins. inv_ok Hins. rename Ha into A1. rename Ha0 into A2.
  apply assert_that_ok in A1, A2. simpl in A1, A2. revert Hins.
  apply Z.leb_le in A2. unfold PAGE_SIZE in A2, Hfe.
  assert (Hfe2 : 2 ≤ free_end (header page)) by lia.
  unfold SIZEOF_slot in *.
  rewrite (u16_small (free_end (header page) - 2)) in * by lia.
  apply Z.leb_le in A1.
  intros [= <-]. simpl.
  destruct (insert_slot_shift_down (slotmem page) (free_end (header page)) (Z.to_nat k))
    as [S1 S2].
  rewrite Z2Nat.id in S1, S2 by lia.
  split; [reflexivity|]. split; [reflexivity|]. split; [|split].
  - intros i Hi. unfold slot_at, slot_ptr. simpl. unfold SIZEOF_slot.
    unfold read_slot_word at 1. rewrite lookup_insert_ne by lia.
    apply S1. lia.
  - unfold slot_at, slot_ptr. simpl. unfold SIZEOF_slot, read_slot_word.
    rewrite lookup_insert_eq. reflexivity.
  - exact A1.
Qed.

Lemma insert_slot_append_ok page off :
  let k := cell_count (header page) in
  0 ≤ k → free_end (header page) = PAGE_SIZE - 2 * k →
  0 ≤ free_start (header page) ≤ free_end (header page) - 2 →
  ∃ page', insert_slot page k off = Ok page'.
Proof.
  intros k Hk Hfe Hfs. unfold insert_slot. fold k.
  unfold PAGE_SIZE, SIZEOF_slot in *.
  rewrite (u16_small (k + 1)) by lia.
  rewrite (u16_small (free_end (header page) - 2)) by lia.
  unfold mbind, Outcome_bind, assert_that. simpl.
  replace (free_start (header page) <=? free_end (header page) - 2) with true by lia.
  simpl. unfold PAGE_SIZE.
  replace ((k + 1) * 2 <=? 8192) with true by lia.
  simpl. eauto.
Qed.

Lemma appended_init pid pt pl : appended (init_page pid pt pl) [].
Proof.
  unfold appended, init_page. simpl. unfold PAGE_SIZE, SIZEOF_PageHeader.
  split; [reflexivity|]. split; [reflexivity|]. split; [lia|].
  intros j c Hj. rewrite lookup_nil in Hj. discriminate.
Qed.

(** One record appended to a page under construction:
    [write_raw_record] followed by [insert_slot] at the end. *)
Lemma appended_step pg cs c size off pg1 pg2 :
  appended pg cs → 0 < size ≤ PAGE_SIZE →
  write_raw_record pg c size = (off, pg1) →
  insert_slot pg1 (cell_count (header pg1)) off = Ok pg2 →
  appended pg2 (cs ++ [c])
  ∧ page_level (header pg2) = page_level (header pg)
  ∧ parent_page_id (header pg2) = parent_page_id (header pg)
  ∧ reserved (header pg2) = reserved (header pg).
Proof.
  intros (Hcc & Hfe & Hfs & Hcells) Hsize Hw Hins.
  unfold write_raw_record in Hw. injection Hw as <- <-.
  unfold PAGE_SIZE in *.
  rewrite u16_small in Hins by lia.
  apply insert_slot_append in Hins; simpl in *; [|lia|lia|unfold PAGE_SIZE; lia].
  destruct Hins as (Hh & Hc & Hslots & Hlast & Hfit).
  split; [|rewrite Hh; simpl; auto].
  unfold appended. rewrite Hh, Hc. simpl. rewrite length_app. simpl.
  unfold PAGE_SIZE.
  split; [lia|]. split; [lia|]. split; [lia|].
  intros j c' Hj.
  destruct (decide (j < length cs)%nat) as [Hlt|Hge].
  - rewrite lookup_app_l in Hj by exact Hlt.
    destruct (Hcells j c' Hj) as [Hcell Hoff].
    assert (Hs : slot_at pg2 (Z.of_nat j) = slot_at pg (Z.of_nat j)).
    { rewrite Hslots by lia. unfold slot_at, slot_ptr. reflexivity. }
    rewrite Hs. rewrite lookup_insert_ne by lia. split; [exact Hcell | lia].
  - assert (j = length cs) as -> by (apply lookup_lt_Some in Hj; rewrite length_app in Hj; simpl in Hj; lia).
    rewrite list_lookup_middle in Hj by reflexivity. injection Hj as <-.
    rewrite <- Hcc, Hlast. rewrite lookup_insert_eq. split; [reflexivity | lia].
Qed.

Lemma appended_fresh pid pt pl parent :
  appended (set_header (init_page pid pt pl)
              (with_parent_page_id (header (init_page pid pt pl)) parent)) [].
Proof.
  unfold appended. simpl. unfold PAGE_SIZE, SIZEOF_PageHeader.
  split; [reflexivity|]. split; [reflexivity|]. split; [lia|].
  intros j c Hj. rewrite lookup_nil in Hj. discriminate.
Qed.

Lemma key_size_nonneg k : 0 ≤ key_size k.
Proof. unfold key_size. lia. Qed.

Lemma leaf_moved_size_nonneg page idxs : 0 ≤ leaf_moved_size page idxs.
Proof.
  induction idxs as [|i idxs IH]; simpl; [lia|].
  pose proof (key_size_nonneg (slot_key page i)).
  pose proof (key_size_nonneg (slot_value page i)).
  unfold SIZEOF_RecordHeader, SIZEOF_slot. lia.
Qed.

Lemma internal_moved_size_nonneg page idxs : 0 ≤ internal_moved_size page idxs.
Proof.
  induction idxs as [|i idxs IH]; simpl; [lia|].
  pose proof (key_size_nonneg (slot_key page i)).
  unfold SIZEOF_InternalEntry, SIZEOF_slot. lia.
Qed.

(** ** Removing the tail of the directory *)

Lemma remove_slot_header page idx page' :
  remove_slot page idx = Ok page' →
  header page' = with_cell_count
                   (with_free_end (header page) (u16 (free_end (header page) + SIZEOF_slot)))
                   (u16 (cell_count (header page) - 1))
  ∧ cells page' = cells page.
Proof.
  unfold remove_slot. destruct (idx >? _); [discriminate|].
  intros H. inv_ok H. injection H as <-. auto.
Qed.

(** The first loop of [remove_slot]: copying upwards in ascending
    order hands the word of slot 0 from slot to slot. *)
Lemma remove_slot_shift_up (m : gmap Z Z) (ofe : Z) (k : nat) :
  let m' := foldl (λ m i, copy_word m (ofe + 2 + i * 2) (ofe + i * 2)) m
                  (seqZ 0 (Z.of_nat k)) in
  (∀ i, 0 ≤ i < Z.of_nat k →
        read_slot_word m' (ofe + 2 + i * 2) = read_slot_word m ofe)
  ∧ (∀ a, a < ofe + 2 ∨ ofe + 2 + Z.of_nat k * 2 ≤ a →
          read_slot_word m' a = read_slot_word m a).
Proof.
  induction k as [|k IH].
  - simpl. split; [intros i Hi; lia | reflexivity].
  - rewrite seqZ_S, foldl_app. simpl.
    destruct IH as [IH1 IH2]. split.
    + intros i Hi. destruct (decide (i = Z.of_nat k)) as [->|Hne].
      * rewrite read_copy_word_eq.
        destruct k as [|k'].
        -- rewrite IH2 by lia. f_equal. lia.
        -- replace (ofe + (0 + Z.of_nat (S k')) * 2)
             with (ofe + 2 + Z.of_nat k' * 2) by lia.
           apply IH1. lia.
      * rewrite read_copy_word_ne by lia. apply IH1. lia.
    + intros a Ha. rewrite read_copy_word_ne by lia. apply IH2. lia.
Qed.

(** The second loop of [remove_slot] copies every word onto itself. *)
Lemma remove_slot_self_copy (m : gmap Z Z) (nfe ofe : Z) (idxs : list Z) :
  nfe = ofe + 2 →
  ∀ a, read_slot_word
         (foldl (λ m i, copy_word m (nfe + (i - 1) * 2) (ofe + i * 2)) m idxs) a
       = read_slot_word m a.
Proof.
  intros ->. revert m. induction idxs as [|i idxs IH]; intros m a; simpl; [reflexivity|].
  rewrite IH. destruct (decide (a = ofe + 2 + (i - 1) * 2)) as [->|Hne].
  - rewrite read_copy_word_eq. f_equal. lia.
  - apply read_copy_word_ne. exact Hne.
Qed.

(** What [remove_slot] leaves in the directory: the slots above the
    removed one move down, and every slot below it designates the
    record of slot 0. *)
Lemma remove_slot_slots page idx page' :
  0 ≤ idx → free_end (header page) + 2 < 65536 → 0 ≤ free_end (header page) →
  remove_slot page idx = Ok page' →
  (∀ i, 0 ≤ i < idx → slot_at page' i = slot_at page 0)
  ∧ (∀ i, idx ≤ i → slot_at page' i = slot_at page (i + 1)).
Proof.
  intros Hidx Hfe Hfe0. unfold remove_slot.
  destruct (idx >? _); [discriminate|].
  intros Hrun. inv_ok Hrun. injection Hrun as <-.
  unfold slot_at, slot_ptr, SIZEOF_slot. simpl.
  rewrite u16_small by lia.
  destruct (remove_slot_shift_up (slotmem page) (free_end (header page)) (Z.to_nat idx))
    as [S1 S2].
  rewrite Z2Nat.id in S1, S2 by lia.
  split; intros i Hi; rewrite remove_slot_self_copy by reflexivity.
  - rewrite S1 by lia. f_equal. lia.
  - rewrite S2 by lia. f_equal. lia.
Qed.

Lemma remove_tail_slots_count n :
  ∀ page page' keep,
    0 ≤ keep → cell_count (header page) = keep + Z.of_nat n → keep + Z.of_nat n < 65536 →
    remove_tail_slots n page keep = Ok page' →
    cell_count (header page') = keep
    ∧ cells page' = cells page
    ∧ page_level (header page') = page_level (header page)
    ∧ page_id (header page') = page_id (header page)
    ∧ parent_page_id (header page') = parent_page_id (header page)
    ∧ reserved (header page') = reserved (header page).
Proof.
  induction n as [|n IH]; intros page page' keep Hk Hcc Hlt Hrun; simpl in Hrun.
  - injection Hrun as <-. split; [lia | auto].
  - rewrite u16_small in Hrun by lia.
    destruct (_ >=? keep) eqn:E; [|lia].
    inv_ok Hrun. rename a into page1.
    apply remove_slot_header in Ha as [Hh Hc].
    destruct (IH page1 page' keep Hk) as (H1 & H2 & H3 & H4 & H5 & H6);
      [rewrite Hh; simpl; rewrite u16_small by lia; lia | lia | exact Hrun |].
    rewrite Hh in *. simpl in *. rewrite H2, Hc. repeat split; assumption.
Qed.

(** [remove_slot] of the last slot succeeds on a page whose directory
    lies within the page. *)
Lemma remove_slot_last_ok page :
  let cc := cell_count (header page) in
  1 ≤ cc → cc ≤ 4097 →
  0 ≤ free_end (header page) → free_end (header page) + 2 ≤ PAGE_SIZE →
  free_start (header page) ≤ free_end (header page) + 2 →
  ∃ page', remove_slot page (cc - 1) = Ok page'.
Proof.
  intros cc H1 H2 Hfe0 Hfe Hfs. unfold remove_slot. fold cc.
  replace (cc - 1 >? cc - 1) with false by lia.
  unfold PAGE_SIZE, SIZEOF_slot in *.
  rewrite (u16_small (free_end (header page) + 2)) by lia.
  rewrite (u16_small (cc - 1)) by lia.
  unfold mbind, Outcome_bind, assert_that. simpl.
  replace (free_start (header page) <=? free_end (header page) + 2) with true by lia.
  simpl. unfold PAGE_SIZE.
  replace ((cc - 1) * 2 <=? 8192) with true by lia.
  simpl. eauto.
Qed.

Lemma remove_tail_slots_ok n :
  ∀ page keep,
    0 ≤ keep → cell_count (header page) = keep + Z.of_nat n →
    keep + Z.of_nat n ≤ 4097 →
    0 ≤ free_end (header page) →
    free_end (header page) + 2 * Z.of_nat n ≤ PAGE_SIZE →
    free_start (header page) ≤ free_end (header page) →
    ∃ page', remove_tail_slots n page keep = Ok page'.
Proof.
  induction n as [|n IH]; intros page keep Hk Hcc Hmax Hfe0 Hfe Hfs; simpl.
  - eauto.
  - rewrite u16_small by lia.
    replace (cell_count (header page) - 1 >=? keep) with true by lia.
    destruct (remove_slot_last_ok page) as [page1 Hrem]; try lia.
    rewrite Hrem. simpl.
    apply remove_slot_header in Hrem as [Hh _].
    unfold SIZEOF_slot, PAGE_SIZE in *.
    rewrite (u16_small (free_end (header page) + 2)) in Hh by lia.
    rewrite (u16_small (cell_count (header page) - 1)) in Hh by lia.
    apply IH; rewrite ?Hh; simpl; try lia.
Qed.

Lemma header_not_corrupted h :
  header_corrupted h = false →
  SIZEOF_PageHeader ≤ free_start h ∧ free_start h ≤ free_end h ∧ free_end h ≤ PAGE_SIZE.
Proof.
  unfold header_corrupted. intros H.
  repeat (apply orb_false_elim in H as [H ?]). lia.
Qed.

(** ** Leaf split *)

Section LeafCopy.
Variable page : Page.
Hypothesis Hleaf : page_level (header page) = LEAF.

Lemma leaf_cell_view i :
  leaf_cell page i = LeafRecord (slot_key page i) (slot_value page i).
Proof.
  unfold leaf_cell, slot_key, slot_value. rewrite Hleaf.
  destruct (leaf_record_at page (slot_at page i)); reflexivity.
Qed.


(** The copy loop of [split_leaf_page] succeeds when the records fit
    in the free space of the page under construction, and its result
    is the page with the records appended. *)
Lemma split_leaf_copy_loop_ok idxs :
  ∀ pg cs,
    appended pg cs →
    free_start (header pg) + leaf_moved_size page idxs ≤ free_end (header pg) →
    ∃ pg', ofoldl (split_leaf_copy page) pg idxs = Ok pg'
           ∧ appended pg' (cs ++ (leaf_cell page <$> idxs))
           ∧ page_level (header pg') = page_level (header pg)
           ∧ parent_page_id (header pg') = parent_page_id (header pg).
Proof.
  induction idxs as [|i idxs IH]; intros pg cs Hinv Hroom.
  - exists pg. simpl. rewrite app_nil_r. auto.
  - cbn [leaf_moved_size foldr] in Hroom. fold (leaf_moved_size page idxs) in Hroom.
    pose proof (leaf_moved_size_nonneg page idxs) as Hm.
    pose proof (key_size_nonneg (slot_key page i)) as Hk.
    pose proof (key_size_nonneg (slot_value page i)) as Hv.
    pose proof Hinv as (Hcc & Hfe & Hfs & _).
    unfold SIZEOF_RecordHeader, SIZEOF_slot, PAGE_SIZE in *.
    set (size := 4 + key_size (slot_key page i) + key_size (slot_value page i)) in *.
    assert (Hsz0 : 4 ≤ size) by (unfold size; lia).
    assert (Hstep : ∃ pg1, split_leaf_copy page pg i = Ok pg1
                           ∧ insert_slot (snd (write_raw_record pg (leaf_cell page i) size))
                               (cell_count (header pg)) (free_start (header pg)) = Ok pg1).
    { unfold split_leaf_copy.
      pose proof (leaf_cell_view i) as Hview. unfold leaf_cell in *.
      destruct (leaf_record_at page (slot_at page i)) as [rkey rvalue].
      injection Hview as -> ->.
      unfold record_size, SIZEOF_RecordHeader. fold size.
      rewrite (u16_small size) by lia.
      destruct (insert_slot_append_ok
                  (snd (write_raw_record pg (LeafRecord (slot_key page i) (slot_value page i)) size))
                  (free_start (header pg))) as [pg1 Hins].
      - simpl. lia.
      - simpl. unfold PAGE_SIZE. lia.
      - simpl. rewrite u16_small by lia. lia.
      - exists pg1. split; exact Hins. }
    destruct Hstep as (pg1 & Hstep & Hins).
    assert (Hsize : 0 < size ≤ PAGE_SIZE) by (unfold PAGE_SIZE; lia).
    destruct (appended_step pg cs (leaf_cell page i) size _ _ pg1 Hinv Hsize eq_refl Hins)
      as (Hinv1 & Hl1 & Hp1 & _).
    destruct (IH pg1 (cs ++ [leaf_cell page i]) Hinv1) as (pg' & Hrun & Hinv' & Hl' & Hp').
    { destruct (insert_slot_append
                  (snd (write_raw_record pg (leaf_cell page i) size))
                  (free_start (header pg)) pg1) as (Hh & _);
        [simpl; lia | simpl; lia | simpl; unfold PAGE_SIZE; lia | exact Hins |].
      rewrite Hh. simpl. rewrite u16_small by lia. lia. }
    exists pg'. simpl. rewrite Hstep. simpl.
    rewrite <- app_assoc in Hinv'. simpl in Hinv'.
    split; [exact Hrun|]. split; [exact Hinv'|]. split; congruence.
Qed.

End LeafCopy.

Lemma appended_leaf_records pg idxs page :
  page_level (header page) = LEAF → page_level (header pg) = LEAF →
  appended pg (leaf_cell page <$> idxs) →
  leaf_records pg = (λ i, (slot_key page i, slot_value page i)) <$> idxs.
Proof.
  intros Hpage Hpg (Hcc & _ & _ & Hcells).
  unfold leaf_records. rewrite Hcc, length_fmap.
  apply list_eq. intros j. rewrite !list_lookup_fmap.
  destruct (idxs !! j) as [i|] eqn:Hj; simpl.
  - assert (Hlt : (j < length idxs)%nat) by (eapply lookup_lt_Some; eauto).
    rewrite lookup_seqZ_lt by lia. simpl.
    destruct (Hcells j (leaf_cell page i)) as [Hcell _].
    { rewrite list_lookup_fmap, Hj. reflexivity. }
    rewrite leaf_cell_view in Hcell by exact Hpage.
    unfold slot_key, slot_value, leaf_record_at, cell_at. rewrite Hpg.
    replace (0 + Z.of_nat j) with (Z.of_nat j) by lia.
    rewrite Hcell. reflexivity.
  - apply lookup_ge_None in Hj. rewrite lookup_seqZ_ge by lia. reflexivity.
Qed.

(** C7, as amended.  On every page with fewer than two slots
    [split_leaf_page] halts on an assertion (on a LEAF page with a
    header within bounds it is the guard "Cannot split page with less
    than 2 elements").  On a LEAF page with at least two slots (header
    within bounds, directory of exactly [cell_count] slots, the
    records to move fitting an empty page), [split_index] is
    [cell_count / 2], which is at least 1, and the key of slot
    [split_index] decides: with more than 256 bytes the function halts
    on "Key too large"; with at most 256 bytes it returns: the page
    written under the newly allocated id is a LEAF page that holds
    exactly the records of the slots [split_index .. cell_count-1], in
    order; the original keeps [split_index] slots; and the separator
    is the key of slot 0 of the new page, which is the key of slot
    [split_index] of the original. *)
Theorem split_leaf_page_shape th page :
  let total := cell_count (header page) in
  let split_index := total `quot` 2 in
  (total < 2 →
   ∃ msg, split_leaf_page th page = AssertFail msg
          ∧ (page_level (header page) = LEAF →
             header_corrupted (header page) = false →
             msg = "Cannot split page with less than 2 elements"))
  ∧ (page_level (header page) = LEAF →
     header_corrupted (header page) = false →
     free_end (header page) = PAGE_SIZE - 2 * total →
     2 ≤ total →
     SIZEOF_PageHeader + leaf_moved_size page (seqZ split_index (total - split_index))
       ≤ PAGE_SIZE →
     (256 < key_size (slot_key page split_index) →
      split_leaf_page th page = AssertFail "Key too large")
     ∧ (key_size (slot_key page split_index) ≤ 256 →
        ∃ res page' th',
          split_leaf_page th page = Ok (res, page', th')
          ∧ 1 ≤ split_index
          ∧ new_page res = next_free_page_id th
          ∧ page_level (header (read_page (dm th') (new_page res))) = LEAF
          ∧ leaf_records (read_page (dm th') (new_page res))
            = (λ i, (slot_key page i, slot_value page i))
                <$> seqZ split_index (total - split_index)
          ∧ cell_count (header page') = split_index
          ∧ seperator_key res = slot_key (read_page (dm th') (new_page res)) 0
          ∧ seperator_key res = slot_key page split_index)).
Proof.
  intros total split_index. split.
  { intros Htot. unfold split_leaf_page. fold total.
    destruct (decide (page_level (header page) = LEAF)) as [Hleaf|Hleaf].
    - rewrite bool_decide_eq_true_2 by exact Hleaf.
      cbv beta iota zeta delta [mbind Outcome_bind obind assert_that allocate_page].
      destruct (header_corrupted (header page)) eqn:Hcorr.
      + eexists. split; [reflexivity | discriminate].
      + replace (total <? 2) with true by lia. eexists. split; reflexivity.
    - rewrite bool_decide_eq_false_2 by exact Hleaf.
      eexists. split; [reflexivity | contradiction]. }
  intros Hleaf Hcorr Hfe Htot Hroom.
  destruct (header_not_corrupted _ Hcorr) as (Hfs1 & Hfs2 & Hfe2).
  unfold PAGE_SIZE, SIZEOF_PageHeader in *.
  assert (Hq : total `quot` 2 = total / 2) by (apply Z.quot_div_nonneg; lia).
  assert (Hsi : 1 ≤ split_index ∧ split_index < total)
    by (unfold split_index; rewrite Hq; split; Z.div_mod_to_equations; lia).
  set (idxs := seqZ split_index (total - split_index)) in *.
  set (new_pg := set_header (init_page (next_free_page_id th) DATA LEAF)
                   (with_parent_page_id (header (init_page (next_free_page_id th) DATA LEAF))
                      (parent_page_id (header page)))).
  destruct (split_leaf_copy_loop_ok page Hleaf idxs new_pg []
              (appended_fresh _ _ _ _)) as (new_pg1 & Hcopy & Hinv & Hlvl & _).
  { simpl. unfold SIZEOF_PageHeader, PAGE_SIZE. lia. }
  destruct (remove_tail_slots_ok (Z.to_nat (total - split_index)) page split_index)
    as [left' Hrem]; try (fold total; unfold PAGE_SIZE; lia).
  simpl in Hinv, Hlvl.
  assert (Hrecs := appended_leaf_records _ _ _ Hleaf Hlvl Hinv).
  assert (Hcc1 : cell_count (header new_pg1) = total - split_index).
  { destruct Hinv as (Hc & _). rewrite Hc, length_fmap. unfold idxs.
    rewrite length_seqZ. lia. }
  assert (Hkey : slot_key new_pg1 0 = slot_key page split_index).
  { assert (Hl : leaf_records new_pg1 !! 0%nat
                 = Some (slot_key page split_index, slot_value page split_index)).
    { rewrite Hrecs, list_lookup_fmap. unfold idxs. rewrite lookup_seqZ_lt by lia.
      simpl. do 3 f_equal; lia. }
    unfold leaf_records in Hl. rewrite list_lookup_fmap, lookup_seqZ_lt in Hl by lia.
    simpl in Hl. injection Hl as Hl _. exact Hl. }
  pose proof Hrem as Hcount.
  apply remove_tail_slots_count in Hcount as (Hcount & _); [|lia|fold total; lia|lia].
  assert (Hrun : split_leaf_page th page
                 = if key_size (slot_key page split_index) >? 256
                   then AssertFail "Key too large"
                   else Ok (mkSplitResult (next_free_page_id th) (slot_key new_pg1 0), left',
                            th_write (snd (allocate_page th)) (next_free_page_id th) new_pg1)).
  { unfold split_leaf_page. rewrite Hleaf, Hcorr.
    rewrite bool_decide_eq_true_2 by reflexivity.
    cbv beta iota zeta delta [mbind Outcome_bind obind assert_that allocate_page].
    fold total. replace (total <? 2) with false by lia.
    fold split_index. replace (split_index =? 0) with false by lia.
    fold idxs. fold new_pg. rewrite Hcopy.
    rewrite u16_small by lia. rewrite Hrem.
    replace (cell_count (header new_pg1) >? 0) with true by lia.
    rewrite Hkey. reflexivity. }
  split.
  - intros Hsep. rewrite Hrun.
    replace (key_size (slot_key page split_index) >? 256) with true by lia. reflexivity.
  - intros Hsep.
    exists (mkSplitResult (next_free_page_id th) (slot_key new_pg1 0)), left',
           (th_write (snd (allocate_page th)) (next_free_page_id th) new_pg1).
    split.
    + rewrite Hrun.
      replace (key_size (slot_key page split_index) >? 256) with false by lia. reflexivity.
    + simpl. unfold read_page, write_page. rewrite lookup_insert_eq. simpl.
      repeat split; try assumption; try lia.
Qed.


Lemma split_leaf_page_shape_witness :
  (∃ res page' th',
     split_leaf_page (leaf_root_table three_record_leaf) three_record_leaf
     = Ok (res, page', th')
     ∧ leaf_records (read_page (dm th') (new_page res))
       = [(bytes "b", bytes "2"); (bytes "c", bytes "3")]
     ∧ cell_count (header page') = 1
     ∧ seperator_key res = bytes "b")
  ∧ split_leaf_page (leaf_root_table one_record_leaf) one_record_leaf
    = AssertFail "Cannot split page with less than 2 elements".
Proof.
  split.
  - destruct (proj2 (proj2 (split_leaf_page_shape (leaf_root_table three_record_leaf)
                              three_record_leaf)
                       eq_refl eq_refl eq_refl ltac:(simpl; lia)
                       ltac:(vm_compute; discriminate))
                ltac:(vm_compute; discriminate))
      as (res & page' & th' & Hrun & _ & _ & _ & Hrecs & Hcount & _ & Hsep).
    exists res, page', th'.
    split; [exact Hrun|]. split; [exact Hrecs|]. split; [exact Hcount | exact Hsep].
  - destruct (proj1 (split_leaf_page_shape (leaf_root_table one_record_leaf)
                       one_record_leaf) ltac:(simpl; lia))
      as (msg & Hrun & Hmsg).
    rewrite Hrun. f_equal. apply Hmsg; reflexivity.
Defined.

(** C7 as stated fails on a page with a single record: nothing is
    returned, the function halts on its guard. *)
Lemma split_leaf_page_single_record_counterexample :
  split_leaf_page (leaf_root_table one_record_leaf) one_record_leaf
  = AssertFail "Cannot split page with less than 2 elements"
  ∧ ¬ ∃ res page' th',
        split_leaf_page (leaf_root_table one_record_leaf) one_record_leaf
        = Ok (res, page', th')
        ∧ seperator_key res = slot_key one_record_leaf 0.
Proof.
  split; [vm_compute; reflexivity|].
  intros (res & page' & th' & Hrun & _). vm_compute in Hrun. discriminate.
Qed.


(** ** Internal split *)

Section InternalCopy.
Variable page : Page.
Variable new_pid : Z.
Hypothesis Hinternal : page_level (header page) = INTERNAL.

Lemma internal_cell_view i :
  internal_cell page i = InternalEntry (slot_key page i) (slot_child page i).
Proof.
  unfold internal_cell, slot_key, slot_child. rewrite Hinternal.
  destruct (internal_entry_at page (slot_at page i)); reflexivity.
Qed.


(** The copy loop of [split_internal_page] succeeds when the entries
    fit in the free space of the page under construction. *)
Lemma split_internal_copy_loop_ok idxs :
  ∀ pg th cs,
    appended pg cs →
    free_start (header pg) + internal_moved_size page idxs ≤ free_end (header pg) →
    ∃ pg' th', ofoldl (split_internal_copy new_pid page) (pg, th) idxs = Ok (pg', th')
               ∧ appended pg' (cs ++ (internal_cell page <$> idxs))
               ∧ page_level (header pg') = page_level (header pg)
               ∧ reserved (header pg') = reserved (header pg)
               ∧ next_free_page_id th' = next_free_page_id th.
Proof.
  induction idxs as [|i idxs IH]; intros pg th cs Hinv Hroom.
  - exists pg, th. simpl. rewrite app_nil_r. auto.
  - cbn [internal_moved_size foldr] in Hroom.
    fold (internal_moved_size page idxs) in Hroom.
    pose proof (internal_moved_size_nonneg page idxs) as Hm.
    pose proof (key_size_nonneg (slot_key page i)) as Hk.
    pose proof Hinv as (Hcc & Hfe & Hfs & _).
    unfold SIZEOF_InternalEntry, SIZEOF_slot, PAGE_SIZE in *.
    set (size := 6 + key_size (slot_key page i)) in *.
    assert (Hsz0 : 6 ≤ size) by (unfold size; lia).
    set (th1 := th_write th (slot_child page i)
                  (set_header (read_page (dm th) (slot_child page i))
                     (with_parent_page_id
                        (header (read_page (dm th) (slot_child page i))) new_pid))).
    assert (Hstep : ∃ pg1, split_internal_copy new_pid page (pg, th) i = Ok (pg1, th1)
                           ∧ insert_slot (snd (write_raw_record pg (internal_cell page i) size))
                               (cell_count (header pg)) (free_start (header pg)) = Ok pg1).
    { unfold split_internal_copy.
      pose proof (internal_cell_view i) as Hview. unfold internal_cell in *.
      destruct (internal_entry_at page (slot_at page i)) as [ekey echild] eqn:He.
      injection Hview as -> ->.
      unfold SIZEOF_InternalEntry. fold size.
      rewrite (u16_small size) by lia.
      destruct (insert_slot_append_ok
                  (snd (write_raw_record pg (InternalEntry (slot_key page i) (slot_child page i)) size))
                  (free_start (header pg))) as [pg1 Hins].
      - simpl. lia.
      - simpl. unfold PAGE_SIZE. lia.
      - simpl. rewrite u16_small by lia. lia.
      - exists pg1. simpl in Hins |- *. rewrite Hins. simpl. split; reflexivity. }
    destruct Hstep as (pg1 & Hstep & Hins).
    assert (Hsize : 0 < size ≤ PAGE_SIZE) by (unfold PAGE_SIZE; lia).
    destruct (appended_step pg cs (internal_cell page i) size _ _ pg1 Hinv Hsize eq_refl Hins)
      as (Hinv1 & Hl1 & _ & Hr1).
    destruct (IH pg1 th1 (cs ++ [internal_cell page i]) Hinv1)
      as (pg' & th' & Hrun & Hinv' & Hl' & Hr' & Hn').
    { destruct (insert_slot_append
                  (snd (write_raw_record pg (internal_cell page i) size))
                  (free_start (header pg)) pg1) as (Hh & _);
        [simpl; lia | simpl; lia | simpl; unfold PAGE_SIZE; lia | exact Hins |].
      rewrite Hh. simpl. rewrite u16_small by lia. lia. }
    exists pg', th'. cbn [ofoldl]. rewrite Hstep. simpl.
    rewrite <- app_assoc in Hinv'. simpl in Hinv'.
    subst th1. simpl in Hn'.
    split; [exact Hrun|]. split; [exact Hinv'|]. repeat split; congruence.
Qed.

End InternalCopy.

Lemma appended_internal_entries pg idxs page :
  page_level (header page) = INTERNAL → page_level (header pg) = INTERNAL →
  appended pg (internal_cell page <$> idxs) →
  internal_entries pg = (λ i, (slot_key page i, slot_child page i)) <$> idxs.
Proof.
  intros Hpage Hpg (Hcc & _ & _ & Hcells).
  unfold internal_entries. rewrite Hcc, length_fmap.
  apply list_eq. intros j. rewrite !list_lookup_fmap.
  destruct (idxs !! j) as [i|] eqn:Hj; simpl.
  - assert (Hlt : (j < length idxs)%nat) by (eapply lookup_lt_Some; eauto).
    rewrite lookup_seqZ_lt by lia. simpl.
    destruct (Hcells j (internal_cell page i)) as [Hcell _].
    { rewrite list_lookup_fmap, Hj. reflexivity. }
    rewrite internal_cell_view in Hcell by exact Hpage.
    unfold slot_key, slot_child, internal_entry_at, cell_at. rewrite Hpg.
    replace (0 + Z.of_nat j) with (Z.of_nat j) by lia.
    rewrite Hcell. reflexivity.
  - apply lookup_ge_None in Hj. rewrite lookup_seqZ_ge by lia. reflexivity.
Qed.

(** C4, as amended.  On an INTERNAL page with [cell_count >= 2]
    (header within bounds, directory of exactly [cell_count] slots, the
    entries to move fitting an empty page, separator key of at most 256
    bytes) and with [mid = cell_count / 2], [split_internal_page]
    returns: the separator is the key of slot [mid] of the original
    page; the page written under the newly allocated id is an INTERNAL
    page that holds exactly the entries of the slots [mid+1 ..
    cell_count-1], in order, and whose leftmost child is the child of
    entry [mid]; and the left page keeps [mid] slots: slot [mid] is
    removed from it together with the slots above. *)
Theorem split_internal_page_shape th page :
  let total := cell_count (header page) in
  let mid := total `quot` 2 in
  page_level (header page) = INTERNAL →
  header_corrupted (header page) = false →
  free_end (header page) = PAGE_SIZE - 2 * total →
  2 ≤ total →
  SIZEOF_PageHeader + internal_moved_size page (seqZ (mid + 1) (total - (mid + 1)))
    ≤ PAGE_SIZE →
  key_size (slot_key page mid) ≤ 256 →
  ∃ res page' th',
    split_internal_page th page = Ok (res, page', th')
    ∧ seperator_key res = slot_key page mid
    ∧ new_page res = next_free_page_id th
    ∧ page_level (header (read_page (dm th') (new_page res))) = INTERNAL
    ∧ internal_entries (read_page (dm th') (new_page res))
      = (λ i, (slot_key page i, slot_child page i)) <$> seqZ (mid + 1) (total - (mid + 1))
    ∧ reserved (header (read_page (dm th') (new_page res))) = slot_child page mid
    ∧ cell_count (header page') = mid.
Proof.
  intros total mid Hint Hcorr Hfe Htot Hroom Hsep.
  destruct (header_not_corrupted _ Hcorr) as (Hfs1 & Hfs2 & Hfe2).
  unfold PAGE_SIZE, SIZEOF_PageHeader in *.
  assert (Hq : total `quot` 2 = total / 2) by (apply Z.quot_div_nonneg; lia).
  assert (Hmid : 1 ≤ mid ∧ mid < total)
    by (unfold mid; rewrite Hq; split; Z.div_mod_to_equations; lia).
  set (idxs := seqZ (mid + 1) (total - (mid + 1))) in *.
  set (new_pid := next_free_page_id th).
  destruct (split_internal_copy_loop_ok page new_pid Hint idxs
              (init_page new_pid INDEX INTERNAL) (snd (allocate_page th)) []
              (appended_init _ _ _)) as (new_pg1 & th2 & Hcopy & Hinv & Hlvl & Hres & _).
  { simpl. unfold SIZEOF_PageHeader, PAGE_SIZE. lia. }
  destruct (remove_tail_slots_ok (Z.to_nat (total - mid)) page mid)
    as [left' Hrem]; try (fold total; unfold PAGE_SIZE; lia).
  simpl in Hinv, Hlvl, Hres.
  assert (Hents := appended_internal_entries _ _ _ Hint Hlvl Hinv).
  pose proof Hrem as Hcount.
  apply remove_tail_slots_count in Hcount as (Hcount & _ & _ & _ & Hpar & _);
    [|lia|fold total; lia|lia].
  eexists _, left', _.
  split.
  - unfold split_internal_page. rewrite Hint.
    rewrite bool_decide_eq_true_2 by reflexivity.
    cbv beta iota zeta delta [mbind Outcome_bind obind assert_that].
    change (allocate_page th) with (new_pid, snd (allocate_page th)).
    cbv beta iota.
    fold total. replace (total <? 2) with false by lia.
    fold mid. replace (key_size (slot_key page mid) >? 256) with false by lia.
    fold idxs. rewrite Hcopy.
    rewrite u16_small by lia. rewrite Hrem. reflexivity.
  - simpl. unfold read_page, write_page. rewrite lookup_insert_eq. simpl.
    replace (mid <? total) with true by lia.
    split; [reflexivity|]. split; [reflexivity|].
    destruct (slot_child page mid =? 0) eqn:Ec; simpl.
    + apply Z.eqb_eq in Ec. repeat split; try assumption. congruence.
    + repeat split; try assumption.
Qed.

Lemma split_internal_page_shape_witness :
  ∃ res page' th',
    split_internal_page three_entry_table three_entry_page = Ok (res, page', th')
    ∧ seperator_key res = bytes "p"
    ∧ internal_entries (read_page (dm th') (new_page res)) = [(bytes "t", 5)]
    ∧ reserved (header (read_page (dm th') (new_page res))) = 4
    ∧ cell_count (header page') = 1.
Proof.
  destruct (split_internal_page_shape three_entry_table three_entry_page)
    as (res & page' & th' & Hrun & Hsep & _ & _ & Hents & Hres & Hcount);
    [reflexivity | reflexivity | reflexivity | simpl; lia
     | vm_compute; discriminate | vm_compute; discriminate |].
  exists res, page', th'.
  split; [exact Hrun|]. split; [exact Hsep|]. split; [exact Hents|].
  split; [exact Hres | exact Hcount].
Defined.

(** C4 as stated fails: after the split of a page with the entries
    g, p, t ([mid = 1]), the left page holds the entry of g only; the
    entry of slot [mid] is not in it. *)
Lemma split_internal_page_removes_mid_counterexample :
  ∃ res page' th',
    split_internal_page three_entry_table three_entry_page = Ok (res, page', th')
    ∧ internal_entries three_entry_page !! 1%nat = Some (bytes "p", 4)
    ∧ internal_entries page' = [(bytes "g", 2)]
    ∧ (bytes "p", 4) ∉ internal_entries page'.
Proof.
  do 3 eexists. split; [vm_compute; reflexivity|].
  split; [vm_compute; reflexivity|].
  split; [vm_compute; reflexivity|].
  vm_compute. intros H. inversion H as [|? ? ? H']; subst. inversion H'.
Qed.

(** * Further properties *)

(** ** The slot directory as a list *)

Lemma slot_list_lookup page (j : nat) :
  Z.of_nat j < cell_count (header page) →
  slot_list page !! j = Some (slot_at page (Z.of_nat j)).
Proof.
  intros Hj. unfold slot_list. rewrite list_lookup_fmap, lookup_seqZ_lt by lia.
  simpl. do 2 f_equal.
Qed.

Lemma slot_list_length page :
  length (slot_list page) = Z.to_nat (cell_count (header page)).
Proof. unfold slot_list. rewrite length_fmap, length_seqZ. reflexivity. Qed.

(** The second loop of [insert_slot] copies every word onto itself. *)
Lemma insert_slot_self_copy (m : gmap Z Z) (nfe ofe : Z) (idxs : list Z) :
  nfe = ofe - 2 →
  ∀ a, read_slot_word
         (foldl (λ m i, copy_word m (nfe + i * 2) (ofe + (i - 1) * 2)) m idxs) a
       = read_slot_word m a.
Proof.
  intros ->. revert m. induction idxs as [|i idxs IH]; intros m a; simpl; [reflexivity|].
  rewrite IH. destruct (decide (a = ofe - 2 + i * 2)) as [->|Hne].
  - rewrite read_copy_word_eq. f_equal. lia.
  - apply read_copy_word_ne. exact Hne.
Qed.

(** [insert_slot] slot by slot. *)
Lemma insert_slot_ok page idx off :
  let cc := cell_count (header page) in
  let fe := free_end (header page) in
  0 ≤ idx ≤ cc → cc < 4096 → 2 ≤ fe ≤ PAGE_SIZE → free_start (header page) ≤ fe - 2 →
  ∃ page',
    insert_slot page idx off = Ok page'
    ∧ header page' = with_cell_count (with_free_end (header page) (fe - 2)) (cc + 1)
    ∧ cells page' = cells page
    ∧ (∀ i, 0 ≤ i < idx → slot_at page' i = slot_at page i)
    ∧ slot_at page' idx = off
    ∧ (∀ i, idx < i → slot_at page' i = slot_at page (i - 1)).
Proof.
  intros cc fe Hidx Hcc Hfe Hfs. unfold insert_slot. fold cc fe.
  unfold PAGE_SIZE, SIZEOF_slot in *.
  rewrite (u16_small (cc + 1)) by lia.
  rewrite (u16_small (fe - 2)) by lia.
  unfold mbind, Outcome_bind, assert_that. simpl.
  replace (free_start (header page) <=? fe - 2) with true by lia.
  simpl. unfold PAGE_SIZE.
  replace ((cc + 1) * 2 <=? 8192) with true by lia.
  simpl. eexists. split; [reflexivity|]. simpl.
  destruct (insert_slot_shift_down (slotmem page) fe (Z.to_nat idx)) as [S1 S2].
  rewrite Z2Nat.id in S1, S2 by lia.
  split; [reflexivity|]. split; [reflexivity|]. split; [|split].
  - intros i Hi. unfold slot_at, slot_ptr, SIZEOF_slot. simpl. fold fe.
    unfold read_slot_word at 1. rewrite lookup_insert_ne by lia.
    fold (read_slot_word
            (foldl (λ m i0, copy_word m (fe - 2 + i0 * 2) (fe + (i0 - 1) * 2))
               (foldl (λ m i0, copy_word m (fe - 2 + i0 * 2) (fe + i0 * 2))
                  (slotmem page) (seqZ 0 idx))
               (reverse (seqZ (idx + 1) (cc - idx)))) (fe - 2 + i * 2)).
    rewrite insert_slot_self_copy by reflexivity. apply S1. lia.
  - unfold slot_at, slot_ptr, SIZEOF_slot, read_slot_word. simpl. fold fe.
    rewrite lookup_insert_eq. reflexivity.
  - intros i Hi. unfold slot_at, slot_ptr, SIZEOF_slot. simpl. fold fe.
    unfold read_slot_word at 1. rewrite lookup_insert_ne by lia.
    fold (read_slot_word
            (foldl (λ m i0, copy_word m (fe - 2 + i0 * 2) (fe + (i0 - 1) * 2))
               (foldl (λ m i0, copy_word m (fe - 2 + i0 * 2) (fe + i0 * 2))
                  (slotmem page) (seqZ 0 idx))
               (reverse (seqZ (idx + 1) (cc - idx)))) (fe - 2 + i * 2)).
    rewrite insert_slot_self_copy by reflexivity.
    rewrite S2 by lia. f_equal. lia.
Qed.

(** [remove_slot] slot by slot. *)
Lemma remove_slot_ok page idx :
  let cc := cell_count (header page) in
  let fe := free_end (header page) in
  0 ≤ idx < cc → cc ≤ 4097 → 0 ≤ fe → fe + 2 ≤ PAGE_SIZE →
  free_start (header page) ≤ fe + 2 →
  ∃ page',
    remove_slot page idx = Ok page'
    ∧ header page' = with_cell_count (with_free_end (header page) (fe + 2)) (cc - 1)
    ∧ cells page' = cells page
    ∧ (∀ i, 0 ≤ i < idx → slot_at page' i = slot_at page 0)
    ∧ (∀ i, idx ≤ i → slot_at page' i = slot_at page (i + 1)).
Proof.
  intros cc fe Hidx Hcc Hfe0 Hfe Hfs.
  assert (Hrun : ∃ page', remove_slot page idx = Ok page').
  { unfold remove_slot. fold cc fe.
    replace (idx >? cc - 1) with false by lia.
    unfold PAGE_SIZE, SIZEOF_slot in *.
    rewrite (u16_small (fe + 2)) by lia.
    rewrite (u16_small (cc - 1)) by lia.
    unfold mbind, Outcome_bind, assert_that. simpl.
    replace (free_start (header page) <=? fe + 2) with true by lia.
    simpl. unfold PAGE_SIZE.
    replace ((cc - 1) * 2 <=? 8192) with true by lia.
    simpl. eauto. }
  destruct Hrun as [page' Hrun]. exists page'. split; [exact Hrun|].
  destruct (remove_slot_header _ _ _ Hrun) as [Hh Hc].
  unfold PAGE_SIZE, SIZEOF_slot in *. fold cc fe in Hh.
  rewrite (u16_small (fe + 2)), (u16_small (cc - 1)) in Hh by lia.
  split; [exact Hh|]. split; [exact Hc|].
  apply (remove_slot_slots page idx page'); fold fe; lia || exact Hrun.
Qed.

Lemma list_eq_lookup_Z (l1 l2 : list Z) :
  length l1 = length l2 →
  (∀ j : nat, (j < length l1)%nat → l1 !! j = l2 !! j) → l1 = l2.
Proof.
  intros Hlen H. apply (list_eq_same_length l1 l2 (length l1)); [congruence|reflexivity|].
  intros i x y Hi H1 H2. rewrite H in H1 by exact Hi. congruence.
Qed.

(** X1.  [insert_slot] at an index of the directory succeeds when two
    bytes are free and the count stays within the page; it turns the
    slot list [l] into [take index l ++ record_offset :: drop index l],
    [free_end] drops by two and the records are untouched. *)
Theorem insert_slot_inserts page idx off :
  let cc := cell_count (header page) in
  let fe := free_end (header page) in
  0 ≤ idx ≤ cc → cc < 4096 → 2 ≤ fe ≤ PAGE_SIZE → free_start (header page) ≤ fe - 2 →
  ∃ page',
    insert_slot page idx off = Ok page'
    ∧ slot_list page'
      = take (Z.to_nat idx) (slot_list page) ++ off :: drop (Z.to_nat idx) (slot_list page)
    ∧ free_end (header page') = fe - 2
    ∧ free_start (header page') = free_start (header page)
    ∧ cells page' = cells page.
Proof.
  intros cc fe Hidx Hcc Hfe Hfs.
  destruct (insert_slot_ok page idx off Hidx Hcc Hfe Hfs)
    as (page' & Hrun & Hh & Hc & Hlow & Hat & Hup).
  exists page'. split; [exact Hrun|]. fold cc fe in Hh.
  assert (Hcc' : cell_count (header page') = cc + 1) by (rewrite Hh; reflexivity).
  split; [|rewrite Hh; auto].
  assert (Hlen : length (slot_list page) = Z.to_nat cc) by apply slot_list_length.
  apply list_eq_lookup_Z.
  - rewrite length_app, length_take. simpl. rewrite length_drop, !slot_list_length.
    rewrite Hcc'. fold cc. lia.
  - intros j Hj. rewrite slot_list_length, Hcc' in Hj.
    rewrite slot_list_lookup by lia.
    destruct (decide (Z.of_nat j < idx)) as [Hlt|Hge].
    + rewrite lookup_app_l by (rewrite length_take; lia).
      rewrite lookup_take_lt by lia.
      rewrite slot_list_lookup by (fold cc; lia). f_equal. apply Hlow. lia.
    + rewrite lookup_app_r by (rewrite length_take; lia).
      rewrite length_take, Hlen.
      replace (Z.to_nat idx `min` Z.to_nat cc)%nat with (Z.to_nat idx) by lia.
      destruct (decide (Z.of_nat j = idx)) as [Heq|Hne].
      * replace (j - Z.to_nat idx)%nat with 0%nat by lia. simpl.
        f_equal. rewrite Heq. exact Hat.
      * replace (j - Z.to_nat idx)%nat with (S (j - Z.to_nat idx - 1))%nat by lia.
        simpl. rewrite lookup_drop.
        rewrite slot_list_lookup by (fold cc; lia).
        f_equal. rewrite Hup by lia. f_equal. lia.
Qed.

Lemma insert_slot_inserts_witness :
  ∃ page', insert_slot three_record_leaf 1 99 = Ok page'
           ∧ slot_list page'
             = take 1 (slot_list three_record_leaf)
               ++ 99 :: drop 1 (slot_list three_record_leaf).
Proof.
  destruct (insert_slot_inserts three_record_leaf 1 99)
    as (page' & Hrun & Hl & _);
    [vm_compute; split; discriminate | reflexivity
     | vm_compute; split; discriminate | vm_compute; discriminate |].
  exists page'. split; [exact Hrun | exact Hl].
Defined.

(** X2.  [remove_slot] at an index of the directory succeeds; the slots
    above the removed one move down by one, and each of the [index]
    slots below it is left holding the offset of slot 0: the first loop
    copies upwards in ascending order.  The result is the list without
    its element [index] only for [index ≤ 1]. *)
Theorem remove_slot_overwrites_lower_slots page idx :
  let cc := cell_count (header page) in
  let fe := free_end (header page) in
  0 ≤ idx < cc → cc ≤ 4097 → 0 ≤ fe → fe + 2 ≤ PAGE_SIZE →
  free_start (header page) ≤ fe + 2 →
  ∃ page',
    remove_slot page idx = Ok page'
    ∧ slot_list page'
      = replicate (Z.to_nat idx) (slot_at page 0) ++ drop (S (Z.to_nat idx)) (slot_list page)
    ∧ free_end (header page') = fe + 2
    ∧ free_start (header page') = free_start (header page)
    ∧ cells page' = cells page.
Proof.
  intros cc fe Hidx Hcc Hfe0 Hfe Hfs.
  destruct (remove_slot_ok page idx Hidx Hcc Hfe0 Hfe Hfs)
    as (page' & Hrun & Hh & Hc & Hlow & Hup).
  exists page'. split; [exact Hrun|]. fold cc fe in Hh.
  assert (Hcc' : cell_count (header page') = cc - 1) by (rewrite Hh; reflexivity).
  split; [|rewrite Hh; auto].
  assert (Hlen : length (slot_list page) = Z.to_nat cc) by apply slot_list_length.
  apply list_eq_lookup_Z.
  - rewrite length_app, length_replicate, length_drop, !slot_list_length.
    rewrite Hcc'. fold cc. lia.
  - intros j Hj. rewrite slot_list_length, Hcc' in Hj.
    rewrite slot_list_lookup by lia.
    destruct (decide (Z.of_nat j < idx)) as [Hlt|Hge].
    + rewrite lookup_app_l by (rewrite length_replicate; lia).
      rewrite lookup_replicate_2 by lia. f_equal. apply Hlow. lia.
    + rewrite lookup_app_r by (rewrite length_replicate; lia).
      rewrite length_replicate, lookup_drop.
      rewrite slot_list_lookup by (fold cc; lia).
      f_equal. rewrite Hup by lia. f_equal. lia.
Qed.

Lemma remove_slot_overwrites_lower_slots_witness :
  ∃ page', remove_slot three_record_leaf 2 = Ok page'
           ∧ slot_list page'
             = replicate 2 (slot_at three_record_leaf 0)
               ++ drop 3 (slot_list three_record_leaf).
Proof.
  destruct (remove_slot_overwrites_lower_slots three_record_leaf 2)
    as (page' & Hrun & Hl & _);
    [vm_compute; split; [discriminate | reflexivity] | vm_compute; discriminate
     | vm_compute; discriminate | vm_compute; discriminate | vm_compute; discriminate |].
  exists page'. split; [exact Hrun | exact Hl].
Defined.

(** X3.  [remove_slot] undoes [insert_slot] at the same index when the
    index is 0 or 1: the slot list, [free_end] and the records are
    those of the page before. *)
Theorem remove_slot_undoes_insert_slot page idx off :
  let cc := cell_count (header page) in
  let fe := free_end (header page) in
  0 ≤ idx ≤ cc → idx ≤ 1 → cc < 4096 → 2 ≤ fe ≤ PAGE_SIZE →
  free_start (header page) ≤ fe - 2 →
  ∃ page' page'',
    insert_slot page idx off = Ok page'
    ∧ remove_slot page' idx = Ok page''
    ∧ slot_list page'' = slot_list page
    ∧ header page'' = header page
    ∧ cells page'' = cells page.
Proof.
  intros cc fe Hidx Hidx1 Hcc Hfe Hfs.
  destruct (insert_slot_ok page idx off Hidx Hcc Hfe Hfs)
    as (page' & Hrun & Hh & Hc & Hlow & Hat & Hup).
  fold cc fe in Hh.
  destruct (remove_slot_ok page' idx) as (page'' & Hrun2 & Hh2 & Hc2 & Hlow2 & Hup2);
    try (rewrite Hh; simpl; unfold PAGE_SIZE in *; lia).
  exists page', page''. split; [exact Hrun|]. split; [exact Hrun2|].
  assert (Hhd : header page'' = header page).
  { rewrite Hh2, Hh. simpl. destruct (header page) eqn:E. unfold with_cell_count, with_free_end.
    simpl. subst cc fe. simpl. f_equal; lia. }
  split; [|split; [exact Hhd | congruence]].
  apply list_eq_lookup_Z.
  - rewrite !slot_list_length, Hhd. reflexivity.
  - intros j Hj. rewrite slot_list_length, Hhd in Hj.
    rewrite !slot_list_lookup by (rewrite ?Hhd; lia). f_equal.
    destruct (decide (Z.of_nat j < idx)) as [Hlt|Hge].
    + rewrite Hlow2 by lia. rewrite Hlow by lia. f_equal. lia.
    + rewrite Hup2 by lia. rewrite Hup by lia. f_equal. lia.
Qed.

Lemma remove_slot_undoes_insert_slot_witness :
  ∃ page' page'',
    insert_slot three_record_leaf 1 99 = Ok page'
    ∧ remove_slot page' 1 = Ok page''
    ∧ slot_list page'' = slot_list three_record_leaf.
Proof.
  destruct (remove_slot_undoes_insert_slot three_record_leaf 1 99)
    as (page' & page'' & H1 & H2 & H3 & _);
    [vm_compute; split; discriminate | vm_compute; discriminate | reflexivity
     | vm_compute; split; discriminate | vm_compute; discriminate |].
  exists page', page''. auto.
Defined.

(** ** Child lookup: the branches that cannot run *)

(** The position the binary search leaves lies in the directory or is
    [cell_count], whatever the keys are. *)
Lemma find_child_loop_range fuel page key :
  ∀ left right pos n,
    0 ≤ left → right < n → 0 ≤ pos ≤ n →
    0 ≤ find_child_loop fuel page key left right pos ≤ n.
Proof.
  induction fuel as [|fuel IH]; intros left right pos n Hl Hr Hp; simpl; [exact Hp|].
  destruct (left <=? right) eqn:E; [|exact Hp].
  apply Z.leb_le in E.
  assert (Hq : (right + left) `quot` 2 = (right + left) / 2)
    by (apply Z.quot_div_nonneg; lia).
  assert (Hmid : left ≤ (right + left) `quot` 2 ≤ right)
    by (rewrite Hq; Z.div_mod_to_equations; lia).
  destruct (_ <? 0); apply IH; lia.
Qed.

Lemma find_child_pos_range page key :
  0 ≤ cell_count (header page) →
  0 ≤ find_child_pos page key ≤ cell_count (header page).
Proof.
  intros Hcc. unfold find_child_pos. apply find_child_loop_range; lia.
Qed.

(** X4.  What [internal_find_child] can end in.  A returned id is
    nonzero and below 1,000,000, except on the branch
    [pos == cell_count] of a page with entries, which returns the child
    of the last entry unchecked.  The only failures are the three
    assertions on the level, the leftmost child and the child id: the
    return of 0 for an empty page (line 72) and the final assertion
    "Invalid position" (line 94) are never reached, since [pos == 0]
    is tested first and [0 <= pos <= cell_count] always holds. *)
Theorem internal_find_child_outcomes page key :
  0 ≤ cell_count (header page) →
  match internal_find_child page key with
  | Ok c =>
      valid_child_id c = true
      ∨ (0 < cell_count (header page)
         ∧ find_child_pos page key = cell_count (header page)
         ∧ c = slot_child page (cell_count (header page) - 1))
  | AssertFail msg =>
      msg = "page_level == INTERNAL"
      ∨ msg = "No valid leftmost child found"
      ∨ msg = "Invalid child page ID"
  | _ => False
  end.
Proof.
  intros Hcc. pose proof (find_child_pos_range page key Hcc) as Hpos.
  unfold internal_find_child, valid_child_id.
  destruct (bool_decide _); simpl; [|auto].
  destruct (find_child_pos page key =? 0) eqn:E0.
  - destruct (negb (reserved (header page) =? 0) && (reserved (header page) <? 1000000)
              && negb (reserved (header page) =? INVALID_PAGE_ID)) eqn:E1.
    + left. apply andb_true_iff in E1 as [E1 _]. exact E1.
    + destruct ((parent_page_id (header page) =? 0) && negb (root_page (header page) =? 0)
                && negb (root_page (header page) =? page_id (header page))
                && (root_page (header page) <? 1000000)) eqn:E2.
      * left. repeat (apply andb_true_iff in E2 as [E2 ?]).
        apply andb_true_iff. split; assumption.
      * destruct ((cell_count (header page) >? 0) && negb (slot_child page 0 =? 0)
                  && (slot_child page 0 <? 1000000)) eqn:E3.
        -- left. repeat (apply andb_true_iff in E3 as [E3 ?]).
           apply andb_true_iff. split; assumption.
        -- auto.
  - apply Z.eqb_neq in E0.
    destruct (find_child_pos page key =? cell_count (header page)) eqn:E1.
    + apply Z.eqb_eq in E1.
      destruct (cell_count (header page) =? 0) eqn:E2; [lia|].
      right. split; [lia|]. split; [exact E1 | reflexivity].
    + apply Z.eqb_neq in E1.
      replace ((find_child_pos page key >? 0)
               && (find_child_pos page key <=? cell_count (header page))
               && (find_child_pos page key - 1 <? cell_count (header page)))
        with true by lia.
      destruct ((slot_child page (find_child_pos page key - 1) =? 0)
                || (slot_child page (find_child_pos page key - 1) >=? 1000000)) eqn:E2.
      * auto.
      * left. apply orb_false_elim in E2 as [E2 E3].
        apply andb_true_iff. split; lia.
Qed.

Lemma internal_find_child_outcomes_witness :
  match internal_find_child two_entry_page (bytes "a") with
  | Ok c =>
      valid_child_id c = true
      ∨ (0 < cell_count (header two_entry_page)
         ∧ find_child_pos two_entry_page (bytes "a") = cell_count (header two_entry_page)
         ∧ c = slot_child two_entry_page (cell_count (header two_entry_page) - 1))
  | AssertFail msg =>
      msg = "page_level == INTERNAL"
      ∨ msg = "No valid leftmost child found"
      ∨ msg = "Invalid child page ID"
  | _ => False
  end.
Proof. apply (internal_find_child_outcomes two_entry_page (bytes "a")). simpl. lia. Defined.

(** ** A new root *)

Lemma read_write_page d pid page q :
  read_page (write_page d pid page) q
  = if bool_decide (q = pid) then page else read_page d q.
Proof.
  unfold read_page, write_page. case_bool_decide as E.
  - subst. rewrite lookup_insert_eq. reflexivity.
  - rewrite lookup_insert_ne by congruence. reflexivity.
Qed.

(** The page [create_new_root] builds for [(left, key, right)] under
    the id [nid]. *)
Lemma new_root_page nid left_ key right_ :
  key_size key ≤ 8152 →
  ∃ root3,
    (let root := init_page nid INDEX INTERNAL in
     let root1 := set_header root (with_root_page (with_reserved (header root) left_) left_) in
     '(offset, root2) ← write_internal_entry root1 key right_;
     insert_slot root2 0 offset) = Ok root3
    ∧ page_level (header root3) = INTERNAL
    ∧ page_id (header root3) = nid
    ∧ parent_page_id (header root3) = 0
    ∧ reserved (header root3) = left_
    ∧ root_page (header root3) = left_
    ∧ cell_count (header root3) = 1
    ∧ slot_key root3 0 = key
    ∧ slot_child root3 0 = right_.
Proof.
  intros Hk. pose proof (key_size_nonneg key) as Hk0.
  cbv zeta. unfold write_internal_entry. simpl.
  unfold mbind, Outcome_bind. simpl.
  unfold SIZEOF_PageHeader, SIZEOF_InternalEntry.
  rewrite (u16_small 32) by lia.
  rewrite (u16_small (32 + (6 + key_size key))) by lia.
  set (root2 := mkPage _ _ _).
  destruct (insert_slot_append_ok root2 32) as [root3 Hins];
    [simpl; lia | reflexivity | simpl; unfold PAGE_SIZE; lia |].
  simpl in Hins. exists root3. split; [exact Hins|].
  destruct (insert_slot_append root2 32 root3) as (Hh & Hc & _ & Hs & _);
    [simpl; lia | simpl; unfold PAGE_SIZE; lia | reflexivity | exact Hins |].
  simpl in Hs.
  unfold slot_key, slot_child, internal_entry_at, cell_at.
  rewrite Hh, Hc, Hs. simpl. rewrite lookup_insert_eq. repeat split; reflexivity.
Qed.

Lemma find_child_pos_one page k :
  cell_count (header page) = 1 →
  find_child_pos page k = if compare_keys k (slot_key page 0) <? 0 then 0 else 1.
Proof.
  intros Hcc. unfold find_child_pos. rewrite Hcc.
  change (S (Z.to_nat 1)) with 2%nat. cbn [find_child_loop].
  change (0 <=? 1 - 1) with true. cbv iota.
  change ((1 - 1 + 0) `quot` 2) with 0.
  destruct (compare_keys k (slot_key page 0) <? 0); reflexivity.
Qed.

(** What [create_new_root] leaves, page by page. *)
Lemma create_new_root_ok th left_ key right_ :
  let nid := next_free_page_id th in
  nid ≠ 0 → nid ≠ left_ → nid ≠ right_ →
  key_size key ≤ 8152 →
  page_id (header (read_page (dm th) left_)) = left_ →
  ∃ th' root3,
    create_new_root th left_ key right_ = Ok th'
    ∧ th_root_page th' = nid
    ∧ root_page (header (read_page (dm th') 0)) = nid
    ∧ read_page (dm th') nid = root3
    ∧ page_level (header root3) = INTERNAL
    ∧ parent_page_id (header root3) = 0
    ∧ reserved (header root3) = left_
    ∧ cell_count (header root3) = 1
    ∧ slot_key root3 0 = key
    ∧ slot_child root3 0 = right_
    ∧ parent_page_id (header (read_page (dm th') left_)) = nid
    ∧ parent_page_id (header (read_page (dm th') right_)) = nid
    ∧ (∀ pid, pid ≠ nid →
              page_level (header (read_page (dm th') pid))
              = page_level (header (read_page (dm th) pid)))
    ∧ (∀ pid, pid ≠ 0 → pid ≠ nid → pid ≠ left_ → pid ≠ right_ →
              read_page (dm th') pid = read_page (dm th) pid).
Proof.
  intros nid Hn0 Hnl Hnr Hk Hleft.
  destruct (new_root_page nid left_ key right_ Hk)
    as (root3 & Hroot & Hlvl & Hid & Hpar & Hres & Hrp & Hcc & Hkey & Hchild).
  cbv zeta in Hroot. unfold create_new_root.
  change (allocate_page th)
    with (nid, mkTableHandle (dm th) (th_root_page th) (u32 (nid + 1))).
  cbv beta iota zeta.
  unfold mbind, Outcome_bind in Hroot |- *.
  destruct (write_internal_entry _ key right_) as [[offset root2]| | | |]; try discriminate.
  simpl in Hroot |- *. rewrite Hroot. simpl.
  rewrite !read_write_page.
  assert (Hpid : page_id (header
             (if bool_decide (left_ = nid) then root3
              else if bool_decide (left_ = 0)
                   then set_header (read_page (dm th) 0)
                          (with_root_page (header (read_page (dm th) 0)) nid)
                   else read_page (dm th) left_)) = left_).
  { clear - Hleft Hid Hnl. repeat case_bool_decide; subst; try congruence; simpl; exact Hleft. }
  rewrite Hpid, Z.eqb_refl. simpl.
  eexists _, root3. split; [reflexivity|]. simpl.
  rewrite !read_write_page.
  split; [reflexivity|].
  split; [repeat case_bool_decide; try congruence; reflexivity|].
  split; [repeat case_bool_decide; try congruence|].
  do 6 (split; [assumption|]).
  split; [repeat case_bool_decide; try congruence; reflexivity|].
  split; [repeat case_bool_decide; try congruence; reflexivity|].
  split.
  - intros pid Hp. rewrite !read_write_page.
    repeat case_bool_decide; try congruence; simpl; congruence.
  - intros pid H0 H1 H2 H3. rewrite !read_write_page.
    repeat case_bool_decide; try congruence.
Qed.

(** X5.  [create_new_root] for [(left, key, right)], given a fresh
    nonzero page id, a key that fits an empty page and a left page that
    carries its own id: the handle's root and the meta page name the
    new page; the new page is an INTERNAL page without parent whose
    leftmost child is [left] and whose only entry is [(key, right)];
    both children name it as parent; no other page is written. *)
Theorem create_new_root_shape th left_ key right_ :
  let nid := next_free_page_id th in
  nid ≠ 0 → nid ≠ left_ → nid ≠ right_ →
  key_size key ≤ 8152 →
  page_id (header (read_page (dm th) left_)) = left_ →
  ∃ th',
    create_new_root th left_ key right_ = Ok th'
    ∧ th_root_page th' = nid
    ∧ root_page (header (read_page (dm th') 0)) = nid
    ∧ page_level (header (read_page (dm th') nid)) = INTERNAL
    ∧ parent_page_id (header (read_page (dm th') nid)) = 0
    ∧ children (read_page (dm th') nid) = [left_; right_]
    ∧ page_keys (read_page (dm th') nid) = [key]
    ∧ parent_page_id (header (read_page (dm th') left_)) = nid
    ∧ parent_page_id (header (read_page (dm th') right_)) = nid
    ∧ (∀ pid, pid ≠ 0 → pid ≠ nid → pid ≠ left_ → pid ≠ right_ →
              read_page (dm th') pid = read_page (dm th) pid).
Proof.
  intros nid Hn0 Hnl Hnr Hk Hleft.
  destruct (create_new_root_ok th left_ key right_ Hn0 Hnl Hnr Hk Hleft)
    as (th' & root3 & Hrun & Hroot & Hmeta & Hread & Hlvl & Hpar & Hres & Hcc & Hkey
        & Hchild & Hpl & Hpr & _ & Hframe).
  fold nid in Hread, Hroot, Hmeta, Hpl, Hpr.
  exists th'. rewrite Hread.
  do 5 (split; [assumption|]).
  split; [|split; [|auto]].
  - unfold children, internal_entries. rewrite Hcc, Hres.
    change (seqZ 0 1) with [0]. cbn [fmap list_fmap snd]. rewrite Hchild. reflexivity.
  - unfold page_keys. rewrite Hcc.
    change (seqZ 0 1) with [0]. cbn [fmap list_fmap]. rewrite Hkey. reflexivity.
Qed.

Lemma create_new_root_shape_witness :
  ∃ th',
    create_new_root three_entry_table 1 (bytes "m") 2 = Ok th'
    ∧ th_root_page th' = 6
    ∧ children (read_page (dm th') 6) = [1; 2]
    ∧ page_keys (read_page (dm th') 6) = [bytes "m"]
    ∧ parent_page_id (header (read_page (dm th') 1)) = 6
    ∧ parent_page_id (header (read_page (dm th') 2)) = 6.
Proof.
  destruct (create_new_root_shape three_entry_table 1 (bytes "m") 2)
    as (th' & Hrun & Hroot & _ & _ & _ & Hch & Hkeys & Hl & Hr & _);
    [vm_compute; discriminate | vm_compute; discriminate | vm_compute; discriminate
     | vm_compute; discriminate | reflexivity |].
  exists th'. auto 10.
Defined.

(** X6.  Descent through a new root.  After [create_new_root] for
    [(left, key, right)] over two LEAF pages with page ids in
    (0, 1000000), [find_leaf_page] reaches, for every search key [k],
    the page [left] when [k < key] and the page [right] otherwise. *)
Theorem create_new_root_dispatch th left_ key right_ :
  let nid := next_free_page_id th in
  nid ≠ 0 → nid ≠ left_ → nid ≠ right_ →
  key_size key ≤ 8152 →
  page_id (header (read_page (dm th) left_)) = left_ →
  0 < left_ < 1000000 → 0 < right_ < 1000000 →
  page_level (header (read_page (dm th) left_)) = LEAF →
  page_level (header (read_page (dm th) right_)) = LEAF →
  ∃ th',
    create_new_root th left_ key right_ = Ok th'
    ∧ ∀ k, find_leaf_page th' k
           = Ok (if compare_keys k key <? 0
                 then (left_, read_page (dm th') left_)
                 else (right_, read_page (dm th') right_)).
Proof.
  intros nid Hn0 Hnl Hnr Hk Hleft Hlv Hrv Hll Hrl.
  destruct (create_new_root_ok th left_ key right_ Hn0 Hnl Hnr Hk Hleft)
    as (th' & root3 & Hrun & Hroot & Hmeta & Hread & Hlvl & Hpar & Hres & Hcc & Hkey
        & Hchild & Hpl & Hpr & Hlevels & _).
  fold nid in Hread, Hroot, Hlevels.
  exists th'. split; [exact Hrun|]. intros k.
  assert (Hchildk : internal_find_child root3 k
                    = Ok (if compare_keys k key <? 0 then left_ else right_)).
  { unfold internal_find_child. rewrite Hlvl.
    rewrite bool_decide_eq_true_2 by reflexivity. simpl.
    cbv zeta. rewrite (find_child_pos_one root3 k Hcc), Hkey.
    destruct (compare_keys k key <? 0) eqn:E.
    - change (0 =? 0) with true. cbv iota. rewrite Hres.
      replace (negb (left_ =? 0) && (left_ <? 1000000) && negb (left_ =? INVALID_PAGE_ID))
        with true by (unfold INVALID_PAGE_ID, UINT32_MAX; lia).
      reflexivity.
    - change (1 =? 0) with false. cbv iota. rewrite Hcc.
      change (1 =? 1) with true. change (1 =? 0) with false. cbv iota.
      change (1 - 1) with 0. rewrite Hchild. reflexivity. }
  unfold find_leaf_page, find_leaf_fuel. rewrite Hroot.
  cbn [find_leaf_loop]. rewrite Hread, Hlvl.
  rewrite bool_decide_eq_false_2 by discriminate.
  rewrite Hchildk. simpl.
  destruct (compare_keys k key <? 0).
  - replace ((left_ =? 0) || (left_ >=? 1000000)) with false by lia.
    rewrite Hlevels, Hll by congruence.
    rewrite bool_decide_eq_true_2 by reflexivity. reflexivity.
  - replace ((right_ =? 0) || (right_ >=? 1000000)) with false by lia.
    rewrite Hlevels, Hrl by congruence.
    rewrite bool_decide_eq_true_2 by reflexivity. reflexivity.
Qed.

Lemma create_new_root_dispatch_witness :
  ∃ th',
    create_new_root three_entry_table 1 (bytes "m") 2 = Ok th'
    ∧ find_leaf_page th' (bytes "c") = Ok (1, read_page (dm th') 1)
    ∧ find_leaf_page th' (bytes "m") = Ok (2, read_page (dm th') 2).
Proof.
  destruct (create_new_root_dispatch three_entry_table 1 (bytes "m") 2)
    as (th' & Hrun & Hfind);
    [vm_compute; discriminate | vm_compute; discriminate | vm_compute; discriminate
     | vm_compute; discriminate | reflexivity | lia | lia | reflexivity | reflexivity |].
  exists th'. split; [exact Hrun|].
  split; [exact (Hfind (bytes "c")) | exact (Hfind (bytes "m"))].
Defined.

(** ** What a split leaves in the left page *)

(** After the removal loop of a split has removed at least one slot,
    every slot that is left holds the offset of the former slot 0. *)
Lemma remove_tail_slots_slots n :
  ∀ page keep page',
    0 ≤ keep → cell_count (header page) = keep + Z.of_nat n → (1 ≤ n)%nat →
    keep + Z.of_nat n < 65536 →
    0 ≤ free_end (header page) → free_end (header page) + 2 * Z.of_nat n ≤ PAGE_SIZE →
    remove_tail_slots n page keep = Ok page' →
    ∀ i, 0 ≤ i < keep → slot_at page' i = slot_at page 0.
Proof.
  induction n as [|n IH]; intros page keep page' Hk Hcc Hn Hlt Hfe0 Hfe Hrun i Hi; [lia|].
  simpl in Hrun. rewrite u16_small in Hrun by lia.
  destruct (_ >=? keep) eqn:E; [|lia].
  inv_ok Hrun. rename a into page1.
  unfold PAGE_SIZE in *.
  destruct (remove_slot_slots page (cell_count (header page) - 1) page1
              ltac:(lia) ltac:(lia) Hfe0 Ha) as [Hlow _].
  destruct (remove_slot_header _ _ _ Ha) as [Hh _].
  unfold SIZEOF_slot in Hh.
  rewrite (u16_small (free_end (header page) + 2)) in Hh by lia.
  rewrite (u16_small (cell_count (header page) - 1)) in Hh by lia.
  destruct n as [|n].
  - simpl in Hrun. injection Hrun as <-. apply Hlow. lia.
  - rewrite (IH page1 keep page'); try (rewrite ?Hh; simpl; lia); try assumption.
    apply Hlow. lia.
Qed.

(** The run of [split_leaf_page] on a well-formed page, step by step. *)
Lemma split_leaf_page_run th page :
  let total := cell_count (header page) in
  let split_index := total `quot` 2 in
  page_level (header page) = LEAF →
  header_corrupted (header page) = false →
  free_end (header page) = PAGE_SIZE - 2 * total →
  2 ≤ total →
  SIZEOF_PageHeader + leaf_moved_size page (seqZ split_index (total - split_index))
    ≤ PAGE_SIZE →
  key_size (slot_key page split_index) ≤ 256 →
  ∃ new_pg1 page',
    remove_tail_slots (Z.to_nat (total - split_index)) page split_index = Ok page'
    ∧ split_leaf_page th page
      = Ok (mkSplitResult (next_free_page_id th) (slot_key page split_index), page',
            th_write (snd (allocate_page th)) (next_free_page_id th) new_pg1).
Proof.
  intros total split_index Hleaf Hcorr Hfe Htot Hroom Hsep.
  destruct (header_not_corrupted _ Hcorr) as (Hfs1 & Hfs2 & Hfe2).
  unfold PAGE_SIZE, SIZEOF_PageHeader in *.
  assert (Hq : total `quot` 2 = total / 2) by (apply Z.quot_div_nonneg; lia).
  assert (Hsi : 1 ≤ split_index ∧ split_index < total)
    by (unfold split_index; rewrite Hq; split; Z.div_mod_to_equations; lia).
  set (idxs := seqZ split_index (total - split_index)) in *.
  set (new_pg := set_header (init_page (next_free_page_id th) DATA LEAF)
                   (with_parent_page_id (header (init_page (next_free_page_id th) DATA LEAF))
                      (parent_page_id (header page)))).
  destruct (split_leaf_copy_loop_ok page Hleaf idxs new_pg []
              (appended_fresh _ _ _ _)) as (new_pg1 & Hcopy & Hinv & Hlvl & _).
  { simpl. unfold SIZEOF_PageHeader, PAGE_SIZE. lia. }
  destruct (remove_tail_slots_ok (Z.to_nat (total - split_index)) page split_index)
    as [left' Hrem]; try (fold total; unfold PAGE_SIZE; lia).
  simpl in Hinv, Hlvl.
  assert (Hrecs := appended_leaf_records _ _ _ Hleaf Hlvl Hinv).
  assert (Hcc1 : cell_count (header new_pg1) = total - split_index).
  { destruct Hinv as (Hc & _). rewrite Hc, length_fmap. unfold idxs.
    rewrite length_seqZ. lia. }
  assert (Hkey : slot_key new_pg1 0 = slot_key page split_index).
  { assert (Hl : leaf_records new_pg1 !! 0%nat
                 = Some (slot_key page split_index, slot_value page split_index)).
    { rewrite Hrecs, list_lookup_fmap. unfold idxs. rewrite lookup_seqZ_lt by lia.
      simpl. do 3 f_equal; lia. }
    unfold leaf_records in Hl. rewrite list_lookup_fmap, lookup_seqZ_lt in Hl by lia.
    simpl in Hl. injection Hl as Hl _. exact Hl. }
  exists new_pg1, left'. split; [exact Hrem|].
  unfold split_leaf_page. rewrite Hleaf, Hcorr.
  rewrite bool_decide_eq_true_2 by reflexivity.
  cbv beta iota zeta delta [mbind Outcome_bind obind assert_that allocate_page].
  fold total. replace (total <? 2) with false by lia.
  fold split_index. replace (split_index =? 0) with false by lia.
  fold idxs. fold new_pg. rewrite Hcopy.
  rewrite u16_small by lia. rewrite Hrem.
  replace (cell_count (header new_pg1) >? 0) with true by lia.
  rewrite Hkey. replace (key_size (slot_key page split_index) >? 256) with false by lia.
  reflexivity.
Qed.

(** X7.  The left page of a leaf split.  On a well-formed LEAF page
    with at least two slots, [split_leaf_page] returns, and every one
    of the [split_index] slots it leaves in the page designates the
    record of the former slot 0: the removal loop starts at the last
    slot, and [remove_slot] overwrites the slots below the removed one.
    The left page keeps its records [0 .. split_index-1] only when
    [split_index = 1].  No page but the new one is written. *)
Theorem split_leaf_page_left_page th page :
  let total := cell_count (header page) in
  let split_index := total `quot` 2 in
  page_level (header page) = LEAF →
  header_corrupted (header page) = false →
  free_end (header page) = PAGE_SIZE - 2 * total →
  2 ≤ total →
  SIZEOF_PageHeader + leaf_moved_size page (seqZ split_index (total - split_index))
    ≤ PAGE_SIZE →
  key_size (slot_key page split_index) ≤ 256 →
  ∃ res page' th',
    split_leaf_page th page = Ok (res, page', th')
    ∧ slot_list page' = replicate (Z.to_nat split_index) (slot_at page 0)
    ∧ leaf_records page'
      = replicate (Z.to_nat split_index) (slot_key page 0, slot_value page 0)
    ∧ (∀ pid, pid ≠ new_page res → read_page (dm th') pid = read_page (dm th) pid).
Proof.
  intros total split_index Hleaf Hcorr Hfe Htot Hroom Hsep.
  destruct (split_leaf_page_run th page Hleaf Hcorr Hfe Htot Hroom Hsep)
    as (new_pg1 & page' & Hrem & Hrun).
  fold total split_index in Hrem, Hrun.
  destruct (header_not_corrupted _ Hcorr) as (Hfs1 & Hfs2 & Hfe2).
  unfold PAGE_SIZE, SIZEOF_PageHeader in *.
  assert (Hq : total `quot` 2 = total / 2) by (apply Z.quot_div_nonneg; lia).
  assert (Hsi : 1 ≤ split_index ∧ split_index < total)
    by (unfold split_index; rewrite Hq; split; Z.div_mod_to_equations; lia).
  pose proof Hrem as Hcount.
  apply remove_tail_slots_count in Hcount as (Hcount & Hcells & Hlvl & _);
    [|lia|fold total; lia|lia].
  assert (Hslots : ∀ i, 0 ≤ i < split_index → slot_at page' i = slot_at page 0).
  { apply (remove_tail_slots_slots (Z.to_nat (total - split_index)) page split_index page');
      try (fold total; unfold PAGE_SIZE; lia). exact Hrem. }
  eexists _, page', _. split; [exact Hrun|].
  split; [|split].
  - unfold slot_list. rewrite Hcount.
    apply list_eq. intros j.
    rewrite list_lookup_fmap.
    destruct (decide (Z.of_nat j < split_index)) as [Hlt|Hge].
    + rewrite lookup_seqZ_lt, lookup_replicate_2 by lia. simpl.
      f_equal. apply Hslots. lia.
    + rewrite lookup_seqZ_ge by lia. symmetry. apply lookup_replicate_None. lia.
  - unfold leaf_records. rewrite Hcount.
    apply list_eq. intros j.
    rewrite list_lookup_fmap.
    destruct (decide (Z.of_nat j < split_index)) as [Hlt|Hge].
    + rewrite lookup_seqZ_lt, lookup_replicate_2 by lia. simpl.
      unfold slot_key, slot_value, leaf_record_at, cell_at.
      rewrite Hlvl, Hleaf, Hcells, Hslots by lia. reflexivity.
    + rewrite lookup_seqZ_ge by lia. symmetry. apply lookup_replicate_None. lia.
  - intros pid Hpid. simpl in Hpid |- *. unfold read_page, write_page.
    rewrite lookup_insert_ne by congruence. reflexivity.
Qed.

Lemma split_leaf_page_left_page_witness :
  ∃ res page' th',
    split_leaf_page (leaf_root_table four_record_leaf) four_record_leaf
    = Ok (res, page', th')
    ∧ leaf_records four_record_leaf !! 1%nat = Some (bytes "b", bytes "2")
    ∧ leaf_records page' = [(bytes "a", bytes "1"); (bytes "a", bytes "1")].
Proof.
  destruct (split_leaf_page_left_page (leaf_root_table four_record_leaf) four_record_leaf)
    as (res & page' & th' & Hrun & _ & Hrecs & _);
    [reflexivity | reflexivity | reflexivity | simpl; lia
     | vm_compute; discriminate | vm_compute; discriminate |].
  exists res, page', th'. split; [exact Hrun|]. split; [reflexivity | exact Hrecs].
Defined.

(** ** The children of a split INTERNAL page *)

Lemma read_th_write th pid page q :
  read_page (dm (th_write th pid page)) q
  = if bool_decide (q = pid) then page else read_page (dm th) q.
Proof.
  unfold read_page, th_write, write_page. simpl. case_bool_decide as E.
  - subst. rewrite lookup_insert_eq. reflexivity.
  - rewrite lookup_insert_ne by congruence. reflexivity.
Qed.

(** The copy loop of [split_internal_page] rewrites the parent id of
    the child of every entry it moves, and writes no other page. *)
Lemma split_internal_copy_loop_dm new_pid page idxs :
  ∀ pg th pg' th',
    ofoldl (split_internal_copy new_pid page) (pg, th) idxs = Ok (pg', th') →
    (∀ pid, pid ∉ (slot_child page <$> idxs) →
            read_page (dm th') pid = read_page (dm th) pid)
    ∧ (∀ pid, pid ∈ (slot_child page <$> idxs) →
              parent_page_id (header (read_page (dm th') pid)) = new_pid).
Proof.
  induction idxs as [|i idxs IH]; intros pg th pg' th' Hrun.
  - simpl in Hrun. injection Hrun as <- <-. split; [reflexivity|].
    intros pid Hin. simpl in Hin. apply elem_of_nil in Hin. contradiction.
  - cbn [ofoldl] in Hrun. inv_ok Hrun. destruct a as [pg1 th1].
    unfold split_internal_copy in Ha.
    unfold slot_child in *.
    destruct (internal_entry_at page (slot_at page i)) as [ekey echild] eqn:He.
    destruct (write_raw_record _ _ _) as [new_off new_pg1].
    inv_ok Ha. injection Ha as <- <-.
    destruct (IH _ _ _ _ Hrun) as [IH1 IH2].
    cbn [fmap list_fmap]. rewrite He. simpl.
    split.
    + intros pid Hnot. apply not_elem_of_cons in Hnot as [Hne Hnot].
      rewrite IH1 by exact Hnot. rewrite read_th_write.
      rewrite bool_decide_eq_false_2 by exact Hne. reflexivity.
    + intros pid Hin.
      destruct (decide (pid ∈ (λ i0, (internal_entry_at page (slot_at page i0)).2) <$> idxs))
        as [Hin'|Hnot].
      * apply IH2. exact Hin'.
      * apply elem_of_cons in Hin as [->|Hin]; [|contradiction].
        rewrite IH1 by exact Hnot. rewrite read_th_write.
        rewrite bool_decide_eq_true_2 by reflexivity. reflexivity.
Qed.

(** The run of [split_internal_page] on a well-formed page, step by
    step. *)
Lemma split_internal_page_run th page :
  let total := cell_count (header page) in
  let mid := total `quot` 2 in
  page_level (header page) = INTERNAL →
  header_corrupted (header page) = false →
  free_end (header page) = PAGE_SIZE - 2 * total →
  2 ≤ total →
  SIZEOF_PageHeader + internal_moved_size page (seqZ (mid + 1) (total - (mid + 1)))
    ≤ PAGE_SIZE →
  key_size (slot_key page mid) ≤ 256 →
  ∃ new_pg1 new_pg3 th2 page',
    ofoldl (split_internal_copy (next_free_page_id th) page)
      (init_page (next_free_page_id th) INDEX INTERNAL, snd (allocate_page th))
      (seqZ (mid + 1) (total - (mid + 1))) = Ok (new_pg1, th2)
    ∧ split_internal_page th page
      = Ok (mkSplitResult (next_free_page_id th) (slot_key page mid), page',
            th_write th2 (next_free_page_id th) new_pg3).
Proof.
  intros total mid Hint Hcorr Hfe Htot Hroom Hsep.
  destruct (header_not_corrupted _ Hcorr) as (Hfs1 & Hfs2 & Hfe2).
  unfold PAGE_SIZE, SIZEOF_PageHeader in *.
  assert (Hq : total `quot` 2 = total / 2) by (apply Z.quot_div_nonneg; lia).
  assert (Hmid : 1 ≤ mid ∧ mid < total)
    by (unfold mid; rewrite Hq; split; Z.div_mod_to_equations; lia).
  set (idxs := seqZ (mid + 1) (total - (mid + 1))) in *.
  set (new_pid := next_free_page_id th).
  destruct (split_internal_copy_loop_ok page new_pid Hint idxs
              (init_page new_pid INDEX INTERNAL) (snd (allocate_page th)) []
              (appended_init _ _ _)) as (new_pg1 & th2 & Hcopy & _).
  { simpl. unfold SIZEOF_PageHeader, PAGE_SIZE. lia. }
  destruct (remove_tail_slots_ok (Z.to_nat (total - mid)) page mid)
    as [left' Hrem]; try (fold total; unfold PAGE_SIZE; lia).
  eexists new_pg1, _, th2, left'. split; [exact Hcopy|].
  unfold split_internal_page. rewrite Hint.
  rewrite bool_decide_eq_true_2 by reflexivity.
  cbv beta iota zeta delta [mbind Outcome_bind obind assert_that].
  change (allocate_page th) with (new_pid, snd (allocate_page th)).
  cbv beta iota.
  fold total. replace (total <? 2) with false by lia.
  fold mid. replace (key_size (slot_key page mid) >? 256) with false by lia.
  fold idxs. rewrite Hcopy.
  rewrite u16_small by lia. rewrite Hrem. reflexivity.
Qed.

(** X8.  The children of a split INTERNAL page.  [split_internal_page]
    on a well-formed page rewrites the parent id of the child of every
    entry it moves (slots [mid+1 ..]) to the new page, and writes no
    page besides these children and the new page.  In particular the
    child of entry [mid], which becomes the leftmost child of the new
    page, is not written: it still names the old page as its parent. *)
Theorem split_internal_page_children th page :
  let total := cell_count (header page) in
  let mid := total `quot` 2 in
  let new_pid := next_free_page_id th in
  let moved := slot_child page <$> seqZ (mid + 1) (total - (mid + 1)) in
  page_level (header page) = INTERNAL →
  header_corrupted (header page) = false →
  free_end (header page) = PAGE_SIZE - 2 * total →
  2 ≤ total →
  SIZEOF_PageHeader + internal_moved_size page (seqZ (mid + 1) (total - (mid + 1)))
    ≤ PAGE_SIZE →
  key_size (slot_key page mid) ≤ 256 →
  ∃ res page' th',
    split_internal_page th page = Ok (res, page', th')
    ∧ new_page res = new_pid
    ∧ (∀ c, c ∈ moved → c ≠ new_pid →
            parent_page_id (header (read_page (dm th') c)) = new_pid)
    ∧ (∀ pid, pid ∉ moved → pid ≠ new_pid →
              read_page (dm th') pid = read_page (dm th) pid)
    ∧ (slot_child page mid ∉ moved → slot_child page mid ≠ new_pid →
       parent_page_id (header (read_page (dm th') (slot_child page mid)))
       = parent_page_id (header (read_page (dm th) (slot_child page mid)))).
Proof.
  intros total mid new_pid moved Hint Hcorr Hfe Htot Hroom Hsep.
  destruct (split_internal_page_run th page Hint Hcorr Hfe Htot Hroom Hsep)
    as (new_pg1 & new_pg3 & th2 & page' & Hcopy & Hrun).
  fold total mid new_pid in Hcopy, Hrun.
  destruct (split_internal_copy_loop_dm _ _ _ _ _ _ _ Hcopy) as [Hframe Hpar].
  fold moved in Hframe, Hpar.
  assert (Hkeep : ∀ pid, pid ∉ moved → pid ≠ new_pid →
                         read_page (dm (th_write th2 new_pid new_pg3)) pid
                         = read_page (dm th) pid).
  { intros pid Hnot Hne. rewrite read_th_write.
    rewrite bool_decide_eq_false_2 by exact Hne. rewrite Hframe by exact Hnot.
    reflexivity. }
  eexists _, page', _. split; [exact Hrun|].
  split; [reflexivity|]. split; [|split].
  - intros c Hin Hne. rewrite read_th_write.
    rewrite bool_decide_eq_false_2 by exact Hne. apply Hpar. exact Hin.
  - exact Hkeep.
  - intros Hnot Hne. rewrite Hkeep by assumption. reflexivity.
Qed.

Lemma split_internal_page_children_witness :
  ∃ res page' th',
    split_internal_page three_entry_table three_entry_page = Ok (res, page', th')
    ∧ new_page res = 6
    ∧ parent_page_id (header (read_page (dm th') 5)) = 6
    ∧ reserved (header (read_page (dm th') 6)) = 4
    ∧ parent_page_id (header (read_page (dm th') 4)) = 3.
Proof.
  destruct (split_internal_page_children three_entry_table three_entry_page)
    as (res & page' & th' & Hrun & Hnew & Hmoved & _ & Hleft);
    [reflexivity | reflexivity | reflexivity | simpl; lia
     | vm_compute; discriminate | vm_compute; discriminate |].
  exists res, page', th'. split; [exact Hrun|]. split; [exact Hnew|].
  split; [apply Hmoved; [vm_compute; constructor | vm_compute; discriminate]|].
  split.
  - vm_compute in Hrun. injection Hrun as <- <- <-. vm_compute. reflexivity.
  - refine (eq_trans (Hleft _ _) _); [|vm_compute; discriminate | reflexivity].
    vm_compute. intros H. inversion H as [|? ? ? H']; subst. inversion H'.
Defined.

(** ** A tree that is a single leaf *)

Lemma compare_keys_eq a : ∀ b, compare_keys a b = 0 → a = b.
Proof.
  induction a as [|x a IH]; intros [|y b]; simpl; try discriminate; [reflexivity|].
  destruct (byte_lt x y) eqn:Exy; [discriminate|].
  destruct (byte_lt y x) eqn:Eyx; [discriminate|].
  intros H. rewrite (byte_lt_total _ _ Exy Eyx), (IH b H). reflexivity.
Qed.

Lemma compare_keys_refl a : compare_keys a a = 0.
Proof. pose proof (compare_keys_antisym a a). lia. Qed.

Section SearchRecord.
Variable page : Page.
Variable key : list byte.
Hypothesis Hsorted : slots_sorted page.

Let n := cell_count (header page).

Lemma key_gt_below i mid :
  0 ≤ i → i ≤ mid → mid < n →
  0 < compare_keys key (slot_key page mid) → 0 < compare_keys key (slot_key page i).
Proof.
  intros Hi Him Hmn Hgt.
  destruct (decide (i = mid)) as [->|Hne]; [exact Hgt|].
  assert (Hlt : compare_keys (slot_key page i) (slot_key page mid) < 0)
    by (apply Hsorted; lia).
  assert (Hle : compare_keys (slot_key page mid) key ≤ 0)
    by (rewrite compare_keys_antisym; lia).
  pose proof (compare_keys_lt_le_trans _ _ _ Hlt Hle) as Hik.
  rewrite compare_keys_antisym in Hik. lia.
Qed.

(** The loop invariant of the binary search of [search_record]: the
    slots below [left] hold smaller keys, the slots above [right]
    larger ones. *)
Lemma search_record_loop_spec fuel :
  ∀ left right,
    0 ≤ left → left ≤ right + 1 → right < n → right - left + 1 ≤ Z.of_nat fuel →
    (∀ i, 0 ≤ i < left → 0 < compare_keys key (slot_key page i)) →
    (∀ i, right < i < n → compare_keys key (slot_key page i) < 0) →
    let r := search_record_loop fuel page key left right in
    0 ≤ index r
    ∧ (found r = true → index r < n ∧ compare_keys key (slot_key page (index r)) = 0)
    ∧ (found r = false →
       index r ≤ n
       ∧ (∀ i, 0 ≤ i < index r → 0 < compare_keys key (slot_key page i))
       ∧ (∀ i, index r ≤ i < n → compare_keys key (slot_key page i) < 0)).
Proof.
  induction fuel as [|fuel IH]; intros left right Hl Hlr Hr Hf Hlo Hhi; simpl.
  - assert (left = right + 1) as -> by lia.
    split; [lia|]. split; [discriminate|]. intros _.
    split; [lia|]. split; [exact Hlo | intros i Hi; apply Hhi; lia].
  - destruct (left <=? right) eqn:E.
    + apply Z.leb_le in E.
      assert (Hq : (left + right) `quot` 2 = (left + right) / 2)
        by (apply Z.quot_div_nonneg; lia).
      rewrite Hq. set (mid := (left + right) / 2).
      assert (Hmid : left ≤ mid ≤ right) by (unfold mid; Z.div_mod_to_equations; lia).
      destruct (compare_keys key (slot_key page mid) =? 0) eqn:C0.
      * apply Z.eqb_eq in C0. simpl.
        split; [lia|]. split; [intros _; split; [lia | exact C0] | discriminate].
      * apply Z.eqb_neq in C0.
        destruct (compare_keys key (slot_key page mid) <? 0) eqn:C.
        -- apply Z.ltb_lt in C.
           apply IH; try lia; try assumption.
           intros i Hi. apply (key_lt_above page key Hsorted i mid); fold n; lia.
        -- apply Z.ltb_ge in C.
           apply IH; try lia; try assumption.
           intros i Hi. apply (key_gt_below i mid); lia.
    + apply Z.leb_gt in E. assert (left = right + 1) as -> by lia. simpl.
      split; [lia|]. split; [discriminate|]. intros _.
      split; [lia|]. split; [exact Hlo | intros i Hi; apply Hhi; lia].
Qed.

Lemma search_record_spec :
  0 ≤ n →
  let r := search_record page key in
  0 ≤ index r
  ∧ (found r = true → index r < n ∧ compare_keys key (slot_key page (index r)) = 0)
  ∧ (found r = false →
     index r ≤ n
     ∧ (∀ i, 0 ≤ i < index r → 0 < compare_keys key (slot_key page i))
     ∧ (∀ i, index r ≤ i < n → compare_keys key (slot_key page i) < 0)).
Proof.
  intros Hn. unfold search_record. fold n.
  apply search_record_loop_spec; try lia.
Qed.

(** On a page with ascending keys, the lookup returns the value of the
    slot that holds the key, and nothing when no slot holds it. *)
Lemma leaf_lookup_slot i :
  0 ≤ i < n → slot_key page i = key →
  leaf_lookup page key = Some (slot_value page i).
Proof.
  intros Hi Hk. unfold leaf_lookup.
  destruct (search_record_spec ltac:(lia)) as (H0 & Hf & Hnf).
  destruct (found (search_record page key)) eqn:E; simpl.
  - destruct (Hf eq_refl) as [Hlt Hc]. apply compare_keys_eq in Hc.
    destruct (Z.lt_trichotomy (index (search_record page key)) i) as [H|[H|H]].
    + pose proof (Hsorted _ _ H0 H ltac:(fold n; lia)) as Hs.
      rewrite <- Hc, Hk, compare_keys_refl in Hs. lia.
    + rewrite H. reflexivity.
    + pose proof (Hsorted i _ ltac:(lia) H ltac:(fold n; lia)) as Hs.
      rewrite <- Hc, Hk, compare_keys_refl in Hs. lia.
  - destruct (Hnf eq_refl) as (_ & Hlo & Hhi).
    destruct (decide (i < index (search_record page key))) as [H|H].
    + specialize (Hlo i ltac:(lia)). rewrite Hk, compare_keys_refl in Hlo. lia.
    + specialize (Hhi i ltac:(lia)). rewrite Hk, compare_keys_refl in Hhi. lia.
Qed.

Lemma leaf_lookup_none :
  0 ≤ n → (∀ i, 0 ≤ i < n → slot_key page i ≠ key) → leaf_lookup page key = None.
Proof.
  intros Hn Hno. unfold leaf_lookup.
  destruct (search_record_spec Hn) as (H0 & Hf & _).
  destruct (found (search_record page key)) eqn:E; simpl; [|reflexivity].
  destruct (Hf eq_refl) as [Hlt Hc]. apply compare_keys_eq in Hc.
  exfalso. apply (Hno (index (search_record page key))); [lia | congruence].
Qed.

End SearchRecord.

(** [slot_key] and [slot_value] of a LEAF page depend on the slot
    word and the record bytes it designates only. *)
Lemma leaf_slot_view page page' i j :
  page_level (header page) = LEAF → page_level (header page') = LEAF →
  cells page' !! slot_at page' i = cells page !! slot_at page j →
  slot_key page' i = slot_key page j ∧ slot_value page' i = slot_value page j.
Proof.
  intros Hl Hl' Hc. unfold slot_key, slot_value, leaf_record_at, cell_at.
  rewrite Hl, Hl', Hc. split; reflexivity.
Qed.

(** [page_insert] of a new key into a page with room: the record is
    written at [free_start] and its slot inserted at the position the
    binary search found. *)
Lemma page_insert_ok page key value :
  let size := SIZEOF_RecordHeader + key_size key + key_size value in
  let idx := index (search_record page key) in
  let cc := cell_count (header page) in
  leaf_ok page → size < 65536 →
  can_insert page (record_size (key_size key) (key_size value)) = true →
  found (search_record page key) = false →
  ∃ page',
    page_insert page key value = Ok page'
    ∧ leaf_ok page'
    ∧ cell_count (header page') = cc + 1
    ∧ free_start (header page') = free_start (header page) + size
    ∧ free_end (header page') = free_end (header page) - 2
    ∧ 0 ≤ idx ≤ cc
    ∧ (∀ i, 0 ≤ i < idx →
            slot_key page' i = slot_key page i ∧ slot_value page' i = slot_value page i)
    ∧ slot_key page' idx = key ∧ slot_value page' idx = value
    ∧ (∀ i, idx < i ≤ cc →
            slot_key page' i = slot_key page (i - 1)
            ∧ slot_value page' i = slot_value page (i - 1)).
Proof.
  intros size idx cc (Hlvl & Hcc & Hfs & Hfe & Hdir & Hsorted & Hoff) Hsize Hroom Hnew.
  pose proof (key_size_nonneg key) as Hk0. pose proof (key_size_nonneg value) as Hv0.
  destruct (search_record_spec page key Hsorted Hcc) as (Hi0 & _ & Hnf).
  destruct (Hnf Hnew) as (Hile & Hlo & Hhi). fold idx in Hi0, Hile, Hlo, Hhi.
  fold cc in Hcc, Hdir, Hoff, Hile, Hhi.
  unfold can_insert, record_size in Hroom. fold size in Hroom.
  unfold SIZEOF_RecordHeader, SIZEOF_PageHeader, SIZEOF_slot, PAGE_SIZE in *.
  rewrite (u16_small size) in Hroom by (unfold size; lia).
  apply Z.leb_le in Hroom.
  assert (Hsz : 4 ≤ size) by (unfold size; lia).
  set (fs := free_start (header page)) in *.
  set (fe := free_end (header page)) in *.
  set (page1 := mkPage (with_free_start (header page) (fs + size))
                       (<[fs := LeafRecord key value]> (cells page)) (slotmem page)).
  destruct (insert_slot_ok page1 idx fs) as (page' & Hins & Hh & Hc & Hlow & Hat & Hup);
    try (simpl; fold cc fe; unfold PAGE_SIZE; lia).
  simpl in Hh. fold cc fe in Hh.
  assert (Hslot1 : ∀ i, slot_at page1 i = slot_at page i) by reflexivity.
  assert (Hlvl' : page_level (header page') = LEAF) by (rewrite Hh; exact Hlvl).
  assert (Hold : ∀ i j, 0 ≤ j < cc → slot_at page' i = slot_at page j →
                        slot_key page' i = slot_key page j
                        ∧ slot_value page' i = slot_value page j).
  { intros i j Hj Hij. apply leaf_slot_view; try assumption.
    rewrite Hc, Hij. simpl. apply lookup_insert_ne.
    specialize (Hoff j Hj). lia. }
  assert (Hnewslot : slot_key page' idx = key ∧ slot_value page' idx = value).
  { unfold slot_key, slot_value, leaf_record_at, cell_at.
    rewrite Hlvl', Hc, Hat. simpl. rewrite lookup_insert_eq. split; reflexivity. }
  assert (Hbelow : ∀ i, 0 ≤ i < idx →
            slot_key page' i = slot_key page i ∧ slot_value page' i = slot_value page i).
  { intros i Hi. apply Hold; [lia|]. rewrite Hlow by lia. apply Hslot1. }
  assert (Habove : ∀ i, idx < i ≤ cc →
            slot_key page' i = slot_key page (i - 1)
            ∧ slot_value page' i = slot_value page (i - 1)).
  { intros i Hi. apply Hold; [lia|]. rewrite Hup by lia. apply Hslot1. }
  exists page'. split.
  { unfold page_insert, write_raw_record, record_size, SIZEOF_RecordHeader.
    fold size idx fs. rewrite (u16_small size), (u16_small (fs + size)) by lia.
    exact Hins. }
  split; [|rewrite Hh; simpl; fold cc fe fs; unfold size, SIZEOF_RecordHeader;
           repeat split; try lia; try apply Hbelow; try apply Habove;
           try apply Hnewslot; assumption].
  unfold leaf_ok. rewrite Hh. simpl. fold cc fe fs.
  unfold SIZEOF_PageHeader, PAGE_SIZE.
  split; [exact Hlvl|]. split; [lia|]. split; [lia|]. split; [lia|]. split; [lia|].
  split.
  - intros i j Hi Hij Hj. rewrite Hh in Hj. simpl in Hj.
    destruct (Z.lt_trichotomy i idx) as [Hi1|[Hi1|Hi1]],
             (Z.lt_trichotomy j idx) as [Hj1|[Hj1|Hj1]]; try lia.
    + rewrite (proj1 (Hbelow i ltac:(lia))), (proj1 (Hbelow j ltac:(lia))).
      apply Hsorted; fold cc; lia.
    + rewrite (proj1 (Hbelow i ltac:(lia))). subst j. rewrite (proj1 Hnewslot).
      rewrite compare_keys_antisym. specialize (Hlo i ltac:(lia)). lia.
    + rewrite (proj1 (Hbelow i ltac:(lia))), (proj1 (Habove j ltac:(lia))).
      apply Hsorted; fold cc; lia.
    + subst i. rewrite (proj1 Hnewslot), (proj1 (Habove j ltac:(lia))).
      apply Hhi. lia.
    + rewrite (proj1 (Habove i ltac:(lia))), (proj1 (Habove j ltac:(lia))).
      apply Hsorted; fold cc; lia.
  - intros i Hi.
    destruct (Z.lt_trichotomy i idx) as [Hi1|[Hi1|Hi1]].
    + rewrite Hlow, Hslot1 by lia. specialize (Hoff i ltac:(lia)). lia.
    + subst i. rewrite Hat. lia.
    + rewrite Hup, Hslot1 by lia. specialize (Hoff (i - 1) ltac:(lia)). lia.
Qed.

Lemma find_leaf_page_root_leaf th key :
  page_level (header (read_page (dm th) (th_root_page th))) = LEAF →
  find_leaf_page th key = Ok (th_root_page th, read_page (dm th) (th_root_page th)).
Proof.
  intros Hl. unfold find_leaf_page, find_leaf_fuel. cbn [find_leaf_loop].
  rewrite Hl, bool_decide_eq_true_2 by reflexivity. reflexivity.
Qed.

Lemma btree_search_root_leaf th key :
  th_root_page th ≠ 0 →
  page_level (header (read_page (dm th) (th_root_page th))) = LEAF →
  btree_search th key = Ok (leaf_lookup (read_page (dm th) (th_root_page th)) key).
Proof.
  intros Hroot Hl. unfold btree_search, leaf_lookup.
  replace (th_root_page th =? 0) with false by lia.
  rewrite (find_leaf_page_root_leaf th key Hl). simpl.
  destruct (found _); reflexivity.
Qed.

(** The lookups of a leaf after [page_insert] of a new key. *)
Lemma page_insert_lookup page key value page' :
  let idx := index (search_record page key) in
  let cc := cell_count (header page) in
  leaf_ok page → leaf_ok page' →
  cell_count (header page') = cc + 1 →
  0 ≤ idx ≤ cc →
  (∀ i, 0 ≤ i < idx →
        slot_key page' i = slot_key page i ∧ slot_value page' i = slot_value page i) →
  slot_key page' idx = key ∧ slot_value page' idx = value →
  (∀ i, idx < i ≤ cc →
        slot_key page' i = slot_key page (i - 1)
        ∧ slot_value page' i = slot_value page (i - 1)) →
  leaf_lookup page' key = Some value
  ∧ ∀ k, k ≠ key → leaf_lookup page' k = leaf_lookup page k.
Proof.
  intros idx cc Hok Hok' Hcc' Hidx Hbelow [Hk Hv] Habove.
  destruct Hok as (_ & Hcc & _ & _ & _ & Hsorted & _).
  destruct Hok' as (_ & _ & _ & _ & _ & Hsorted' & _).
  fold cc in Hcc. split.
  - rewrite <- Hv. apply leaf_lookup_slot; [exact Hsorted' | lia | exact Hk].
  - intros k Hne.
    destruct (search_record_spec page k Hsorted Hcc) as (Hi0 & Hf & Hnf).
    destruct (found (search_record page k)) eqn:E.
    + destruct (Hf eq_refl) as [Hlt Hc]. apply compare_keys_eq in Hc.
      set (i := index (search_record page k)) in *. fold cc in Hlt.
      rewrite (leaf_lookup_slot page k Hsorted i) by (fold cc; lia || congruence).
      destruct (decide (i < idx)) as [Hi|Hi].
      * destruct (Hbelow i ltac:(lia)) as [Hki Hvi].
        rewrite <- Hvi. apply leaf_lookup_slot; [exact Hsorted' | lia | congruence].
      * destruct (Habove (i + 1) ltac:(lia)) as [Hki Hvi].
        replace (i + 1 - 1) with i in Hki, Hvi by lia.
        rewrite <- Hvi. apply leaf_lookup_slot; [exact Hsorted' | lia | congruence].
    + destruct (Hnf eq_refl) as (_ & Hlo & Hhi). fold cc in Hhi.
      assert (Hno : ∀ i, 0 ≤ i < cc → slot_key page i ≠ k).
      { intros i Hi Heq.
        destruct (decide (i < index (search_record page k))) as [H|H].
        - specialize (Hlo i ltac:(lia)). rewrite Heq, compare_keys_refl in Hlo. lia.
        - specialize (Hhi i ltac:(lia)). rewrite Heq, compare_keys_refl in Hhi. lia. }
      rewrite (leaf_lookup_none page k Hsorted Hcc Hno).
      apply leaf_lookup_none; [exact Hsorted' | lia |].
      intros i Hi. rewrite Hcc' in Hi.
      destruct (Z.lt_trichotomy i idx) as [Hi1|[Hi1|Hi1]].
      * rewrite (proj1 (Hbelow i ltac:(lia))). apply Hno. lia.
      * subst i. congruence.
      * rewrite (proj1 (Habove i ltac:(lia))). apply Hno. lia.
Qed.

Lemma leaf_ok_not_corrupted page : leaf_ok page → 0 < cell_count (header page) →
  header_corrupted (header page) = false.
Proof.
  intros (_ & Hcc & Hfs & Hfe & Hdir & _) Hpos. unfold header_corrupted.
  unfold SIZEOF_PageHeader, PAGE_SIZE in *.
  repeat (apply orb_false_intro); lia.
Qed.

(** An insert that the root leaf has room for, in full. *)
Lemma btree_insert_root_leaf fuel th key value :
  let root := th_root_page th in
  let leaf := read_page (dm th) root in
  root ≠ 0 → leaf_ok leaf →
  SIZEOF_RecordHeader + key_size key + key_size value < 65536 →
  can_insert leaf (record_size (key_size key) (key_size value)) = true →
  btree_search th key = Ok None →
  ∃ th' leaf',
    btree_insert fuel th key value = Ok (true, th')
    ∧ th_root_page th' = root
    ∧ read_page (dm th') root = leaf'
    ∧ leaf_ok leaf'
    ∧ free_end (header leaf') - free_start (header leaf')
      = free_end (header leaf) - free_start (header leaf)
        - (SIZEOF_RecordHeader + key_size key + key_size value + SIZEOF_slot)
    ∧ leaf_lookup leaf' key = Some value
    ∧ (∀ k, k ≠ key → leaf_lookup leaf' k = leaf_lookup leaf k).
Proof.
  intros root leaf Hroot Hok Hsize Hroom Habsent.
  pose proof Hok as (Hlvl & _).
  rewrite (btree_search_root_leaf th key Hroot Hlvl) in Habsent.
  fold root leaf in Habsent.
  assert (Hnew : found (search_record leaf key) = false).
  { unfold leaf_lookup in Habsent. destruct (found _); [discriminate | reflexivity]. }
  destruct (page_insert_ok leaf key value Hok Hsize Hroom Hnew)
    as (leaf' & Hins & Hok' & Hcc' & Hfs' & Hfe' & Hidx & Hbelow & Hat & Hval & Habove).
  exists (th_write th root leaf'), leaf'.
  split.
  { unfold btree_insert. fold root. replace (root =? 0) with false by lia.
    rewrite (find_leaf_page_root_leaf th key Hlvl). fold root leaf.
    cbv beta iota zeta delta [mbind Outcome_bind obind].
    rewrite Hnew. unfold btree_insert_leaf_no_split.
    rewrite Hroom. cbv beta iota zeta delta [negb mbind Outcome_bind obind].
    rewrite Hins.
    rewrite (leaf_ok_not_corrupted leaf' Hok')
      by (rewrite Hcc'; destruct Hok as (_ & ? & _); lia).
    reflexivity. }
  split; [reflexivity|].
  split; [unfold read_page, th_write, write_page; simpl; apply lookup_insert_eq
          || (rewrite lookup_insert_eq; reflexivity)|].
  split; [exact Hok'|].
  split; [rewrite Hfs', Hfe'; unfold SIZEOF_slot; lia|].
  exact (page_insert_lookup leaf key value leaf' Hok Hok' Hcc' Hidx Hbelow
           (conj Hat Hval) Habove).
Qed.

Lemma leaf_ok_init pid : leaf_ok (init_page pid DATA LEAF).
Proof.
  unfold leaf_ok, init_page, slots_sorted. simpl. unfold SIZEOF_PageHeader, PAGE_SIZE.
  repeat split; try lia; intros; lia.
Qed.

(** The first insert into an empty tree, in full. *)
Lemma btree_insert_empty fuel th key value :
  let nid := next_free_page_id th in
  let size := SIZEOF_RecordHeader + key_size key + key_size value + SIZEOF_slot in
  th_root_page th = 0 → nid ≠ 0 →
  size ≤ PAGE_SIZE - SIZEOF_PageHeader →
  ∃ th' leaf',
    btree_insert fuel th key value = Ok (true, th')
    ∧ th_root_page th' = nid
    ∧ root_page (header (read_page (dm th') 0)) = nid
    ∧ read_page (dm th') nid = leaf'
    ∧ leaf_ok leaf'
    ∧ free_end (header leaf') - free_start (header leaf')
      = PAGE_SIZE - SIZEOF_PageHeader - size
    ∧ leaf_lookup leaf' key = Some value
    ∧ (∀ k, k ≠ key → leaf_lookup leaf' k = None).
Proof.
  intros nid size Hroot Hnid Hsize.
  pose proof (key_size_nonneg key) as Hk0. pose proof (key_size_nonneg value) as Hv0.
  set (leaf := init_page nid DATA LEAF).
  assert (Hempty : ∀ k, leaf_lookup leaf k = None) by reflexivity.
  assert (Hnew : found (search_record leaf key) = false) by reflexivity.
  unfold size, SIZEOF_RecordHeader, SIZEOF_slot, SIZEOF_PageHeader, PAGE_SIZE in Hsize.
  destruct (page_insert_ok leaf key value (leaf_ok_init nid))
    as (leaf' & Hins & Hok' & Hcc' & Hfs' & Hfe' & Hidx & Hbelow & Hat & Hval & Habove);
    [unfold SIZEOF_RecordHeader; lia | | exact Hnew |].
  { unfold can_insert, record_size, SIZEOF_RecordHeader, SIZEOF_slot. simpl.
    rewrite u16_small by lia. unfold PAGE_SIZE, SIZEOF_PageHeader. lia. }
  destruct (page_insert_lookup leaf key value leaf' (leaf_ok_init nid) Hok' Hcc' Hidx Hbelow
              (conj Hat Hval) Habove) as [Hfound Hothers].
  eexists _, leaf'. split.
  { unfold btree_insert. rewrite Hroot. simpl.
    unfold mbind, Outcome_bind. fold nid leaf. rewrite Hins. reflexivity. }
  simpl. unfold read_page, write_page.
  split; [reflexivity|].
  split; [rewrite lookup_insert_ne, lookup_insert_eq by congruence; reflexivity|].
  split; [rewrite lookup_insert_eq; reflexivity|].
  split; [exact Hok'|].
  split; [rewrite Hfs', Hfe'; simpl;
          unfold size, SIZEOF_RecordHeader, SIZEOF_slot, SIZEOF_PageHeader, PAGE_SIZE; lia|].
  split; [exact Hfound|].
  intros k Hne. rewrite (Hothers k Hne). apply Hempty.
Qed.

(** X9.  The first insert.  [btree_insert] into an empty tree
    ([root_page = 0]) of a record that fits an empty page returns
    [true]; the newly allocated page becomes the root in the handle and
    in the meta page, [btree_search] then returns the value for the
    inserted key and nothing for any other key. *)
Theorem btree_insert_first_record fuel th key value :
  let nid := next_free_page_id th in
  th_root_page th = 0 → nid ≠ 0 →
  SIZEOF_RecordHeader + key_size key + key_size value + SIZEOF_slot
    ≤ PAGE_SIZE - SIZEOF_PageHeader →
  ∃ th',
    btree_insert fuel th key value = Ok (true, th')
    ∧ th_root_page th' = nid
    ∧ root_page (header (read_page (dm th') 0)) = nid
    ∧ btree_search th' key = Ok (Some value)
    ∧ (∀ k, k ≠ key → btree_search th' k = Ok None).
Proof.
  intros nid Hroot Hnid Hsize.
  destruct (btree_insert_empty fuel th key value Hroot Hnid Hsize)
    as (th' & leaf' & Hrun & Hr & Hmeta & Hread & Hok & _ & Hfound & Hothers).
  fold nid in Hr, Hmeta, Hread.
  assert (Hlvl : page_level (header (read_page (dm th') (th_root_page th'))) = LEAF)
    by (rewrite Hr, Hread; apply Hok).
  exists th'. split; [exact Hrun|]. split; [exact Hr|]. split; [exact Hmeta|].
  split.
  - rewrite btree_search_root_leaf by (assumption || (rewrite Hr; assumption)).
    rewrite Hr, Hread, Hfound. reflexivity.
  - intros k Hne. rewrite btree_search_root_leaf by (assumption || (rewrite Hr; assumption)).
    rewrite Hr, Hread, (Hothers k Hne). reflexivity.
Qed.

Lemma btree_insert_first_record_witness :
  ∃ th',
    btree_insert 1 fresh_table (bytes "k") (filler 8000) = Ok (true, th')
    ∧ th_root_page th' = 1
    ∧ btree_search th' (bytes "k") = Ok (Some (filler 8000))
    ∧ btree_search th' (bytes "j") = Ok None.
Proof.
  destruct (btree_insert_first_record 1 fresh_table (bytes "k") (filler 8000))
    as (th' & Hrun & Hroot & _ & Hfound & Hothers);
    [reflexivity | vm_compute; discriminate | vm_compute; discriminate |].
  exists th'. split; [exact Hrun|]. split; [exact Hroot|]. split; [exact Hfound|].
  apply Hothers. vm_compute. discriminate.
Defined.

(** X10.  An insert that the root leaf has room for.  When the root
    is a well-formed LEAF page with room for the record and the key is
    absent, [btree_insert] returns [true], the root stays a well-formed
    leaf, [btree_search] returns the value for the inserted key, and
    the result of [btree_search] for every other key is what it was. *)
Theorem btree_insert_root_leaf_round_trip fuel th key value :
  let root := th_root_page th in
  let leaf := read_page (dm th) root in
  root ≠ 0 → leaf_ok leaf →
  SIZEOF_RecordHeader + key_size key + key_size value < 65536 →
  can_insert leaf (record_size (key_size key) (key_size value)) = true →
  btree_search th key = Ok None →
  ∃ th',
    btree_insert fuel th key value = Ok (true, th')
    ∧ th_root_page th' = root
    ∧ leaf_ok (read_page (dm th') root)
    ∧ btree_search th' key = Ok (Some value)
    ∧ (∀ k, k ≠ key → btree_search th' k = btree_search th k).
Proof.
  intros root leaf Hroot Hok Hsize Hroom Habsent.
  destruct (btree_insert_root_leaf fuel th key value Hroot Hok Hsize Hroom Habsent)
    as (th' & leaf' & Hrun & Hr & Hread & Hok' & _ & Hfound & Hothers).
  fold root in Hr, Hread. fold leaf in Hothers.
  exists th'. split; [exact Hrun|]. split; [exact Hr|].
  split; [rewrite Hread; exact Hok'|].
  assert (Hlvl : page_level (header (read_page (dm th) (th_root_page th))) = LEAF)
    by apply Hok.
  assert (Hlvl' : page_level (header (read_page (dm th') (th_root_page th'))) = LEAF)
    by (rewrite Hr, Hread; apply Hok').
  split.
  - rewrite btree_search_root_leaf by (assumption || (rewrite Hr; assumption)).
    rewrite Hr, Hread, Hfound. reflexivity.
  - intros k Hne.
    rewrite (btree_search_root_leaf th') by (assumption || (rewrite Hr; assumption)).
    rewrite (btree_search_root_leaf th) by assumption.
    rewrite Hr, Hread, (Hothers k Hne). reflexivity.
Qed.

Lemma btree_insert_root_leaf_round_trip_witness :
  ∃ th',
    btree_insert 1 (leaf_root_table three_record_leaf) (bytes "bb") (bytes "x")
    = Ok (true, th')
    ∧ btree_search th' (bytes "bb") = Ok (Some (bytes "x"))
    ∧ btree_search th' (bytes "c") = Ok (Some (bytes "3")).
Proof.
  destruct (btree_insert_root_leaf_round_trip 1 (leaf_root_table three_record_leaf)
              (bytes "bb") (bytes "x"))
    as (th' & Hrun & _ & _ & Hfound & Hothers);
    [vm_compute; discriminate | | vm_compute; reflexivity | reflexivity | reflexivity |].
  { change (leaf_ok three_record_leaf). unfold leaf_ok, slots_sorted. simpl.
    split; [reflexivity|]. split; [lia|].
    unfold SIZEOF_PageHeader, PAGE_SIZE.
    split; [lia|]. split; [lia|]. split; [lia|]. split.
    - intros i j Hi Hij Hj.
      assert (Hc : (i = 0 ∧ j = 1) ∨ (i = 0 ∧ j = 2) ∨ (i = 1 ∧ j = 2)) by lia.
      destruct Hc as [[-> ->] | [[-> ->] | [-> ->]]]; vm_compute; reflexivity.
    - intros i Hi.
      assert (Hc : i = 0 ∨ i = 1 ∨ i = 2) by lia.
      destruct Hc as [-> | [-> | ->]]; vm_compute; reflexivity. }
  exists th'. split; [exact Hrun|]. split; [exact Hfound|].
  rewrite Hothers by (vm_compute; discriminate). reflexivity.
Defined.

Lemma records_size_nonneg kvs : 0 ≤ records_size kvs.
Proof.
  induction kvs as [|[k v] kvs IH]; simpl; [lia|].
  pose proof (key_size_nonneg k). pose proof (key_size_nonneg v).
  unfold SIZEOF_RecordHeader, SIZEOF_slot. fold (records_size kvs). lia.
Qed.

(** Inserts into a root leaf that has room for all of them: [done] is
    what the leaf holds, [rest] what is inserted. *)
Lemma insert_all_root_leaf fuel rest :
  ∀ done th,
    let root := th_root_page th in
    let leaf := read_page (dm th) root in
    root ≠ 0 → leaf_ok leaf →
    records_size rest ≤ free_end (header leaf) - free_start (header leaf) →
    NoDup ((done ++ rest).*1) →
    (∀ k v, (k, v) ∈ done → leaf_lookup leaf k = Some v) →
    (∀ k, k ∉ done.*1 → leaf_lookup leaf k = None) →
    ∃ th',
      insert_all fuel th rest = Ok (replicate (length rest) true, th')
      ∧ th_root_page th' = root
      ∧ page_level (header (read_page (dm th') root)) = LEAF
      ∧ (∀ k v, (k, v) ∈ done ++ rest →
                leaf_lookup (read_page (dm th') root) k = Some v)
      ∧ (∀ k, k ∉ (done ++ rest).*1 → leaf_lookup (read_page (dm th') root) k = None).
Proof.
  induction rest as [|[key value] rest IH]; cbv zeta in *;
    intros done th Hroot Hok Hroom Hnd Hin Hout.
  - exists th. rewrite app_nil_r. simpl.
    split; [reflexivity|]. split; [reflexivity|]. split; [apply Hok|]. split; assumption.
  - pose proof (key_size_nonneg key) as Hk0. pose proof (key_size_nonneg value) as Hv0.
    pose proof (records_size_nonneg rest) as Hr0.
    pose proof Hok as (Hlvl & Hcc & Hfs & Hfe & Hdir & _).
    cbn [records_size foldr] in Hroom. fold (records_size rest) in Hroom.
    cbn [fst snd] in Hroom.
    unfold SIZEOF_RecordHeader, SIZEOF_slot, SIZEOF_PageHeader, PAGE_SIZE in *.
    assert (Hfresh : key ∉ done.*1).
    { rewrite fmap_app in Hnd. apply NoDup_app in Hnd as (_ & Hdisj & _).
      intros Hk. apply (Hdisj key Hk). simpl. constructor. }
    destruct (btree_insert_root_leaf fuel th key value)
      as (th1 & leaf1 & Hrun & Hr1 & Hread1 & Hok1 & Hfree1 & Hfound1 & Hothers1);
      try assumption.
    { unfold SIZEOF_RecordHeader. lia. }
    { unfold can_insert, record_size, SIZEOF_RecordHeader, SIZEOF_slot.
      rewrite u16_small by lia. lia. }
    { rewrite btree_search_root_leaf by assumption.
      rewrite (Hout key Hfresh). reflexivity. }
    destruct (IH (done ++ [(key, value)]) th1) as (th' & Hrest & Hr' & Hlvl' & Hin' & Hout').
    + rewrite Hr1. exact Hroot.
    + rewrite Hr1, Hread1. exact Hok1.
    + rewrite Hr1, Hread1, Hfree1. unfold SIZEOF_RecordHeader, SIZEOF_slot. lia.
    + rewrite <- app_assoc. exact Hnd.
    + rewrite Hr1, Hread1. intros k v Hkv.
      apply elem_of_app in Hkv as [Hkv|Hkv].
      * assert (k ≠ key).
        { intros ->. apply Hfresh. apply list_elem_of_fmap. exists (key, v). auto. }
        rewrite Hothers1 by assumption. apply Hin. exact Hkv.
      * apply list_elem_of_singleton in Hkv. injection Hkv as -> ->. exact Hfound1.
    + rewrite Hr1, Hread1. intros k Hk.
      rewrite fmap_app in Hk. apply not_elem_of_app in Hk as [Hk1 Hk2].
      simpl in Hk2. apply not_elem_of_cons in Hk2 as [Hne _].
      rewrite Hothers1 by assumption. apply Hout. exact Hk1.
    + rewrite Hr1 in Hr', Hlvl', Hin', Hout'. rewrite <- app_assoc in Hin', Hout'.
      exists th'. cbn [insert_all length replicate].
      cbv beta iota zeta delta [mbind Outcome_bind obind].
      rewrite Hrun. cbv beta iota. rewrite Hrest. cbv beta iota.
      split; [reflexivity|]. split; [exact Hr'|]. split; [exact Hlvl'|].
      split; assumption.
Qed.

(** X11.  Round trip while the tree is a single leaf.  For records
    with distinct keys that fit one page together, inserted into an
    empty tree in any order: every [btree_insert] returns [true], and
    afterwards [btree_search] returns, for each inserted key, the value
    inserted with it, and nothing for every other key. *)
Theorem btree_round_trip_single_leaf fuel th kvs :
  th_root_page th = 0 → next_free_page_id th ≠ 0 →
  NoDup (kvs.*1) →
  records_size kvs ≤ PAGE_SIZE - SIZEOF_PageHeader →
  ∃ th',
    insert_all fuel th kvs = Ok (replicate (length kvs) true, th')
    ∧ (∀ k v, (k, v) ∈ kvs → btree_search th' k = Ok (Some v))
    ∧ (∀ k, k ∉ kvs.*1 → btree_search th' k = Ok None).
Proof.
  intros Hroot Hnid Hnd Hsize.
  destruct kvs as [|[key value] rest].
  - exists th. split; [reflexivity|]. split.
    + intros k v Hin. apply elem_of_nil in Hin. contradiction.
    + intros k _. unfold btree_search. rewrite Hroot. reflexivity.
  - pose proof (records_size_nonneg rest) as Hr0.
    cbn [records_size foldr fst snd] in Hsize. fold (records_size rest) in Hsize.
    destruct (btree_insert_empty fuel th key value Hroot Hnid)
      as (th1 & leaf1 & Hrun & Hr1 & _ & Hread1 & Hok1 & Hfree1 & Hfound1 & Hothers1);
      [lia|].
    destruct (insert_all_root_leaf fuel rest [(key, value)] th1)
      as (th' & Hrest & Hr' & Hlvl' & Hin' & Hout').
    + rewrite Hr1. exact Hnid.
    + rewrite Hr1, Hread1. exact Hok1.
    + rewrite Hr1, Hread1, Hfree1. lia.
    + exact Hnd.
    + rewrite Hr1, Hread1. intros k v Hkv.
      apply list_elem_of_singleton in Hkv. injection Hkv as -> ->. exact Hfound1.
    + rewrite Hr1, Hread1. intros k Hk. simpl in Hk.
      apply not_elem_of_cons in Hk as [Hne _]. apply Hothers1. exact Hne.
    + rewrite Hr1 in Hr', Hlvl', Hin', Hout'. simpl in Hin', Hout'.
      assert (Hl : page_level (header (read_page (dm th') (th_root_page th'))) = LEAF)
        by (rewrite Hr'; exact Hlvl').
      assert (Hn0 : th_root_page th' ≠ 0) by (rewrite Hr'; exact Hnid).
      exists th'. split.
      * cbn [insert_all length replicate].
        cbv beta iota zeta delta [mbind Outcome_bind obind].
        rewrite Hrun. cbv beta iota. rewrite Hrest. reflexivity.
      * split.
        -- intros k v Hkv. rewrite btree_search_root_leaf by assumption.
           rewrite Hr', (Hin' k v Hkv). reflexivity.
        -- intros k Hk. rewrite btree_search_root_leaf by assumption.
           rewrite Hr', (Hout' k Hk). reflexivity.
Qed.

Lemma btree_round_trip_single_leaf_witness :
  ∃ th',
    insert_all 1 fresh_table
      [(bytes "m", filler 3000); (bytes "c", filler 2000); (bytes "x", filler 3000)]
    = Ok ([true; true; true], th')
    ∧ btree_search th' (bytes "c") = Ok (Some (filler 2000))
    ∧ btree_search th' (bytes "d") = Ok None.
Proof.
  destruct (btree_round_trip_single_leaf 1 fresh_table
              [(bytes "m", filler 3000); (bytes "c", filler 2000); (bytes "x", filler 3000)])
    as (th' & Hrun & Hin & Hout);
    [reflexivity | vm_compute; discriminate | | vm_compute; discriminate |].
  { repeat (apply NoDup_cons; split;
            [vm_compute; intros H;
             repeat (apply elem_of_cons in H as [H|H]; [discriminate|]);
             apply elem_of_nil in H; exact H|]).
    apply NoDup_nil_2. }
  exists th'. split; [exact Hrun|]. split.
  - apply Hin. apply list_elem_of_further, list_elem_of_here.
  - apply Hout. vm_compute. intros H.
    repeat (apply elem_of_cons in H as [H|H]; [discriminate|]).
    apply elem_of_nil in H. exact H.
Defined.

(** ** Expression evaluation: operators, errors, columns *)

Section EvaluatorOperators.
Import Executor.

(** X12.  The comparison operators never fail and return 0 or 1; on
    operands of different types (an integer and a string) every one of
    them returns 0, the operators "=", "<=" and ">=" included. *)
Theorem comparison_total_boolean op a b :
  op ∈ comparison_ops →
  ∃ bit, eval_binary op a b = Ok (of_bool bit)
         ∧ (both_int a b = None → both_string a b = None → bit = false).
Proof.
  intros Hop. unfold comparison_ops in Hop.
  repeat (apply elem_of_cons in Hop as [->|Hop]);
    [..|apply elem_of_nil in Hop; contradiction];
    destruct a as [x|s], b as [y|s']; simpl;
    unfold eval_binary, compare_values, op_is; simpl;
    first [ exists false; split; [reflexivity | reflexivity]
          | eexists; split; [reflexivity | simpl; intros; congruence] ].
Qed.

Lemma comparison_total_boolean_witness :
  ∃ bit, eval_binary ">=" (VInt 3) (VString "3") = Ok (of_bool bit) ∧ bit = false.
Proof.
  destruct (comparison_total_boolean ">=" (VInt 3) (VString "3")) as (bit & Hrun & Hbit).
  - unfold comparison_ops. do 5 apply list_elem_of_further. apply list_elem_of_here.
  - exists bit. split; [exact Hrun | apply Hbit; reflexivity].
Defined.

Lemma eval_binary_errors op lv rv :
  match eval_binary op lv rv with
  | Ok _ => True
  | Throw m => m ∈ binary_errors op
  | Trap m => m = "integer overflow" ∧ op = "/"
  | _ => False
  end.
Proof.
  unfold eval_binary, op_is, binary_errors, comparison_ops, machine_div.
  repeat match goal with
         | |- context [String.eqb op ?s] =>
             destruct (String.eqb_spec op s) as [->|?]; simpl
         end;
    try (destruct lv, rv; simpl; unfold mbind, Outcome_bind; simpl;
         repeat match goal with
                | |- context [if ?b then _ else _] => destruct b; simpl
                end;
         repeat (constructor || apply list_elem_of_further); exact I).
  rewrite bool_decide_eq_false_2
    by (intros H; repeat (apply elem_of_cons in H as [H|H]; [congruence|]);
        apply elem_of_nil in H; exact H).
  rewrite bool_decide_eq_false_2
    by (intros H; repeat (apply elem_of_cons in H as [H|H]; [congruence|]);
        apply elem_of_nil in H; exact H).
  rewrite bool_decide_eq_false_2 by congruence.
  constructor.
Qed.

Lemma find_column_index_from_errors i name column_names :
  match find_column_index_from i name column_names with
  | Ok _ => True
  | Throw m => m = "Column not found: " +:+ name
  | _ => False
  end.
Proof.
  revert i. induction column_names as [|c cs IH]; intros i; simpl; [reflexivity|].
  destruct (String.eqb c name); [exact I | apply IH].
Qed.

(** X13.  The failures of [evaluate_expr].  An evaluation returns a
    value, throws, or is stopped by the overflow of the division
    [INT_MIN / -1], which needs a "/" in the expression; the message
    it throws is one of the messages of the leaves and operators of
    the expression ([error_messages]): "+" and the comparisons
    contribute none, "-", "*", AND and OR only "Expected integer
    value", "/" that and "Division by zero", any other operator
    "Unknown binary operator". *)
Theorem evaluate_expr_errors expr tuple column_names :
  match evaluate_expr expr tuple column_names with
  | Ok _ => True
  | Throw m => m ∈ error_messages expr
  | Trap m => m = "integer overflow" ∧ has_division expr = true
  | _ => False
  end.
Proof.
  induction expr as [| name | v | v | | op l IHl r IHr]; simpl;
    try exact I; try (constructor; fail).
  - unfold find_column_index.
    pose proof (find_column_index_from_errors 0 name column_names) as Hc.
    destruct (find_column_index_from 0 name column_names) as [idx|?|m|?|];
      simpl; try contradiction.
    + destruct (_ || _); [apply list_elem_of_further; constructor|].
      destruct (tuple !! _); [exact I | apply list_elem_of_further; constructor].
    + subst m. constructor.
  - destruct (evaluate_expr l tuple column_names) as [lv|?|m|m|]; simpl;
      try contradiction.
    + destruct (evaluate_expr r tuple column_names) as [rv|?|m|m|]; simpl;
        try contradiction.
      * pose proof (eval_binary_errors op lv rv) as Hb.
        destruct (eval_binary op lv rv) as [?|?|m|m|]; try exact Hb.
        -- apply elem_of_app. right. apply elem_of_app. right. exact Hb.
        -- destruct Hb as [-> ->]. split; reflexivity.
      * apply elem_of_app. right. apply elem_of_app. left. exact IHr.
      * destruct IHr as [-> ->]. split; [reflexivity | apply orb_true_r].
    + apply elem_of_app. left. exact IHl.
    + destruct IHl as [-> ->]. split; [reflexivity|].
      rewrite orb_true_r. reflexivity.
Qed.

Lemma i32_small z : -2147483648 ≤ z ≤ 2147483647 → i32 z = z.
Proof. intros H. unfold i32. rewrite Z.mod_small by lia. lia. Qed.

Lemma find_column_index_from_find name column_names :
  ∀ k, 0 ≤ k → k + Z.of_nat (length column_names) ≤ 2147483647 →
    find_column_index_from k name column_names
    = match list_find (λ c, c = name) column_names with
      | Some (i, _) => Ok (k + Z.of_nat i)
      | None => Throw ("Column not found: " +:+ name)
      end.
Proof.
  induction column_names as [|c cs IH]; intros k Hk Hlen; [reflexivity|].
  cbn [find_column_index_from list_find]. simpl length in Hlen.
  destruct (String.eqb_spec c name) as [->|Hne].
  - rewrite decide_True by reflexivity. rewrite i32_small by lia. f_equal. lia.
  - rewrite decide_False by exact Hne.
    rewrite IH by lia.
    destruct (list_find (λ c0, c0 = name) cs) as [[i x]|]; simpl; [|reflexivity].
    f_equal. lia.
Qed.

(** X14.  Column lookup.  An identifier evaluates to the field of the
    tuple at the first position where the column list holds its name;
    a later column of the same name is never read.  When no column has
    the name the error is "Column not found", and when the tuple is
    shorter than that position it is "Column index out of bounds". *)
Theorem evaluate_identifier_first_column name tuple column_names :
  Z.of_nat (length column_names) ≤ 2147483647 →
  evaluate_expr (EIdentifier name) tuple column_names
  = match list_find (λ c, c = name) column_names with
    | None => Throw ("Column not found: " +:+ name)
    | Some (i, _) =>
        match tuple !! i with
        | Some v => Ok v
        | None => Throw ("Column index out of bounds: " +:+ name)
        end
    end.
Proof.
  intros Hlen. cbn [evaluate_expr]. unfold find_column_index.
  rewrite find_column_index_from_find by lia.
  destruct (list_find (λ c, c = name) column_names) as [[i x]|]; [|reflexivity].
  cbv beta iota delta [mbind Outcome_bind obind].
  replace (0 + Z.of_nat i) with (Z.of_nat i) by lia.
  replace (Z.to_nat (Z.of_nat i)) with i by lia.
  destruct (Z.ltb_spec (Z.of_nat i) 0) as [?|_]; [lia|].
  cbn [orb].
  destruct (tuple !! i) as [v|] eqn:E.
  - apply lookup_lt_Some in E.
    destruct (Z.leb_spec (Z.of_nat (length tuple)) (Z.of_nat i)); [lia | reflexivity].
  - destruct (_ <=? _); reflexivity.
Qed.

Lemma evaluate_identifier_first_column_witness :
  evaluate_expr (EIdentifier "id") [VInt 1; VString "x"; VInt 2] ["id"; "name"; "id"]
  = Ok (VInt 1)
  ∧ evaluate_expr (EIdentifier "age") [VInt 1] ["id"; "age"]
    = Throw "Column index out of bounds: age".
Proof.
  split.
  - rewrite evaluate_identifier_first_column by (simpl; lia). reflexivity.
  - rewrite evaluate_identifier_first_column by (simpl; lia). reflexivity.
Defined.
End EvaluatorOperators.

(** ** The executor pipeline *)

Section Pipeline.
Import Executor Planner Engine.
Context {Assignment : Type}.
Implicit Types (plan source : Plan Assignment) (schema : gmap string (list string)).

(** The tests of [executor/main.cpp] on the users table. *)
Example execute_plan_tests :
  let age_18 := EBinary ">=" (EIdentifier "age") (ENumber 18) in
  let run (plan : Plan Assignment) := fst <$> execute_plan 10 plan new_storage users_schema in
  run (SeqScanPlan "users")
  = Ok [ [VInt 1; VString "Alice"; VInt 20]; [VInt 2; VString "Bob"; VInt 17];
         [VInt 3; VString "Carol"; VInt 25] ]
  ∧ run (FilterPlan age_18 (SeqScanPlan "users"))
    = Ok [ [VInt 1; VString "Alice"; VInt 20]; [VInt 3; VString "Carol"; VInt 25] ]
  ∧ run (ProjectPlan [EIdentifier "id"; EIdentifier "name"] (SeqScanPlan "users"))
    = Ok [ [VInt 1; VString "Alice"]; [VInt 2; VString "Bob"]; [VInt 3; VString "Carol"] ]
  ∧ run (ProjectPlan [EIdentifier "id"; EIdentifier "name"]
           (FilterPlan age_18 (SeqScanPlan "users")))
    = Ok [ [VInt 1; VString "Alice"]; [VInt 3; VString "Carol"] ]
  ∧ run (ProjectPlan [EIdentifier "id"; EBinary "*" (EIdentifier "age") (ENumber 2)]
           (SeqScanPlan "users"))
    = Ok [ [VInt 1; VInt 40]; [VInt 2; VInt 34]; [VInt 3; VInt 50] ].
Proof. evaluate. Qed.

Lemma table_of_get_table s name name' :
  table_of (snd (get_table s name)) name' = table_of s name'.
Proof.
  unfold get_table.
  destruct (tables s !! name) as [t|] eqn:E; [reflexivity|].
  unfold table_of. cbn [snd tables].
  destruct (decide (name' = name)) as [Heq|Hne].
  - rewrite Heq, lookup_insert_eq.
    etransitivity; [|symmetry; exact (f_equal (default []) E)]. reflexivity.
  - rewrite lookup_insert_ne by congruence. reflexivity.
Qed.

Lemma build_executor_supported plan s schema :
  supported plan = true →
  build_executor plan s schema
  = Ok (exec_at plan schema 0, snd (get_table s (base_table plan))).
Proof.
  induction plan; simpl; try discriminate; intros Hs.
  - destruct (get_table s table); reflexivity.
  - rewrite IHplan by exact Hs. reflexivity.
  - rewrite IHplan by exact Hs. reflexivity.
Qed.

Lemma first_hit_lt plan schema rows k output :
  first_hit plan schema rows = Ok (Some (k, output)) → (k < length rows)%nat.
Proof.
  revert k. induction rows as [|t rest IH]; intros k; simpl; [discriminate|].
  destruct (row_result plan schema t) as [[out|]| | | |]; simpl; try discriminate.
  - intros [= <- _]. lia.
  - destruct (first_hit plan schema rest) as [[[k' out']|]| | | |]; simpl; try discriminate.
    intros [= <- <-]. specialize (IH k' eq_refl). lia.
Qed.

(** The first output of a filter is the first output of its source
    that passes the predicate. *)
Lemma first_hit_filter predicate source schema rows :
  first_hit (FilterPlan predicate source) schema rows
  = (h ← first_hit source schema rows;
     match h with
     | None => Ok None
     | Some (k, t) =>
         pass ← evaluate_predicate predicate t (base_columns source schema);
         if (pass : bool) then Ok (Some (k, t))
         else
           h' ← first_hit (FilterPlan predicate source) schema (drop (S k) rows);
           Ok (match h' with
               | Some (k', output) => Some (S k + k', output)%nat
               | None => None
               end)
     end).
Proof.
  induction rows as [|t rest IH]; [reflexivity|].
  cbn [first_hit row_result].
  destruct (row_result source schema t) as [[t'|]| | | |]; simpl; try reflexivity.
  - destruct (evaluate_predicate predicate t' (base_columns source schema))
      as [[|]| | | |]; simpl; try reflexivity.
  - rewrite IH.
    destruct (first_hit source schema rest) as [[[k t']|]| | | |]; simpl; try reflexivity.
    destruct (evaluate_predicate predicate t' (base_columns source schema))
      as [[|]| | | |]; simpl; try reflexivity.
    destruct (first_hit (FilterPlan predicate source) schema (drop (S k) rest))
      as [[[k' out']|]| | | |]; simpl; reflexivity.
Qed.

Lemma first_hit_project projections source schema rows :
  first_hit (ProjectPlan projections source) schema rows
  = (h ← first_hit source schema rows;
     match h with
     | None => Ok None
     | Some (k, t) =>
         output ← project_tuple projections t (base_columns source schema);
         Ok (Some (k, output))
     end).
Proof.
  induction rows as [|t rest IH]; [reflexivity|].
  cbn [first_hit row_result].
  destruct (row_result source schema t) as [[t'|]| | | |]; simpl; try reflexivity.
  - destruct (project_tuple projections t' (base_columns source schema));
      simpl; reflexivity.
  - rewrite IH.
    destruct (first_hit source schema rest) as [[[k t']|]| | | |]; simpl; try reflexivity.
    destruct (project_tuple projections t' (base_columns source schema));
      simpl; reflexivity.
Qed.

Lemma rows_result_first_hit plan schema rows :
  rows_result plan schema rows
  = (h ← first_hit plan schema rows;
     match h with
     | None => Ok []
     | Some (k, output) =>
         rest ← rows_result plan schema (drop (S k) rows); Ok (output :: rest)
     end).
Proof.
  induction rows as [|t rest IH]; [reflexivity|].
  cbn [rows_result first_hit].
  destruct (row_result plan schema t) as [[t'|]| | | |]; simpl; try reflexivity.
  rewrite IH.
  destruct (first_hit plan schema rest) as [[[k t']|]| | | |]; simpl; try reflexivity.
  destruct (rows_result plan schema (drop (S k) rest)); reflexivity.
Qed.

(** One [next] of the executor tree of a plan: the first row the
    stack outputs from the cursor on. *)
Lemma next_exec_at plan schema s :
  let rows := table_of s (base_table plan) in
  supported plan = true →
  ∀ m c fuel,
    (c + m = length rows)%nat → (depth plan + m + 1 ≤ fuel)%nat →
    next fuel s (exec_at plan schema c)
    = (h ← first_hit plan schema (drop c rows);
       Ok (match h with
           | Some (k, output) => (Some output, exec_at plan schema (c + k + 1))
           | None => (None, exec_at plan schema (length rows))
           end)).
Proof.
  intros rows. induction plan as [| table | | predicate source IH | projections source IH
                                  | | | | | |]; simpl; try discriminate; intros Hs.
  - (* SeqScan *)
    intros m c fuel Hc Hf. destruct fuel as [|fuel]; [lia|]. simpl.
    change (table_of s table) with rows. destruct (rows !! c) as [t|] eqn:E.
    + rewrite (drop_S _ _ _ E). simpl.
      replace (c + 0 + 1)%nat with (S c) by lia. reflexivity.
    + apply lookup_ge_None in E. rewrite drop_ge by lia. simpl.
      assert (Hceq : c = length rows) by lia. rewrite <- Hceq. reflexivity.
  - (* Filter *)
    specialize (IH Hs). simpl in rows. fold rows in IH.
    induction m as [m IHm] using lt_wf_ind. intros c fuel Hc Hf.
    destruct fuel as [|fuel]; [lia|]. cbn [next].
    rewrite (IH m c fuel Hc ltac:(lia)).
    rewrite first_hit_filter.
    destruct (first_hit source schema (drop c rows)) as [[[k t]|]| | | |] eqn:Eh;
      simpl; try reflexivity.
    pose proof (first_hit_lt _ _ _ _ _ Eh) as Hk. rewrite length_drop in Hk.
    destruct (evaluate_predicate predicate t (base_columns source schema))
      as [[|]| | | |]; simpl; try reflexivity.
    rewrite (IHm (m - k - 1)%nat ltac:(lia) (c + k + 1)%nat fuel ltac:(lia) ltac:(lia)).
    rewrite drop_drop. replace (c + S k)%nat with (c + k + 1)%nat by lia.
    destruct (first_hit (FilterPlan predicate source) schema (drop (c + k + 1) rows))
      as [[[k' out']|]| | | |]; simpl; try reflexivity.
    replace (c + k + 1 + k' + 1)%nat with (c + S (k + k') + 1)%nat by lia. reflexivity.
  - (* Project *)
    specialize (IH Hs). simpl in rows. fold rows in IH.
    intros m c fuel Hc Hf.
    destruct fuel as [|fuel]; [lia|]. cbn [next].
    rewrite (IH m c fuel Hc ltac:(lia)).
    rewrite first_hit_project.
    destruct (first_hit source schema (drop c rows)) as [[[k t]|]| | | |] eqn:Eh;
      simpl; try reflexivity.
    destruct (project_tuple projections t (base_columns source schema));
      simpl; reflexivity.
Qed.

(** The loop of [execute_plan] from the cursor on. *)
Lemma pull_exec_at plan schema s :
  let rows := table_of s (base_table plan) in
  supported plan = true →
  ∀ m c fuel results,
    (c + m = length rows)%nat → (depth plan + m + 2 ≤ fuel)%nat →
    pull fuel s (exec_at plan schema c) results
    = (output ← rows_result plan schema (drop c rows); Ok (results ++ output)).
Proof.
  intros rows Hs. induction m as [m IHm] using lt_wf_ind.
  intros c fuel results Hc Hf.
  destruct fuel as [|fuel]; [lia|]. cbn [pull].
  rewrite (next_exec_at plan schema s Hs m c fuel Hc ltac:(lia)). fold rows.
  rewrite rows_result_first_hit.
  destruct (first_hit plan schema (drop c rows)) as [[[k t]|]| | | |] eqn:Eh;
    simpl; try reflexivity.
  - pose proof (first_hit_lt _ _ _ _ _ Eh) as Hk. rewrite length_drop in Hk.
    rewrite (IHm (m - k - 1)%nat ltac:(lia) (c + k + 1)%nat fuel (results ++ [t])
               ltac:(lia) ltac:(lia)).
    rewrite drop_drop. replace (c + S k)%nat with (c + k + 1)%nat by lia.
    destruct (rows_result plan schema (drop (c + k + 1) rows)); simpl; try reflexivity.
    rewrite <- app_assoc. reflexivity.
  - rewrite app_nil_r. reflexivity.
Qed.

(** X15.  The iterator pipeline computes the relational meaning of
    the plan.  For a stack of Filter and Project nodes over a SeqScan,
    [execute_plan] returns (given fuel for the rows of the table) what
    the stack makes of the rows of the base table one by one, in table
    order: a filter keeps the rows whose predicate is true, a
    projection maps a row to the values of its expressions, and the
    first row on which an evaluation fails decides the error.  Every
    node evaluates with the column names of the base table, a filter
    above a projection included.  The storage is unchanged except
    that a missing base table is created empty. *)
Theorem execute_plan_rows fuel plan s schema :
  supported plan = true →
  (depth plan + length (table_of s (base_table plan)) + 2 ≤ fuel)%nat →
  execute_plan fuel plan s schema
  = (output ← rows_result plan schema (table_of s (base_table plan));
     Ok (output, snd (get_table s (base_table plan)))).
Proof.
  intros Hs Hf. unfold execute_plan.
  rewrite (build_executor_supported plan s schema Hs).
  cbv beta iota zeta delta [mbind Outcome_bind obind].
  rewrite (pull_exec_at plan schema _ Hs (length (table_of s (base_table plan))) 0 fuel []);
    rewrite ?table_of_get_table; try lia.
  rewrite drop_0.
  destruct (rows_result plan schema (table_of s (base_table plan))); reflexivity.
Qed.

End Pipeline.

Lemma execute_plan_rows_witness :
  Engine.execute_plan 7
    (Planner.FilterPlan
       (Executor.EBinary ">" (Executor.EIdentifier "id") (Executor.ENumber 18))
       (Planner.ProjectPlan [Executor.EIdentifier "age"; Executor.EIdentifier "name"]
          (Planner.SeqScanPlan (Assignment := unit) "users")))
    Engine.new_storage Engine.users_schema
  = Ok ([ [Executor.VInt 20; Executor.VString "Alice"];
          [Executor.VInt 25; Executor.VString "Carol"] ], Engine.new_storage).
Proof.
  rewrite execute_plan_rows; [reflexivity | reflexivity | vm_compute; lia].
Defined.

(** ** The executor factory and the planner *)

Section Factory.
Import Executor Planner Engine PlanShape.
Context {Assignment : Type}.
Implicit Types (plan source : Plan Assignment) (schema : gmap string (list string)).

Lemma supported_bottom plan :
  supported plan = match bottom plan with SeqScanPlan _ => true | _ => false end.
Proof. induction plan; simpl; try reflexivity; assumption. Qed.

(** X16.  The factory looks at the bottom of the plan only.
    [build_executor] succeeds exactly when the node below the Filter
    and Project nodes is a SeqScan; it throws "Null plan" when that
    node is the null pointer and "Unsupported plan type in executor
    factory" for every other node kind: IndexScan, Sort, Insert,
    Update, Delete, Collect and Values plans cannot be executed. *)
Theorem build_executor_by_bottom_node plan s schema :
  build_executor plan s schema
  = match bottom plan with
    | SeqScanPlan table =>
        Ok (exec_at plan schema 0, snd (get_table s table))
    | NullPlan => Throw "Null plan"
    | _ => Throw "Unsupported plan type in executor factory"
    end.
Proof.
  induction plan as [| table | | predicate source IH | projections source IH
                     | | | | | |]; simpl; try reflexivity.
  - destruct (get_table s table); reflexivity.
  - rewrite IH. destruct (bottom source); reflexivity.
  - rewrite IH. destruct (bottom source); reflexivity.
Qed.

(** X17.  A row inserted with [Storage::insert] is the last row a
    scan of the table returns: after the insert, [execute_plan] of a
    SeqScan returns the former rows of the table followed by the new
    row, a table that did not exist before included. *)
Theorem insert_then_scan fuel s table tuple schema :
  (length (table_of s table) + 3 ≤ fuel)%nat →
  fst <$> execute_plan fuel (SeqScanPlan (Assignment := Assignment) table)
            (Storage_insert s table tuple) schema
  = Ok (table_of s table ++ [tuple]).
Proof.
  intros Hf.
  assert (Hrows : table_of (Storage_insert s table tuple) table
                  = table_of s table ++ [tuple]).
  { unfold Storage_insert, get_table, table_of.
    destruct (tables s !! table) as [t|]; simpl; rewrite lookup_insert_eq; reflexivity. }
  unfold execute_plan.
  rewrite (build_executor_supported (SeqScanPlan table) _ schema eq_refl).
  cbv beta iota zeta delta [mbind Outcome_bind obind].
  rewrite (pull_exec_at (SeqScanPlan table) schema _ eq_refl
             (length (table_of s table ++ [tuple])) 0 fuel []);
    simpl base_table; rewrite ?table_of_get_table, ?Hrows;
    [|reflexivity|rewrite length_app; simpl; lia].
  rewrite drop_0.
  assert (Hid : ∀ rows, rows_result (SeqScanPlan (Assignment := Assignment) table) schema rows
                        = Ok rows).
  { induction rows as [|t rows IH]; simpl; [reflexivity|]. rewrite IH. reflexivity. }
  rewrite Hid. reflexivity.
Qed.

End Factory.

Lemma insert_then_scan_witness :
  fst <$> Engine.execute_plan 6 (Planner.SeqScanPlan (Assignment := unit) "users")
            (Engine.Storage_insert Engine.new_storage "users"
               [Executor.VInt 4; Executor.VString "Dan"; Executor.VInt 31])
            Engine.users_schema
  = Ok (Engine.table_of Engine.new_storage "users"
        ++ [[Executor.VInt 4; Executor.VString "Dan"; Executor.VInt 31]]).
Proof. apply insert_then_scan. vm_compute. lia. Defined.

Section PlannerSafety.
Import Executor Planner Engine PlanShape.
Context {Assignment : Type}.
Implicit Types (plan source : Plan Assignment) (stmt : Statement Assignment).

(** X18.  Cursor safety of the planner.  In every plan [build_plan]
    returns, no Sort, Update or Delete node reads from a source that
    [needs_collection]: the planner has put a Collect node in
    between.  For Update and Delete the test [needs_collection] of
    the planner is always true (the source is a scan, possibly under a
    filter), so their source is always a Collect node. *)
Theorem build_plan_cursor_safe stmt plan :
  build_plan stmt = Ok plan →
  barrier_ok plan = true
  ∧ match plan with
    | UpdatePlan _ _ source | DeletePlan _ source =>
        ∃ inner, source = CollectPlan inner ∧ needs_collection inner = true
    | _ => True
    end.
Proof.
  destruct stmt as [sel|ins|upd|del|cr]; simpl; try discriminate; intros [= <-].
  - unfold build_select_plan.
    destruct (is_null (select_where sel)); simpl;
      repeat case_bool_decide; simpl; split; reflexivity || exact I.
  - split; [reflexivity | exact I].
  - unfold build_update_plan.
    destruct (is_null (update_where upd)); simpl;
      (split; [reflexivity | eexists; split; reflexivity]).
  - unfold build_delete_plan.
    destruct (is_null (delete_where del)); simpl;
      (split; [reflexivity | eexists; split; reflexivity]).
Qed.

(** X19.  Which statements can be executed.  The plan [build_plan]
    returns for a statement is accepted by [build_executor] exactly
    when the statement is a SELECT without ORDER BY; for a SELECT with
    ORDER BY and for INSERT, UPDATE and DELETE the factory throws
    "Unsupported plan type in executor factory", whatever the storage
    holds. *)
Theorem planned_statement_executable stmt plan s schema :
  build_plan stmt = Ok plan →
  match stmt with
  | Select sel =>
      if bool_decide (select_order_by sel = [])
      then build_executor plan s schema
           = Ok (exec_at plan schema 0, snd (get_table s (select_table sel)))
      else build_executor plan s schema
           = Throw "Unsupported plan type in executor factory"
  | _ => build_executor plan s schema = Throw "Unsupported plan type in executor factory"
  end.
Proof.
  destruct stmt as [sel|ins|upd|del|cr]; simpl; try discriminate; intros [= <-].
  - unfold build_select_plan.
    destruct (is_null (select_where sel)); simpl;
      repeat case_bool_decide; simpl; try congruence;
      try destruct (get_table s (select_table sel)); reflexivity.
  - reflexivity.
  - reflexivity.
  - reflexivity.
Qed.

End PlannerSafety.

Lemma build_plan_cursor_safe_witness :
  PlanShape.barrier_ok
    (Planner.build_delete_plan (Assignment := unit)
       (Planner.mkDeleteStmt "users"
          (Executor.EBinary "<" (Executor.EIdentifier "age") (Executor.ENumber 18))))
  = true.
Proof.
  apply (build_plan_cursor_safe (Assignment := unit)
           (Planner.Delete
              (Planner.mkDeleteStmt "users"
                 (Executor.EBinary "<" (Executor.EIdentifier "age") (Executor.ENumber 18))))).
  reflexivity.
Defined.

Lemma planned_statement_executable_witness :
  Engine.build_executor
    (Planner.build_select_plan (Assignment := unit)
       (Planner.mkSelectStmt [Executor.EIdentifier "name"] "users" Executor.ENull
          [Executor.EIdentifier "age"] []))
    Engine.new_storage Engine.users_schema
  = Throw "Unsupported plan type in executor factory".
Proof.
  apply (planned_statement_executable (Assignment := unit)
           (Planner.Select
              (Planner.mkSelectStmt [Executor.EIdentifier "name"] "users" Executor.ENull
                 [Executor.EIdentifier "age"] []))).
  reflexivity.
Defined.

(** ** The lexer and the expression parser *)

Section Lexer.
Import Executor Parser.

Lemma scan_while_app p input :
  input = fst (scan_while p input) ++ snd (scan_while p input).
Proof.
  induction input as [|c rest IH]; simpl; [reflexivity|].
  destruct (p c); [|reflexivity].
  destruct (scan_while p rest) as [word rest']. simpl in *. congruence.
Qed.

Lemma scan_while_suffix p input : snd (scan_while p input) `suffix_of` input.
Proof. exists (fst (scan_while p input)). apply scan_while_app. Qed.

Lemma scan_while_length p input :
  (length (snd (scan_while p input)) ≤ length input)%nat.
Proof. apply suffix_length, scan_while_suffix. Qed.

Lemma scan_while_head p c rest :
  p c = true → (length (snd (scan_while p (c :: rest))) ≤ length rest)%nat.
Proof.
  intros Hp. simpl. rewrite Hp.
  pose proof (scan_while_length p rest).
  destruct (scan_while p rest). simpl in *. lia.
Qed.

Lemma scan_string_suffix input body rest :
  scan_string input = Some (body, rest) →
  rest `suffix_of` input ∧ (length rest < length input)%nat.
Proof.
  revert body rest.
  induction input as [input IH] using (induction_ltof1 _ (@length _)); unfold ltof in IH.
  intros body rest. destruct input as [|c input]; cbn [scan_string]; [discriminate|].
  destruct (is_char c "'").
  - intros [= <- <-]. split; [apply suffix_cons_r; reflexivity | simpl; lia].
  - destruct input as [|d input']; [discriminate|].
    destruct (is_char c "\").
    + destruct (scan_string input') as [[body' rest']|] eqn:E; simpl; [|discriminate].
      intros [= <- <-].
      destruct (IH input' ltac:(simpl; lia) _ _ E) as [Hs Hl].
      split; [do 2 apply suffix_cons_r; exact Hs | simpl; lia].
    + destruct (scan_string (d :: input')) as [[body' rest']|] eqn:E; simpl; [|discriminate].
      intros [= <- <-].
      destruct (IH (d :: input') ltac:(simpl; lia) _ _ E) as [Hs Hl].
      split; [apply suffix_cons_r; exact Hs | simpl in *; lia].
Qed.

(** [Lexer::next] makes progress: what is left is a suffix of the
    input; a token other than [End] consumes at least one character,
    and [End] is returned only with nothing left. *)
Lemma next_consumes input tok rest :
  next input = Ok (tok, rest) →
  rest `suffix_of` input
  ∧ if bool_decide (type tok = T_End) then rest = []
    else (length rest < length input)%nat.
Proof.
  unfold next.
  pose proof (scan_while_suffix isspace input) as Hsp.
  pose proof (suffix_length _ _ Hsp) as Hlen.
  destruct (snd (scan_while isspace input)) as [|c rest0] eqn:E.
  { intros [= <- <-]. split; [apply suffix_nil | reflexivity]. }
  simpl in Hlen.
  assert (Hone : ∀ ty txt, Ok (mkToken ty txt, rest0) = Ok (tok, rest) → ty ≠ T_End →
                 rest `suffix_of` input
                 ∧ (if bool_decide (type tok = T_End) then rest = []
                    else (length rest < length input)%nat)).
  { intros ty txt [= <- <-] Hty. simpl.
    split; [etransitivity; [apply suffix_cons_r; reflexivity | exact Hsp]|].
    rewrite bool_decide_eq_false_2 by exact Hty. lia. }
  assert (Htwo : ∀ ty txt d rest1, rest0 = d :: rest1 →
                 Ok (mkToken ty txt, rest1) = Ok (tok, rest) → ty ≠ T_End →
                 rest `suffix_of` input
                 ∧ (if bool_decide (type tok = T_End) then rest = []
                    else (length rest < length input)%nat)).
  { intros ty txt d rest1 -> [= <- <-] Hty. simpl in *.
    split; [etransitivity; [do 2 apply suffix_cons_r; reflexivity | exact Hsp]|].
    rewrite bool_decide_eq_false_2 by exact Hty. lia. }
  destruct (isalpha c || is_char c "_") eqn:Ealpha.
  { assert (Hp : isalnum c || is_char c "_" = true).
    { unfold isalnum. apply orb_true_iff in Ealpha as [H|H]; rewrite H;
        rewrite ?orb_true_r; reflexivity. }
    pose proof (scan_while_suffix (λ c, isalnum c || is_char c "_") (c :: rest0)) as Hs.
    pose proof (scan_while_head (λ c, isalnum c || is_char c "_") c rest0 Hp) as Hh.
    destruct (scan_while _ (c :: rest0)) as [word rest'].
    intros [= <- <-]. cbn [fst snd type length] in *.
    split; [etransitivity; eassumption|].
    destruct (bool_decide (keyword (str word) = T_End)) eqn:Ek; [|lia].
    apply bool_decide_eq_true_1 in Ek. unfold keyword in Ek.
    repeat match type of Ek with
           | (if ?b then _ else _) = _ => destruct b; try discriminate
           end. }
  destruct (is_char c "'").
  { destruct (scan_string rest0) as [[body rest']|] eqn:Es; [|discriminate].
    intros [= <- <-]. simpl.
    destruct (scan_string_suffix _ _ _ Es) as [Hs Hl].
    split; [etransitivity; [apply suffix_cons_r; exact Hs | exact Hsp] | lia]. }
  destruct (isdigit c) eqn:Edigit.
  { pose proof (scan_while_suffix isdigit (c :: rest0)) as Hs.
    pose proof (scan_while_head isdigit c rest0 Edigit) as Hh.
    destruct (scan_while isdigit (c :: rest0)) as [digits rest1]. simpl in Hs, Hh.
    assert (Hplain : Ok (mkToken T_Number (str digits), rest1) = Ok (tok, rest) →
                     rest `suffix_of` input
                     ∧ (if bool_decide (type tok = T_End) then rest = []
                        else (length rest < length input)%nat)).
    { intros [= <- <-]. simpl. split; [etransitivity; eassumption | lia]. }
    destruct rest1 as [|d rest2]; [exact Hplain|].
    destruct (is_char d "."); [|exact Hplain].
    pose proof (scan_while_suffix isdigit rest2) as Hs2.
    pose proof (scan_while_length isdigit rest2) as Hl2.
    destruct (scan_while isdigit rest2) as [fraction rest3]. simpl in Hs2, Hl2.
    intros [= <- <-]. simpl in *.
    split; [|lia].
    etransitivity; [exact Hs2|]. etransitivity; [apply suffix_cons_r; reflexivity|].
    etransitivity; eassumption. }
  repeat match goal with
         | |- (if is_char c ?s then _ else _) = _ → _ =>
             destruct (is_char c s);
             [first [ intros H; apply (Hone _ _ H); discriminate
                    | destruct rest0 as [|d rest1];
                      [intros H; apply (Hone _ _ H); discriminate|];
                      destruct (is_char d "=");
                      intros H;
                      [apply (Htwo _ _ d rest1 eq_refl H); discriminate
                      |apply (Hone _ _ H); discriminate] ]|]
         end.
  discriminate.
Qed.


Lemma scan_string_app input body rest :
  scan_string input = Some (body, rest) →
  input = body ++ String.list_ascii_of_string "'" ++ rest.
Proof.
  revert body rest.
  induction input as [input IH] using (induction_ltof1 _ (@length _)); unfold ltof in IH.
  intros body rest. destruct input as [|c input]; cbn [scan_string]; [discriminate|].
  destruct (is_char c "'") eqn:Eq.
  - intros [= <- <-]. unfold is_char in Eq. apply Ascii.eqb_eq in Eq. subst c. reflexivity.
  - destruct input as [|d input']; [discriminate|].
    destruct (is_char c "\").
    + destruct (scan_string input') as [[body' rest']|] eqn:E; simpl; [|discriminate].
      intros [= <- <-]. rewrite (IH input' ltac:(simpl; lia) _ _ E). reflexivity.
    + destruct (scan_string (d :: input')) as [[body' rest']|] eqn:E; simpl; [|discriminate].
      intros [= <- <-]. rewrite (IH (d :: input') ltac:(simpl; lia) _ _ E). reflexivity.
Qed.

Lemma is_char_eq c d : is_char c (String.String d String.EmptyString) = true → c = d.
Proof. unfold is_char. apply Ascii.eqb_eq. Qed.

(** X20.  The lexer reads what is written.  The input after the
    leading white space is the lexeme of the token [Lexer::next]
    returns, followed by the input that is left: the text of the
    token, and for a string literal its text between quotes.  The
    text of a token is therefore never a rewriting of the input:
    keywords keep their spelling, a number keeps its fraction, a
    string literal its backslashes. *)
Theorem next_lexeme input tok rest :
  next input = Ok (tok, rest) →
  snd (scan_while isspace input) = lexeme tok ++ rest.
Proof.
  unfold next, lexeme.
  destruct (snd (scan_while isspace input)) as [|c rest0] eqn:E.
  { intros [= <- <-]. reflexivity. }
  destruct (isalpha c || is_char c "_").
  { pose proof (scan_while_app (λ c, isalnum c || is_char c "_") (c :: rest0)) as Happ.
    destruct (scan_while _ (c :: rest0)) as [word rest'].
    intros [= <- <-]. cbn [fst snd type text] in *.
    unfold str. rewrite String.list_ascii_of_string_of_list_ascii.
    rewrite bool_decide_eq_false_2; [exact Happ|].
    unfold keyword.
    repeat match goal with
           | |- (if ?b then _ else _) ≠ _ => destruct b; try discriminate
           end. }
  destruct (is_char c "'") eqn:Eq.
  { destruct (scan_string rest0) as [[body rest']|] eqn:Es; [|discriminate].
    intros [= <- <-]. cbn [type text].
    rewrite bool_decide_eq_true_2 by reflexivity.
    unfold str. rewrite String.list_ascii_of_string_of_list_ascii.
    apply is_char_eq in Eq. subst c.
    rewrite (scan_string_app _ _ _ Es). rewrite <- !app_assoc. reflexivity. }
  destruct (isdigit c).
  { pose proof (scan_while_app isdigit (c :: rest0)) as Happ.
    destruct (scan_while isdigit (c :: rest0)) as [digits rest1].
    cbn [fst snd] in Happ.
    assert (Hplain : Ok (mkToken T_Number (str digits), rest1) = Ok (tok, rest) →
                     c :: rest0
                     = (if bool_decide (type tok = T_String)
                        then String.list_ascii_of_string "'"
                             ++ String.list_ascii_of_string (text tok)
                             ++ String.list_ascii_of_string "'"
                        else String.list_ascii_of_string (text tok)) ++ rest).
    { intros [= <- <-]. cbn [type text].
      rewrite bool_decide_eq_false_2 by discriminate.
      unfold str. rewrite String.list_ascii_of_string_of_list_ascii. exact Happ. }
    destruct rest1 as [|d rest2]; [exact Hplain|].
    destruct (is_char d "."); [|exact Hplain].
    pose proof (scan_while_app isdigit rest2) as Happ2.
    destruct (scan_while isdigit rest2) as [fraction rest3]. cbn [fst snd] in Happ2.
    intros [= <- <-]. cbn [type text].
    rewrite bool_decide_eq_false_2 by discriminate.
    unfold str. rewrite String.list_ascii_of_string_of_list_ascii.
    rewrite Happ, Happ2, <- app_assoc. reflexivity. }
  repeat match goal with
         | |- (if is_char c ?s then _ else _) = _ → _ =>
             let Ec := fresh "Ec" in
             destruct (is_char c s) eqn:Ec;
             [apply is_char_eq in Ec; subst c;
              first [ intros [= <- <-]; reflexivity
                    | destruct rest0 as [|d rest1]; [intros [= <- <-]; reflexivity|];
                      let Ed := fresh "Ed" in
                      destruct (is_char d "=") eqn:Ed;
                      [apply is_char_eq in Ed; subst d|];
                      intros [= <- <-]; reflexivity ]|]
         end.
  discriminate.
Qed.

Lemma next_lexeme_witness :
  ∃ tok rest,
    next (String.list_ascii_of_string "  'it\'s' + 1.50") = Ok (tok, rest)
    ∧ tok = mkToken T_String "it\'s"
    ∧ String.list_ascii_of_string "'it\'s' + 1.50" = lexeme tok ++ rest.
Proof.
  destruct (next (String.list_ascii_of_string "  'it\'s' + 1.50")) as [[tok rest]| | | |] eqn:E;
    try (vm_compute in E; discriminate).
  exists tok, rest. split; [reflexivity|].
  pose proof (next_lexeme _ _ _ E) as Hl.
  split; [vm_compute in E; injection E as <- <-; reflexivity | exact Hl].
Defined.

End Lexer.

Section ExpressionParser.
Import Executor Parser.

Lemma next_errors input :
  match next input with
  | Ok (tok, _) => token_ok tok = true
  | Throw m => m ∈ parser_errors
  | _ => False
  end.
Proof.
  unfold next, parser_errors.
  destruct (snd (scan_while isspace input)) as [|c rest0]; [reflexivity|].
  destruct (isalpha c || is_char c "_").
  { destruct (scan_while _ (c :: rest0)) as [word rest'].
    unfold token_ok, precedence, keyword. simpl.
    repeat match goal with
           | |- context [String.eqb (str word) ?s] =>
               destruct (String.eqb_spec (str word) s) as [->|?]; try reflexivity
           end. }
  destruct (is_char c "'").
  { destruct (scan_string rest0) as [[body rest']|]; [reflexivity | constructor]. }
  destruct (isdigit c).
  { destruct (scan_while isdigit (c :: rest0)) as [digits rest1].
    destruct rest1 as [|d rest2]; [reflexivity|].
    destruct (is_char d "."); [|reflexivity].
    destruct (scan_while isdigit rest2). reflexivity. }
  repeat match goal with
         | |- match (if is_char c ?s then _ else _) with _ => _ end =>
             destruct (is_char c s);
             [first [ reflexivity
                    | destruct rest0 as [|d rest1]; [reflexivity|];
                      destruct (is_char d "="); reflexivity ]|]
         end.
  apply list_elem_of_further. constructor.
Qed.

Lemma eat_outcome p t :
  match eat p t with
  | Ok p' =>
      token_ok (current p') = true
      ∧ (t ≠ T_End → (remaining p' < remaining p)%nat)
  | Throw m => m ∈ parser_errors
  | _ => False
  end.
Proof.
  unfold eat. case_bool_decide as Ht; simpl;
    [|unfold parser_errors; do 2 apply list_elem_of_further; constructor].
  pose proof (next_errors (lexer p)) as He.
  pose proof (next_consumes (lexer p)) as Hc.
  destruct (next (lexer p)) as [[tok rest]| |m| |]; simpl; try contradiction; [|exact He].
  split; [exact He|]. intros Hne.
  specialize (Hc tok rest eq_refl) as [_ Hc].
  unfold remaining. simpl.
  rewrite (bool_decide_eq_false_2 (type (current p) = T_End)) by congruence.
  destruct (bool_decide (type tok = T_End)); [subst rest; simpl; lia | lia].
Qed.

Lemma stoi_outcome txt :
  match stoi txt with
  | Ok _ => True
  | Throw m => m ∈ parser_errors
  | _ => False
  end.
Proof.
  unfold stoi. destruct (_ >? _); [|exact I].
  unfold parser_errors. do 4 apply list_elem_of_further. constructor.
Qed.

Lemma precedence_nonneg t : 0 ≤ precedence t.
Proof. unfold precedence. destruct (type t); lia. Qed.

Lemma parse_outcomes fuel :
  (∀ p min_prec, token_ok (current p) = true → 0 ≤ min_prec →
     parse_outcome true (2 * remaining p + 2) fuel p (parse_expr fuel p min_prec))
  ∧ (∀ p min_prec left_, token_ok (current p) = true → 0 ≤ min_prec →
       parsed_shape left_ = true →
       parse_outcome false (2 * remaining p + 1) fuel p (parse_loop fuel p min_prec left_))
  ∧ (∀ p, token_ok (current p) = true →
       parse_outcome true (2 * remaining p + 1) fuel p (parse_primary fuel p)).
Proof.
  induction fuel as [|fuel (IHe & IHl & IHp)].
  { repeat split; intros; simpl; lia. }
  split; [|split].
  - (* parse_expr *)
    intros p min_prec Hp Hmin. cbn [parse_expr].
    specialize (IHp p Hp).
    destruct (parse_primary fuel p) as [[left_ p1]| |m| |]; simpl in *;
      try contradiction; try assumption; [|lia].
    destruct IHp as (Hs & Hp1 & Hr1).
    specialize (IHl p1 min_prec left_ Hp1 Hmin Hs).
    destruct (parse_loop fuel p1 min_prec left_) as [[e p2]| |m| |]; simpl in *;
      try contradiction; try assumption; [|lia].
    destruct IHl as (Hs2 & Hp2 & Hr2). repeat split; try assumption. lia.
  - (* parse_loop *)
    intros p min_prec left_ Hp Hmin Hleft. cbn [parse_loop].
    destruct (precedence (current p) >? min_prec) eqn:Eprec;
      [|simpl; repeat split; try assumption; lia].
    assert (Hop : text (current p) ∈ parser_ops ∧ type (current p) ≠ T_End).
    { unfold token_ok in Hp. apply orb_true_iff in Hp as [Hp|Hp]; [lia|].
      split; [apply bool_decide_eq_true in Hp; exact Hp|].
      intros He. unfold precedence in Eprec. rewrite He in Eprec. lia. }
    destruct Hop as [Hop Hne].
    pose proof (eat_outcome p (type (current p))) as Heat.
    destruct (eat p (type (current p))) as [p1| |m| |]; simpl in *;
      try contradiction; try assumption.
    destruct Heat as [Hp1 Hr1]. specialize (Hr1 Hne).
    specialize (IHe p1 (precedence (current p)) Hp1 (precedence_nonneg _)).
    destruct (parse_expr fuel p1 (precedence (current p))) as [[right_ p2]| |m| |];
      simpl in *; try contradiction; try assumption; [|lia].
    destruct IHe as (Hs2 & Hp2 & Hr2).
    assert (Hbin : parsed_shape (EBinary (text (current p)) left_ right_) = true).
    { simpl. rewrite Hleft, Hs2, bool_decide_eq_true_2 by exact Hop. reflexivity. }
    specialize (IHl p2 min_prec _ Hp2 Hmin Hbin).
    destruct (parse_loop fuel p2 min_prec _) as [[e p3]| |m| |];
      simpl in *; try contradiction; try assumption; [|lia].
    destruct IHl as (Hs3 & Hp3 & Hr3). repeat split; try assumption. lia.
  - (* parse_primary *)
    intros p Hp. cbn [parse_primary].
    assert (Hinv : "Invalid expression" ∈ parser_errors)
      by (unfold parser_errors; do 3 apply list_elem_of_further; constructor).
    destruct (type (current p)) eqn:Ety; simpl; try exact Hinv.
    + (* Identifier *)
      pose proof (eat_outcome p T_Identifier) as Heat.
      destruct (eat p T_Identifier) as [p1| |m| |]; simpl in *;
        try contradiction; try assumption.
      destruct Heat as [Hp1 Hr1]. repeat split; try assumption. apply Hr1. discriminate.
    + (* Number *)
      pose proof (stoi_outcome (text (current p))) as Hstoi.
      destruct (stoi (text (current p))) as [val| |m| |]; simpl in *;
        try contradiction; try assumption.
      pose proof (eat_outcome p T_Number) as Heat.
      destruct (eat p T_Number) as [p1| |m| |]; simpl in *;
        try contradiction; try assumption.
      destruct Heat as [Hp1 Hr1]. repeat split; try assumption. apply Hr1. discriminate.
    + (* String *)
      pose proof (eat_outcome p T_String) as Heat.
      destruct (eat p T_String) as [p1| |m| |]; simpl in *;
        try contradiction; try assumption.
      destruct Heat as [Hp1 Hr1]. repeat split; try assumption. apply Hr1. discriminate.
    + (* LParen *)
      pose proof (eat_outcome p T_LParen) as Heat.
      destruct (eat p T_LParen) as [p1| |m| |]; simpl in *;
        try contradiction; try assumption.
      destruct Heat as [Hp1 Hr1]. specialize (Hr1 ltac:(discriminate)).
      specialize (IHe p1 0 Hp1 ltac:(lia)).
      destruct (parse_expr fuel p1 0) as [[e p2]| |m| |];
        simpl in *; try contradiction; try assumption; [|lia].
      destruct IHe as (Hs2 & Hp2 & Hr2).
      pose proof (eat_outcome p2 T_RParen) as Heat2.
      destruct (eat p2 T_RParen) as [p3| |m| |]; simpl in *;
        try contradiction; try assumption.
      destruct Heat2 as [Hp3 Hr3]. specialize (Hr3 ltac:(discriminate)).
      repeat split; try assumption. lia.
Qed.

(** Precedence and associativity: "*" binds tighter than "+", equal
    precedences group to the left, AND binds tighter than OR; a
    fraction is cut off by [std::stoi]; there is no unary minus and no
    operator for "not equal". *)
Example parse_expression_examples :
  parse_expression 20 "a + b * c"
  = Ok (EBinary "+" (EIdentifier "a") (EBinary "*" (EIdentifier "b") (EIdentifier "c")))
  ∧ parse_expression 20 "a - b - c"
    = Ok (EBinary "-" (EBinary "-" (EIdentifier "a") (EIdentifier "b")) (EIdentifier "c"))
  ∧ parse_expression 20 "p OR q AND r"
    = Ok (EBinary "OR" (EIdentifier "p") (EBinary "AND" (EIdentifier "q") (EIdentifier "r")))
  ∧ parse_expression 20 "1.5 + 2" = Ok (EBinary "+" (ENumber 1) (ENumber 2))
  ∧ parse_expression 20 "-5" = Throw "Invalid expression"
  ∧ parse_expression 20 "a != b" = Throw "Unknown character"
  ∧ parse_expression 20 "a <> b" = Throw "Invalid expression"
  ∧ parse_expression 20 "select" = Ok (EIdentifier "select").
Proof. evaluate. Qed.

Lemma length_list_ascii_of_string s :
  length (String.list_ascii_of_string s) = String.length s.
Proof. induction s as [|c s IH]; simpl; [reflexivity | rewrite IH; reflexivity]. Qed.

(** X21.  The expression parser terminates.  With fuel for the length
    of the input, [Parser parser(s)] followed by [parse_expr] ends in
    an expression built from identifiers, numbers, strings and the
    eleven operators of the lexer, or in one of five messages (of the
    lexer: "Unterminated string literal", "Unknown character"; of the
    parser: "Unexpected token", "Invalid expression"; of [std::stoi]);
    the recursion never runs away, since every call consumes a
    token. *)
Theorem parse_expression_terminates s fuel :
  (2 * String.length s + 2 ≤ fuel)%nat →
  match parse_expression fuel s with
  | Ok e => parsed_shape e = true
  | Throw m => m ∈ parser_errors
  | _ => False
  end.
Proof.
  intros Hfuel. unfold parse_expression, new_parser.
  pose proof (next_errors (String.list_ascii_of_string s)) as He.
  pose proof (next_consumes (String.list_ascii_of_string s)) as Hc.
  destruct (next (String.list_ascii_of_string s)) as [[tok rest]| |m| |]; simpl;
    try contradiction; try assumption.
  specialize (Hc tok rest eq_refl) as [_ Hc].
  rewrite length_list_ascii_of_string in Hc.
  destruct (parse_outcomes fuel) as (Hexpr & _ & _).
  specialize (Hexpr (mkParser rest tok) 0 He ltac:(lia)).
  assert (Hrem : (remaining (mkParser rest tok) ≤ String.length s)%nat).
  { unfold remaining. simpl.
    destruct (bool_decide (type tok = T_End)); [subst rest; simpl; lia | lia]. }
  destruct (parse_expr fuel (mkParser rest tok) 0) as [[e p']| |m| |]; simpl in *;
    try contradiction; try assumption; [apply Hexpr | lia].
Qed.

Lemma parse_expression_terminates_witness :
  match parse_expression 20 "a - b*c" with
  | Ok e => parsed_shape e = true
  | Throw m => m ∈ parser_errors
  | _ => False
  end.
Proof. apply parse_expression_terminates. simpl. lia. Defined.

Lemma parsed_shape_errors e tuple column_names :
  parsed_shape e = true →
  match evaluate_expr e tuple column_names with
  | Ok _ => True
  | Throw m =>
      m = "Expected integer value" ∨ m = "Division by zero"
      ∨ ∃ name, m = "Column not found: " +:+ name
                ∨ m = "Column index out of bounds: " +:+ name
  | Trap m => m = "integer overflow" ∧ has_division e = true
  | _ => False
  end.
Proof.
  induction e as [| name | v | v | | op l IHl r IHr]; simpl; try discriminate;
    try (intros _; exact I).
  - intros _. unfold find_column_index.
    pose proof (find_column_index_from_errors 0 name column_names) as Hc.
    destruct (find_column_index_from 0 name column_names) as [idx|?|m|?|];
      simpl; try contradiction.
    + destruct (_ || _); [eauto 6|].
      destruct (tuple !! _); [exact I | eauto 6].
    + subst m. eauto 6.
  - intros H. apply andb_true_iff in H as [H Hr]. apply andb_true_iff in H as [Hop Hl].
    apply bool_decide_eq_true in Hop.
    specialize (IHl Hl). specialize (IHr Hr).
    destruct (evaluate_expr l tuple column_names) as [lv|?|m|m|]; simpl;
      try contradiction; try assumption;
      [|destruct IHl as [-> ->]; split; [reflexivity|]; rewrite orb_true_r; reflexivity].
    destruct (evaluate_expr r tuple column_names) as [rv|?|m|m|]; simpl;
      try contradiction; try assumption;
      [|destruct IHr as [-> ->]; split; [reflexivity | apply orb_true_r]].
    pose proof (eval_binary_errors op lv rv) as Hb.
    destruct (eval_binary op lv rv) as [?|?|m|m|]; try exact Hb;
      [|destruct Hb as [-> ->]; split; reflexivity].
    unfold parser_ops in Hop.
    repeat (apply elem_of_cons in Hop as [->|Hop]);
      [..|apply elem_of_nil in Hop; contradiction];
      vm_compute in Hb;
      repeat (apply elem_of_cons in Hb as [->|Hb]; [auto|]);
      apply elem_of_nil in Hb; contradiction.
Qed.

(** X22.  From the parser to the evaluator.  An expression the parser
    returns never makes [evaluate_expr] throw "Unknown binary
    operator", "Null expression" or "Unsupported expression kind":
    its evaluation returns a value, throws "Expected integer value",
    "Division by zero", "Column not found" or "Column index out of
    bounds", or, when the text holds a "/", is stopped by the overflow
    of the division [INT_MIN / -1]. *)
Theorem parsed_expression_errors fuel s e tuple column_names :
  parse_expression fuel s = Ok e →
  match evaluate_expr e tuple column_names with
  | Ok _ => True
  | Throw m =>
      m = "Expected integer value" ∨ m = "Division by zero"
      ∨ ∃ name, m = "Column not found: " +:+ name
                ∨ m = "Column index out of bounds: " +:+ name
  | Trap m => m = "integer overflow" ∧ has_division e = true
  | _ => False
  end.
Proof.
  intros Hparse. apply parsed_shape_errors.
  unfold parse_expression, new_parser in Hparse.
  pose proof (next_errors (String.list_ascii_of_string s)) as He.
  destruct (next (String.list_ascii_of_string s)) as [[tok rest]| |m| |]; simpl in *;
    try discriminate.
  destruct (parse_outcomes fuel) as (Hexpr & _ & _).
  specialize (Hexpr (mkParser rest tok) 0 He ltac:(lia)).
  destruct (parse_expr fuel (mkParser rest tok) 0) as [[e' p']| |m| |]; simpl in *;
    try discriminate.
  injection Hparse as <-. apply Hexpr.
Qed.

Lemma parsed_expression_errors_witness :
  evaluate_expr
    (EBinary "AND" (EBinary ">=" (EIdentifier "age") (ENumber 18))
       (EBinary "=" (EIdentifier "name") (EString "Bob")))
    [VInt 2; VString "Bob"; VInt 17] ["id"; "name"; "age"]
  = Ok (VInt 0)
  ∧ match evaluate_expr
            (EBinary "AND" (EBinary ">=" (EIdentifier "age") (ENumber 18))
               (EBinary "=" (EIdentifier "name") (EString "Bob")))
            [VInt 2] ["id"; "name"; "age"] with
    | Ok _ => True
    | Throw m =>
        m = "Expected integer value" ∨ m = "Division by zero"
        ∨ ∃ name, m = "Column not found: " +:+ name
                  ∨ m = "Column index out of bounds: " +:+ name
    | Trap m =>
        m = "integer overflow"
        ∧ has_division
            (EBinary "AND" (EBinary ">=" (EIdentifier "age") (ENumber 18))
               (EBinary "=" (EIdentifier "name") (EString "Bob"))) = true
    | _ => False
    end.
Proof.
  split; [reflexivity|].
  apply (parsed_expression_errors 20 "age >= 18 AND name = 'Bob'").
  vm_compute. reflexivity.
Defined.

(** The overflow is within reach of the parser: the text has no
    negative literal, the operands are computed. *)
Example parsed_division_overflow :
  (e ← parse_expression 40 "(0 - 2147483647 - 1) / (0 - 1)"; evaluate_expr e [] [])
  = Trap "integer overflow".
Proof. vm_compute. reflexivity. Qed.

End ExpressionParser.

(** ** Internal pages: an entry inserted where there is room *)

(** [slot_key] and [slot_child] of an INTERNAL page depend on the slot
    word and the entry bytes it designates only. *)
Lemma internal_slot_view page page' i j :
  page_level (header page) = INTERNAL → page_level (header page') = INTERNAL →
  cells page' !! slot_at page' i = cells page !! slot_at page j →
  slot_key page' i = slot_key page j ∧ slot_child page' i = slot_child page j.
Proof.
  intros Hl Hl' Hc. unfold slot_key, slot_child, internal_entry_at, cell_at.
  rewrite Hl, Hl', Hc. split; reflexivity.
Qed.

Lemma internal_entries_lookup page (j : nat) :
  Z.of_nat j < cell_count (header page) →
  internal_entries page !! j
  = Some (slot_key page (Z.of_nat j), slot_child page (Z.of_nat j)).
Proof.
  intros Hj. unfold internal_entries. rewrite list_lookup_fmap, lookup_seqZ_lt by lia.
  simpl. do 3 f_equal.
Qed.

Lemma internal_entries_length page :
  length (internal_entries page) = Z.to_nat (cell_count (header page)).
Proof. unfold internal_entries. rewrite length_fmap, length_seqZ. reflexivity. Qed.

(** [insert_internal_no_split] of a new key into a page with room,
    slot by slot. *)
Lemma insert_internal_no_split_ok page key child :
  let size := SIZEOF_InternalEntry + key_size key in
  let idx := index (search_record page key) in
  let cc := cell_count (header page) in
  internal_ok page → size < 65536 →
  can_insert page (u16 size) = true →
  found (search_record page key) = false →
  ∃ page',
    insert_internal_no_split page key child = Ok (true, page')
    ∧ internal_ok page'
    ∧ header page'
      = with_cell_count
          (with_free_end (with_free_start (header page) (free_start (header page) + size))
             (free_end (header page) - 2)) (cc + 1)
    ∧ 0 ≤ idx ≤ cc
    ∧ (∀ i, 0 ≤ i < idx →
            slot_key page' i = slot_key page i ∧ slot_child page' i = slot_child page i)
    ∧ (slot_key page' idx = key ∧ slot_child page' idx = child)
    ∧ (∀ i, idx < i ≤ cc →
            slot_key page' i = slot_key page (i - 1)
            ∧ slot_child page' i = slot_child page (i - 1))
    ∧ (∀ i, idx ≤ i < cc → compare_keys key (slot_key page i) < 0).
Proof.
  intros size idx cc (Hlvl & Hcc & Hfs & Hfe & Hdir & Hsorted & Hoff) Hsize Hroom Hnew.
  pose proof (key_size_nonneg key) as Hk0.
  destruct (search_record_spec page key Hsorted Hcc) as (Hi0 & _ & Hnf).
  destruct (Hnf Hnew) as (Hile & Hlo & Hhi). fold idx in Hi0, Hile, Hlo, Hhi.
  fold cc in Hcc, Hdir, Hoff, Hile, Hhi.
  unfold can_insert in Hroom.
  unfold SIZEOF_InternalEntry, SIZEOF_PageHeader, SIZEOF_slot, PAGE_SIZE in *.
  rewrite (u16_small size) in Hroom by (unfold size; lia).
  apply Z.leb_le in Hroom.
  assert (Hsz : 6 ≤ size) by (unfold size; lia).
  set (fs := free_start (header page)) in *.
  set (fe := free_end (header page)) in *.
  set (page1 := mkPage (with_free_start (header page) (fs + size))
                       (<[fs := InternalEntry key child]> (cells page)) (slotmem page)).
  destruct (insert_slot_ok page1 idx fs) as (page' & Hins & Hh & Hc & Hlow & Hat & Hup);
    try (simpl; fold cc fe; unfold PAGE_SIZE; lia).
  simpl in Hh. fold cc fe in Hh.
  assert (Hslot1 : ∀ i, slot_at page1 i = slot_at page i) by reflexivity.
  assert (Hlvl' : page_level (header page') = INTERNAL) by (rewrite Hh; exact Hlvl).
  assert (Hold : ∀ i j, 0 ≤ j < cc → slot_at page' i = slot_at page j →
                        slot_key page' i = slot_key page j
                        ∧ slot_child page' i = slot_child page j).
  { intros i j Hj Hij. apply internal_slot_view; try assumption.
    rewrite Hc, Hij. simpl. apply lookup_insert_ne.
    specialize (Hoff j Hj). lia. }
  assert (Hnewslot : slot_key page' idx = key ∧ slot_child page' idx = child).
  { unfold slot_key, slot_child, internal_entry_at, cell_at.
    rewrite Hlvl', Hc, Hat. simpl. rewrite lookup_insert_eq. split; reflexivity. }
  assert (Hbelow : ∀ i, 0 ≤ i < idx →
            slot_key page' i = slot_key page i ∧ slot_child page' i = slot_child page i).
  { intros i Hi. apply Hold; [lia|]. rewrite Hlow by lia. apply Hslot1. }
  assert (Habove : ∀ i, idx < i ≤ cc →
            slot_key page' i = slot_key page (i - 1)
            ∧ slot_child page' i = slot_child page (i - 1)).
  { intros i Hi. apply Hold; [lia|]. rewrite Hup by lia. apply Hslot1. }
  exists page'. split.
  { unfold insert_internal_no_split, write_internal_entry.
    rewrite Hlvl, bool_decide_eq_true_2 by reflexivity.
    cbv beta iota zeta delta [mbind Outcome_bind obind assert_that].
    unfold can_insert, SIZEOF_InternalEntry, SIZEOF_slot. fold size fs fe.
    rewrite (u16_small size) by lia.
    replace (size + 2 <=? fe - fs) with true by lia. cbn [negb].
    fold idx. rewrite Hnew.
    rewrite (u16_small fs), (u16_small (fs + size)) by lia.
    fold page1. rewrite Hins. reflexivity. }
  split; [|split; [exact Hh|]; split; [lia|]; split; [exact Hbelow|];
           split; [exact Hnewslot|]; split; [exact Habove | exact Hhi]].
  unfold internal_ok. rewrite Hh. simpl. fold cc fe fs.
  unfold SIZEOF_PageHeader, PAGE_SIZE.
  split; [exact Hlvl|]. split; [lia|]. split; [lia|]. split; [lia|]. split; [lia|].
  split.
  - intros i j Hi Hij Hj. rewrite Hh in Hj. simpl in Hj.
    destruct (Z.lt_trichotomy i idx) as [Hi1|[Hi1|Hi1]],
             (Z.lt_trichotomy j idx) as [Hj1|[Hj1|Hj1]]; try lia.
    + rewrite (proj1 (Hbelow i ltac:(lia))), (proj1 (Hbelow j ltac:(lia))).
      apply Hsorted; fold cc; lia.
    + rewrite (proj1 (Hbelow i ltac:(lia))). subst j. rewrite (proj1 Hnewslot).
      rewrite compare_keys_antisym. specialize (Hlo i ltac:(lia)). lia.
    + rewrite (proj1 (Hbelow i ltac:(lia))), (proj1 (Habove j ltac:(lia))).
      apply Hsorted; fold cc; lia.
    + subst i. rewrite (proj1 Hnewslot), (proj1 (Habove j ltac:(lia))).
      apply Hhi. lia.
    + rewrite (proj1 (Habove i ltac:(lia))), (proj1 (Habove j ltac:(lia))).
      apply Hsorted; fold cc; lia.
  - intros i Hi.
    destruct (Z.lt_trichotomy i idx) as [Hi1|[Hi1|Hi1]].
    + rewrite Hlow, Hslot1 by lia. specialize (Hoff i ltac:(lia)). lia.
    + subst i. rewrite Hat. lia.
    + rewrite Hup, Hslot1 by lia. specialize (Hoff (i - 1) ltac:(lia)). lia.
Qed.

(** The entries of a page into which one entry was put at [idx]. *)
Lemma internal_entries_inserted page page' idx key child :
  let cc := cell_count (header page) in
  cell_count (header page') = cc + 1 → 0 ≤ idx ≤ cc →
  (∀ i, 0 ≤ i < idx →
        slot_key page' i = slot_key page i ∧ slot_child page' i = slot_child page i) →
  slot_key page' idx = key ∧ slot_child page' idx = child →
  (∀ i, idx < i ≤ cc →
        slot_key page' i = slot_key page (i - 1)
        ∧ slot_child page' i = slot_child page (i - 1)) →
  internal_entries page'
  = take (Z.to_nat idx) (internal_entries page)
    ++ (key, child) :: drop (Z.to_nat idx) (internal_entries page).
Proof.
  intros cc Hcc' Hidx Hbelow [Hk Hc] Habove.
  assert (Hlen : length (internal_entries page) = Z.to_nat cc)
    by apply internal_entries_length.
  apply (list_eq_same_length _ _ (Z.to_nat (cc + 1))).
  - rewrite length_app, length_take. simpl. rewrite length_drop, Hlen. lia.
  - rewrite internal_entries_length, Hcc'. reflexivity.
  - intros j x y Hj Hx Hy.
    rewrite internal_entries_lookup in Hx by lia. injection Hx as <-.
    destruct (decide (Z.of_nat j < idx)) as [Hlt|Hge].
    + rewrite lookup_app_l in Hy by (rewrite length_take; lia).
      rewrite lookup_take_lt in Hy by lia.
      rewrite internal_entries_lookup in Hy by (fold cc; lia). injection Hy as <-.
      destruct (Hbelow (Z.of_nat j) ltac:(lia)) as [-> ->]. reflexivity.
    + rewrite lookup_app_r in Hy by (rewrite length_take; lia).
      rewrite length_take, Hlen in Hy.
      replace (Z.to_nat idx `min` Z.to_nat cc)%nat with (Z.to_nat idx) in Hy by lia.
      destruct (decide (Z.of_nat j = idx)) as [Heq|Hne].
      * replace (j - Z.to_nat idx)%nat with 0%nat in Hy by lia. simpl in Hy.
        injection Hy as <-. rewrite Heq, Hk, Hc. reflexivity.
      * replace (j - Z.to_nat idx)%nat with (S (j - Z.to_nat idx - 1))%nat in Hy by lia.
        simpl in Hy. rewrite lookup_drop in Hy.
        rewrite internal_entries_lookup in Hy by (fold cc; lia). injection Hy as <-.
        destruct (Habove (Z.of_nat j) ltac:(lia)) as [-> ->].
        do 2 f_equal; lia.
Qed.

(** [internal_find_child] for the key of the entry at [idx], when the
    keys above it are larger. *)
Lemma internal_find_child_new_entry page' idx cc key child :
  internal_ok page' → cell_count (header page') = cc + 1 → 0 ≤ idx ≤ cc →
  slot_key page' idx = key → slot_child page' idx = child →
  (∀ i, idx < i ≤ cc → compare_keys key (slot_key page' i) < 0) →
  valid_child_id child = true →
  internal_find_child page' key = Ok child.
Proof.
  intros (Hlvl' & Hcc0 & _ & _ & _ & Hsorted' & _) Hcc' Hidx Hk Hc Hhi Hvalid.
  destruct (find_child_pos_spec page' key Hsorted' Hcc0) as (Hpos & Hle & Hgt).
  set (pos := find_child_pos page' key) in *. rewrite Hcc' in Hpos, Hgt.
  assert (Hp : pos = idx + 1).
  { destruct (Z.lt_trichotomy pos (idx + 1)) as [H|[H|H]]; [|exact H|].
    - specialize (Hgt idx ltac:(lia)). rewrite Hk, compare_keys_refl in Hgt. lia.
    - specialize (Hle (idx + 1) ltac:(lia)). specialize (Hhi (idx + 1) ltac:(lia)). lia. }
  unfold internal_find_child. rewrite Hlvl', bool_decide_eq_true_2 by reflexivity.
  cbv beta iota zeta delta [mbind Outcome_bind obind assert_that].
  fold pos. rewrite Hp, Hcc'.
  replace (idx + 1 =? 0) with false by lia.
  replace (idx + 1 - 1) with idx by lia.
  destruct (Z.eqb_spec (idx + 1) (cc + 1)) as [He|He].
  - replace (cc + 1 =? 0) with false by lia.
    replace (cc + 1 - 1) with idx by lia. rewrite Hc. reflexivity.
  - replace ((idx + 1 >? 0) && (idx + 1 <=? cc + 1) && (idx <? cc + 1)) with true by lia.
    rewrite Hc. unfold valid_child_id in Hvalid.
    replace ((child =? 0) || (child >=? 1000000)) with false by lia.
    reflexivity.
Qed.

(** X23.  [insert_internal_no_split] of a key the page does not hold,
    into an INTERNAL page with ascending keys and room for the entry:
    it returns true, the entry (key, child) stands at the position of
    the binary search among the former entries, which keep their
    order and children, the keys are still ascending and the leftmost
    child is untouched; and [internal_find_child] routes the key
    itself to the new child. *)
Theorem insert_internal_no_split_inserts page key child :
  let idx := Z.to_nat (index (search_record page key)) in
  internal_ok page →
  SIZEOF_InternalEntry + key_size key < 65536 →
  can_insert page (u16 (SIZEOF_InternalEntry + key_size key)) = true →
  found (search_record page key) = false →
  ∃ page',
    insert_internal_no_split page key child = Ok (true, page')
    ∧ internal_ok page'
    ∧ reserved (header page') = reserved (header page)
    ∧ internal_entries page'
      = take idx (internal_entries page) ++ (key, child) :: drop idx (internal_entries page)
    ∧ (valid_child_id child = true → internal_find_child page' key = Ok child).
Proof.
  cbv zeta. intros Hok Hsize Hroom Hnew.
  destruct (insert_internal_no_split_ok page key child Hok Hsize Hroom Hnew)
    as (page' & Hrun & Hok' & Hh & Hidx & Hbelow & Hat & Habove & Hhi).
  assert (Hcc' : cell_count (header page') = cell_count (header page) + 1)
    by (rewrite Hh; reflexivity).
  exists page'. split; [exact Hrun|]. split; [exact Hok'|].
  split; [rewrite Hh; reflexivity|]. split.
  - apply internal_entries_inserted; assumption.
  - intros Hvalid.
    apply (internal_find_child_new_entry page' (index (search_record page key))
             (cell_count (header page))); try assumption; try apply Hat.
    intros i Hi. rewrite (proj1 (Habove i Hi)). apply Hhi. lia.
Qed.

Lemma insert_internal_no_split_inserts_witness :
  ∃ page',
    insert_internal_no_split two_entry_page (bytes "k") 5 = Ok (true, page')
    ∧ internal_entries page' = [(bytes "g", 2); (bytes "k", 5); (bytes "p", 4)]
    ∧ internal_find_child page' (bytes "k") = Ok 5.
Proof.
  destruct (insert_internal_no_split_inserts two_entry_page (bytes "k") 5)
    as (page' & Hrun & _ & _ & Hentries & Hroute).
  - unfold internal_ok. change (cell_count (header two_entry_page)) with 2.
    split; [reflexivity|]. split; [lia|]. split; [vm_compute; discriminate|].
    split; [vm_compute; discriminate|]. split; [vm_compute; discriminate|]. split.
    + intros i j Hi Hij Hj. change (cell_count (header two_entry_page)) with 2 in Hj.
      assert (i = 0) as -> by lia. assert (j = 1) as -> by lia.
      vm_compute. reflexivity.
    + intros i Hi. assert (i = 0 ∨ i = 1) as [-> | ->] by lia; vm_compute; reflexivity.
  - vm_compute. reflexivity.
  - vm_compute. reflexivity.
  - vm_compute. reflexivity.
  - exists page'. split; [exact Hrun|]. split; [exact Hentries|].
    apply Hroute. reflexivity.
Defined.

(** The binary search reads a page through its slot keys and its
    cell count only. *)
Lemma search_record_loop_ext fuel page page' key :
  (∀ i, slot_key page' i = slot_key page i) →
  ∀ l r, search_record_loop fuel page' key l r = search_record_loop fuel page key l r.
Proof.
  intros Hk. induction fuel as [|fuel IH]; intros l r; simpl; [reflexivity|].
  rewrite Hk, !IH. reflexivity.
Qed.

Lemma search_record_with_reserved page v key :
  search_record (set_header page (with_reserved (header page) v)) key
  = search_record page key.
Proof. unfold search_record. apply search_record_loop_ext. reflexivity. Qed.

(** [insert_into_parent] on the path without split, with the page it
    writes. *)
Lemma insert_into_parent_room_ok fuel th left key right :
  let parent_pid := parent_page_id (header (read_page (dm th) left)) in
  let parent := read_page (dm th) parent_pid in
  let idx := index (search_record parent key) in
  parent_pid ≠ 0 → parent_pid ≠ INVALID_PAGE_ID →
  internal_ok parent →
  SIZEOF_InternalEntry + key_size key < 65536 →
  can_insert parent (u16 (SIZEOF_InternalEntry + key_size key)) = true →
  found (search_record parent key) = false →
  ∃ parent',
    insert_into_parent (S fuel) th left key right = Ok (th_write th parent_pid parent')
    ∧ internal_ok parent'
    ∧ internal_entries parent'
      = take (Z.to_nat idx) (internal_entries parent)
        ++ (key, right) :: drop (Z.to_nat idx) (internal_entries parent)
    ∧ reserved (header parent') = (if idx =? 0 then left else reserved (header parent))
    ∧ (valid_child_id right = true → internal_find_child parent' key = Ok right).
Proof.
  cbv zeta. intros Hp0 Hpinv Hok Hsize Hroom Hnew.
  set (parent_pid := parent_page_id (header (read_page (dm th) left))) in *.
  set (parent := read_page (dm th) parent_pid) in *.
  set (parent1 := if index (search_record parent key) =? 0
                  then set_header parent (with_reserved (header parent) left)
                  else parent).
  assert (Hsr : search_record parent1 key = search_record parent key).
  { unfold parent1. destruct (_ =? 0); [apply search_record_with_reserved | reflexivity]. }
  assert (Hok1 : internal_ok parent1).
  { unfold parent1. destruct (_ =? 0); exact Hok. }
  assert (Hroom1 : can_insert parent1 (u16 (SIZEOF_InternalEntry + key_size key)) = true).
  { unfold parent1. destruct (_ =? 0); exact Hroom. }
  assert (Hentries1 : internal_entries parent1 = internal_entries parent).
  { unfold parent1. destruct (_ =? 0); reflexivity. }
  assert (Hres1 : reserved (header parent1)
                  = if index (search_record parent key) =? 0
                    then left else reserved (header parent)).
  { unfold parent1. destruct (_ =? 0); reflexivity. }
  destruct (insert_internal_no_split_ok parent1 key right Hok1 Hsize Hroom1
              ltac:(rewrite Hsr; exact Hnew))
    as (parent' & Hrun & Hok' & Hh & Hidx & Hbelow & Hat & Habove & Hhi).
  rewrite Hsr in Hidx, Hbelow, Hat, Habove, Hhi.
  assert (Hcc' : cell_count (header parent') = cell_count (header parent1) + 1)
    by (rewrite Hh; reflexivity).
  exists parent'. split; [|split; [exact Hok'|]; split; [|split]].
  - cbn [insert_into_parent]. fold parent_pid.
    replace (parent_pid =? 0) with false by lia.
    replace (parent_pid =? INVALID_PAGE_ID) with false by lia.
    cbn [orb]. fold parent.
    rewrite (proj1 Hok), bool_decide_eq_true_2 by reflexivity. cbn [negb].
    rewrite Hnew. fold parent1. rewrite Hrun. reflexivity.
  - rewrite <- Hentries1. apply internal_entries_inserted; assumption.
  - rewrite Hh. exact Hres1.
  - intros Hvalid.
    apply (internal_find_child_new_entry parent' (index (search_record parent key))
             (cell_count (header parent1))); try assumption; try apply Hat.
    intros i Hi. rewrite (proj1 (Habove i Hi)). apply Hhi. lia.
Qed.

(** X24.  [insert_into_parent] when the parent has room.  The parent
    is the page the header of [left] names; when it is an INTERNAL
    page with ascending keys, room for the entry and without the key,
    the call writes the parent page and nothing else: the entry
    (key, right) stands at its sorted position, the leftmost child
    becomes [left] when that position is 0, and [internal_find_child]
    of the new parent routes the key to [right].  The page [right]
    itself is not written: its [parent_page_id] stays what the split
    made it. *)
Theorem insert_into_parent_with_room fuel th left key right :
  let parent_pid := parent_page_id (header (read_page (dm th) left)) in
  let parent := read_page (dm th) parent_pid in
  let idx := index (search_record parent key) in
  parent_pid ≠ 0 → parent_pid ≠ INVALID_PAGE_ID →
  internal_ok parent →
  SIZEOF_InternalEntry + key_size key < 65536 →
  can_insert parent (u16 (SIZEOF_InternalEntry + key_size key)) = true →
  found (search_record parent key) = false →
  ∃ parent',
    insert_into_parent (S fuel) th left key right = Ok (th_write th parent_pid parent')
    ∧ internal_entries parent'
      = take (Z.to_nat idx) (internal_entries parent)
        ++ (key, right) :: drop (Z.to_nat idx) (internal_entries parent)
    ∧ reserved (header parent') = (if idx =? 0 then left else reserved (header parent))
    ∧ (valid_child_id right = true → internal_find_child parent' key = Ok right).
Proof.
  cbv zeta. intros Hp0 Hpinv Hok Hsize Hroom Hnew.
  destruct (insert_into_parent_room_ok fuel th left key right Hp0 Hpinv Hok Hsize Hroom Hnew)
    as (parent' & Hrun & _ & Hentries & Hres & Hroute).
  exists parent'. split; [exact Hrun|]. split; [exact Hentries|].
  split; [exact Hres | exact Hroute].
Qed.

Lemma insert_into_parent_with_room_witness :
  ∃ parent',
    insert_into_parent 1 three_entry_table 2 (bytes "k") 9
    = Ok (th_write three_entry_table 3 parent')
    ∧ internal_entries parent'
      = [(bytes "g", 2); (bytes "k", 9); (bytes "p", 4); (bytes "t", 5)]
    ∧ internal_find_child parent' (bytes "k") = Ok 9.
Proof.
  destruct (insert_into_parent_with_room 0 three_entry_table 2 (bytes "k") 9)
    as (parent' & Hrun & Hentries & _ & Hroute).
  - vm_compute. discriminate.
  - vm_compute. discriminate.
  - change (read_page _ _) with three_entry_page.
    unfold internal_ok. change (cell_count (header three_entry_page)) with 3.
    split; [reflexivity|]. split; [lia|]. split; [vm_compute; discriminate|].
    split; [vm_compute; discriminate|]. split; [vm_compute; discriminate|]. split.
    + intros i j Hi Hij Hj. change (cell_count (header three_entry_page)) with 3 in Hj.
      assert (i = 0 ∧ j = 1 ∨ i = 0 ∧ j = 2 ∨ i = 1 ∧ j = 2) as [[-> ->] | [[-> ->] | [-> ->]]]
        by lia; vm_compute; reflexivity.
    + intros i Hi.
      assert (i = 0 ∨ i = 1 ∨ i = 2) as [-> | [-> | ->]] by lia; vm_compute; reflexivity.
  - vm_compute. reflexivity.
  - vm_compute. reflexivity.
  - vm_compute. reflexivity.
  - exists parent'. split; [exact Hrun|]. split; [exact Hentries|].
    apply Hroute. reflexivity.
Defined.

(** ** The parser reads back what the printer writes *)

Section PrintParse.
Import Executor Parser Printer.

Lemma scan_while_all p w rest :
  forallb p w = true →
  match rest with [] => true | c :: _ => negb (p c) end = true →
  scan_while p (w ++ rest) = (w, rest).
Proof.
  intros Hw Hrest. induction w as [|c w IH]; simpl in *.
  - destruct rest as [|c rest]; [reflexivity|]. simpl.
    destruct (p c); [discriminate | reflexivity].
  - apply andb_true_iff in Hw as [Hc Hw]. rewrite Hc, (IH Hw). reflexivity.
Qed.

Lemma delimited_cases rest :
  delimited rest = true →
  rest = [] ∨ ∃ rest', rest = chars " " ++ rest' ∨ rest = chars ")" ++ rest'.
Proof.
  destruct rest as [|c rest]; [left; reflexivity|]. simpl. intros H. right.
  exists rest. apply orb_true_iff in H as [H|H]; apply is_char_eq in H; subst c; auto.
Qed.

Lemma delimited_not p rest :
  delimited rest = true →
  forallb (λ c, negb (p c)) (chars " )") = true →
  match rest with [] => true | c :: _ => negb (p c) end = true.
Proof.
  intros H Hp. simpl in Hp.
  apply andb_true_iff in Hp as [Hs Hp]. apply andb_true_iff in Hp as [Hp _].
  destruct (delimited_cases rest H) as [->|[rest' [-> | ->]]];
    [reflexivity | exact Hs | exact Hp].
Qed.

Lemma next_space input : next (chars " " ++ input) = next input.
Proof.
  unfold next. simpl. destruct (scan_while isspace input). reflexivity.
Qed.

Lemma next_rparen input : next (chars ")" ++ input) = Ok (mkToken T_RParen ")", input).
Proof. reflexivity. Qed.

Lemma next_lparen input : next (chars "(" ++ input) = Ok (mkToken T_LParen "(", input).
Proof. reflexivity. Qed.

Lemma next_operator op input :
  op ∈ parser_ops →
  ∃ tok, next (chars op ++ chars " " ++ input) = Ok (tok, chars " " ++ input)
         ∧ text tok = op ∧ (0 <? precedence tok) = true.
Proof.
  intros Hop. unfold parser_ops in Hop.
  repeat (apply elem_of_cons in Hop as [-> | Hop]);
    [..|apply elem_of_nil in Hop; contradiction];
    eexists; (split; [reflexivity | split; reflexivity]).
Qed.

Lemma alpha_class c :
  isalpha c || is_char c "_" = true → isspace c = false.
Proof. destruct c as [[] [] [] [] [] [] [] []]; vm_compute; congruence. Qed.

Lemma digit_class c :
  isdigit c = true →
  isspace c = false ∧ isalpha c || is_char c "_" = false ∧ is_char c "'" = false.
Proof.
  destruct c as [[] [] [] [] [] [] [] []]; vm_compute; intros; try discriminate;
    repeat split.
Qed.

Lemma str_chars s : str (chars s) = s.
Proof. apply String.string_of_list_ascii_of_string. Qed.

Lemma chars_str l : chars (str l) = l.
Proof. apply String.list_ascii_of_string_of_list_ascii. Qed.

Lemma next_identifier name rest :
  identifier_ok name = true → delimited rest = true →
  next (chars name ++ rest) = Ok (mkToken T_Identifier name, rest).
Proof.
  unfold identifier_ok. intros Hok Hrest.
  destruct (chars name) as [|c w] eqn:E; [discriminate|].
  apply andb_true_iff in Hok as [Hok Hkw]. apply andb_true_iff in Hok as [Hc Hall].
  apply bool_decide_eq_true in Hkw.
  unfold next. cbn [app scan_while]. rewrite (alpha_class c Hc). cbn [snd].
  rewrite Hc.
  change (c :: w ++ rest) with ((c :: w) ++ rest).
  rewrite (scan_while_all _ (c :: w) rest Hall)
    by (apply delimited_not; [exact Hrest | reflexivity]).
  rewrite <- E, str_chars, Hkw. reflexivity.
Qed.

Lemma digit_ok d :
  0 ≤ d < 10 → isdigit (digit d) = true ∧ digit_value (digit d) = d.
Proof.
  intros Hd.
  assert (d = 0 ∨ d = 1 ∨ d = 2 ∨ d = 3 ∨ d = 4 ∨ d = 5 ∨ d = 6 ∨ d = 7 ∨ d = 8 ∨ d = 9)
    as H by lia.
  repeat (destruct H as [-> | H]; [split; reflexivity|]). subst d. split; reflexivity.
Qed.

Lemma decimal_digits fuel n acc :
  0 ≤ n → forallb isdigit acc = true → forallb isdigit (decimal fuel n acc) = true.
Proof.
  revert n acc. induction fuel as [|fuel IH]; intros n acc Hn Hacc; simpl; [exact Hacc|].
  assert (Hd : forallb isdigit (digit (n mod 10) :: acc) = true).
  { simpl. rewrite (proj1 (digit_ok (n mod 10) (Z.mod_pos_bound n 10 eq_refl))), Hacc.
    reflexivity. }
  destruct (n <? 10); [exact Hd|].
  apply IH; [apply Z.div_pos; lia | exact Hd].
Qed.

Lemma decimal_nonempty fuel n acc : decimal (S fuel) n acc ≠ [].
Proof.
  revert n acc. induction fuel as [|fuel IH]; intros n acc.
  - simpl. destruct (n <? 10); discriminate.
  - cbn [decimal]. destruct (n <? 10); [discriminate|]. apply IH.
Qed.

Lemma decimal_value fuel n acc :
  0 ≤ n < 10 ^ Z.of_nat fuel →
  foldl (λ a c, a * 10 + digit_value c) 0 (decimal fuel n acc)
  = foldl (λ a c, a * 10 + digit_value c) n acc.
Proof.
  revert n acc. induction fuel as [|fuel IH]; intros n acc Hn.
  - simpl in *. assert (n = 0) as -> by lia. reflexivity.
  - cbn [decimal].
    assert (Hstep : foldl (λ a c, a * 10 + digit_value c) (n / 10) (digit (n mod 10) :: acc)
                    = foldl (λ a c, a * 10 + digit_value c) n acc).
    { simpl. rewrite (proj2 (digit_ok (n mod 10) (Z.mod_pos_bound n 10 eq_refl))). f_equal.
      pose proof (Z.div_mod n 10 ltac:(lia)). lia. }
    destruct (Z.ltb_spec n 10) as [Hlt|Hge].
    + rewrite <- Hstep. rewrite Z.div_small by lia. reflexivity.
    + rewrite IH; [exact Hstep|].
      rewrite Nat2Z.inj_succ, Z.pow_succ_r in Hn by lia.
      split; [apply Z.div_pos; lia | apply Z.div_lt_upper_bound; lia].
Qed.

Lemma next_number value rest :
  0 ≤ value → delimited rest = true →
  next (numeral value ++ rest) = Ok (mkToken T_Number (str (numeral value)), rest).
Proof.
  intros Hv Hrest. unfold numeral.
  pose proof (decimal_digits 10 value [] Hv eq_refl) as Hall.
  pose proof (decimal_nonempty 9 value []) as Hne.
  destruct (decimal 10 value []) as [|c w] eqn:E; [contradiction|].
  assert (Hc : isdigit c = true)
    by (simpl in Hall; apply andb_true_iff in Hall as [? _]; assumption).
  destruct (digit_class c Hc) as (Hsp & Hal & Hq).
  unfold next. cbn [app scan_while]. rewrite Hsp. cbn [snd]. rewrite Hal, Hq, Hc.
  change (c :: w ++ rest) with ((c :: w) ++ rest).
  rewrite (scan_while_all _ (c :: w) rest Hall)
    by (apply delimited_not; [exact Hrest | reflexivity]).
  destruct (delimited_cases rest Hrest) as [->|[rest' [-> | ->]]]; reflexivity.
Qed.

Lemma stoi_numeral value :
  0 ≤ value ≤ 2147483647 → stoi (str (numeral value)) = Ok value.
Proof.
  intros Hv. unfold stoi, numeral.
  fold (chars (str (decimal 10 value []))). rewrite chars_str.
  pose proof (decimal_digits 10 value [] ltac:(lia) eq_refl) as Hall.
  pose proof (decimal_value 10 value [] ltac:(simpl; lia)) as Hval.
  set (d := decimal 10 value []) in *.
  assert (Hscan : scan_while isdigit d = (d, [])).
  { rewrite <- (app_nil_r d) at 1. apply scan_while_all; [exact Hall | reflexivity]. }
  rewrite Hscan. cbn [fst]. rewrite Hval. cbn [foldl].
  destruct (Z.gtb_spec value 2147483647); [lia | reflexivity].
Qed.

Lemma scan_string_plain w rest :
  forallb (λ c, negb (is_char c "'") && negb (is_char c "\")) w = true →
  scan_string (w ++ chars "'" ++ rest) = Some (w, rest).
Proof.
  intros Hw. induction w as [|c w IH]; [reflexivity|].
  cbn [forallb] in Hw. apply andb_true_iff in Hw as [Hc Hw].
  apply andb_true_iff in Hc as [Hq Hb].
  apply negb_true_iff in Hq, Hb.
  change ((c :: w) ++ chars "'" ++ rest) with (c :: (w ++ chars "'" ++ rest)).
  cbn [scan_string]. rewrite Hq, Hb. specialize (IH Hw).
  destruct (w ++ chars "'" ++ rest) as [|d rest'] eqn:E.
  - destruct w; discriminate.
  - rewrite IH. reflexivity.
Qed.

Lemma next_string value rest :
  forallb (λ c, negb (is_char c "'") && negb (is_char c "\")) (chars value) = true →
  next (chars "'" ++ chars value ++ chars "'" ++ rest)
  = Ok (mkToken T_String value, rest).
Proof.
  intros Hv. pose proof (scan_string_plain _ rest Hv) as Hscan.
  set (tail := chars value ++ chars "'" ++ rest) in *.
  unfold next. simpl. rewrite Hscan, str_chars. reflexivity.
Qed.

(** The first token of a written expression. *)
Lemma next_render e rest :
  printable e = true → delimited rest = true →
  next (render e ++ rest)
  = Ok (match e with
        | EIdentifier name => (mkToken T_Identifier name, rest)
        | ENumber value => (mkToken T_Number (str (numeral value)), rest)
        | EString value => (mkToken T_String value, rest)
        | EBinary op l r =>
            (mkToken T_LParen "(",
             render l ++ chars " " ++ chars op ++ chars " " ++ render r ++ chars ")" ++ rest)
        | _ => (mkToken T_End "", [])
        end).
Proof.
  intros He Hrest. destruct e as [| name | value | value | | op l r]; try discriminate.
  - apply next_identifier; assumption.
  - simpl in He. apply next_number; [lia | assumption].
  - simpl in He. cbn [render]. rewrite <- !app_assoc. apply next_string. exact He.
  - cbn [render]. rewrite <- !app_assoc. apply next_lparen.
Qed.

Lemma eat_ok p t tok rest :
  type (current p) = t → next (lexer p) = Ok (tok, rest) →
  eat p t = Ok (mkParser rest tok).
Proof.
  intros Ht Hn. unfold eat. rewrite bool_decide_eq_true_2 by exact Ht.
  cbn [negb]. rewrite Hn. reflexivity.
Qed.

Lemma parse_expr_unfold fuel p min_prec :
  parse_expr (S fuel) p min_prec
  = ('(left_, p) ← parse_primary fuel p; parse_loop fuel p min_prec left_).
Proof. reflexivity. Qed.

Lemma parse_loop_stop fuel p min_prec left_ :
  (precedence (current p) >? min_prec) = false →
  parse_loop (S fuel) p min_prec left_ = Ok (left_, p).
Proof. intros H. cbn [parse_loop]. rewrite H. reflexivity. Qed.

Lemma parse_loop_step fuel p min_prec left_ :
  (precedence (current p) >? min_prec) = true →
  parse_loop (S fuel) p min_prec left_
  = (p1 ← eat p (type (current p));
     '(right_, p2) ← parse_expr fuel p1 (precedence (current p));
     parse_loop fuel p2 min_prec (EBinary (text (current p)) left_ right_)).
Proof. intros H. cbn [parse_loop]. rewrite H. reflexivity. Qed.

Lemma next_render_ok e rest :
  printable e = true → delimited rest = true →
  ∃ tok lx, next (render e ++ rest) = Ok (tok, lx).
Proof.
  intros He Hrest. rewrite (next_render e rest He Hrest).
  destruct e; eexists _, _; reflexivity.
Qed.

(** [parse_primary] on a written expression: the expression, and the
    parser at the token that follows it. *)
Lemma parse_primary_render e :
  printable e = true →
  ∀ fuel rest tok rest' p,
    (4 * nesting e + 1 ≤ fuel)%nat →
    delimited rest = true →
    next rest = Ok (tok, rest') →
    next (render e ++ rest) = Ok (current p, lexer p) →
    parse_primary fuel p = Ok (e, mkParser rest' tok).
Proof.
  induction e as [| name | value | value | | op l IHl r IHr]; try discriminate;
    intros He fuel rest tok rest' [lx cur] Hfuel Hrest Hnext Hat;
    rewrite (next_render _ rest He Hrest) in Hat; cbn [current lexer] in Hat;
    injection Hat as <- <-.
  - destruct fuel as [|fuel]; [simpl in Hfuel; lia|].
    cbn [parse_primary current type text].
    rewrite (eat_ok _ T_Identifier tok rest'); [reflexivity | reflexivity | exact Hnext].
  - destruct fuel as [|fuel]; [simpl in Hfuel; lia|].
    cbn [parse_primary current type text]. simpl in He.
    rewrite stoi_numeral by lia.
    cbv beta iota delta [mbind Outcome_bind obind].
    rewrite (eat_ok _ T_Number tok rest'); [reflexivity | reflexivity | exact Hnext].
  - destruct fuel as [|fuel]; [simpl in Hfuel; lia|].
    cbn [parse_primary current type text].
    rewrite (eat_ok _ T_String tok rest'); [reflexivity | reflexivity | exact Hnext].
  - cbn [printable] in He. apply andb_true_iff in He as [He Hr].
    apply andb_true_iff in He as [Hop Hl]. apply bool_decide_eq_true in Hop.
    cbn [nesting] in Hfuel.
    set (rest_r := chars ")" ++ rest).
    set (rest_l := chars " " ++ chars op ++ chars " " ++ render r ++ rest_r).
    assert (Hdl : delimited rest_l = true) by reflexivity.
    assert (Hdr : delimited rest_r = true) by reflexivity.
    destruct (next_operator op (render r ++ rest_r) Hop) as (optok & Hoptok & Htext & Hprec).
    assert (Hnl : next rest_l = Ok (optok, chars " " ++ render r ++ rest_r)).
    { unfold rest_l. rewrite next_space. exact Hoptok. }
    destruct (next_render_ok l rest_l Hl Hdl) as (tok1 & lx1 & Hat1).
    destruct (next_render_ok r rest_r Hr Hdr) as (tok3 & lx3 & Hat3).
    destruct fuel as [|[|[|[|fuel]]]]; try lia.
    pose proof (IHl Hl (S (S fuel)) rest_l optok _ (mkParser lx1 tok1) ltac:(lia) Hdl Hnl Hat1)
      as Hpl.
    pose proof (IHr Hr fuel rest_r _ _ (mkParser lx3 tok3) ltac:(lia) Hdr
                  (next_rparen rest) Hat3) as Hpr.
    change (parse_primary (S (S (S (S fuel))))
              (mkParser (render l ++ rest_l) (mkToken T_LParen "("))
            = Ok (EBinary op l r, mkParser rest' tok)).
    cbn [parse_primary current type].
    rewrite (eat_ok _ T_LParen tok1 lx1); [|reflexivity|exact Hat1].
    cbv beta iota delta [mbind Outcome_bind obind].
    rewrite parse_expr_unfold, Hpl.
    cbv beta iota delta [mbind Outcome_bind obind].
    rewrite parse_loop_step by (cbn [current]; lia). cbn [current lexer].
    rewrite (eat_ok _ (type optok) tok3 lx3);
      [|reflexivity|cbn [lexer]; rewrite next_space; exact Hat3].
    cbv beta iota delta [mbind Outcome_bind obind].
    rewrite parse_expr_unfold, Hpr.
    cbv beta iota delta [mbind Outcome_bind obind].
    destruct fuel as [|fuel]; [lia|].
    rewrite parse_loop_stop
      by (cbn [current]; change (precedence (mkToken T_RParen ")")) with 0; lia).
    cbv beta iota delta [mbind Outcome_bind obind].
    rewrite parse_loop_stop by reflexivity.
    cbv beta iota delta [mbind Outcome_bind obind].
    rewrite (eat_ok _ T_RParen tok rest'); [|reflexivity|exact Hnext].
    rewrite Htext. reflexivity.
Qed.

(** X25.  The parser reads back what is written.  An expression of
    names, unsigned numbers, plain strings and the eleven operators,
    written with every operation in parentheses, is parsed to itself:
    [parse_expr] of the text returns the expression, with a recursion
    depth of four calls per level of nesting. *)
Theorem parse_print_round_trip e fuel :
  printable e = true → (4 * nesting e + 2 ≤ fuel)%nat →
  parse_expression fuel (print e) = Ok e.
Proof.
  intros He Hfuel. unfold parse_expression, new_parser, print.
  fold (chars (str (render e))). rewrite chars_str.
  destruct (next_render_ok e [] He eq_refl) as (tok & lx & Hat).
  rewrite app_nil_r in Hat. rewrite Hat.
  cbv beta iota zeta delta [mbind Outcome_bind obind].
  destruct fuel as [|[|fuel]]; try lia. rewrite parse_expr_unfold.
  rewrite (parse_primary_render e He (S fuel) [] (mkToken T_End "") [] (mkParser lx tok));
    [|lia|reflexivity|reflexivity|rewrite app_nil_r; exact Hat].
  cbv beta iota delta [mbind Outcome_bind obind].
  rewrite parse_loop_stop by reflexivity. reflexivity.
Qed.

Lemma parse_print_round_trip_witness :
  parse_expression 10 "((age + 1) * 'x')"
  = Ok (EBinary "*" (EBinary "+" (EIdentifier "age") (ENumber 1)) (EString "x")).
Proof.
  apply (parse_print_round_trip
           (EBinary "*" (EBinary "+" (EIdentifier "age") (ENumber 1)) (EString "x")) 10).
  - reflexivity.
  - simpl. lia.
Defined.

End PrintParse.

(** ** Precedence and associativity *)

Section Precedence.
Import Executor Parser Printer Chain.

Lemma next_operator_precedence op input :
  op ∈ parser_ops →
  ∃ tok, next (chars op ++ chars " " ++ input) = Ok (tok, chars " " ++ input)
         ∧ text tok = op ∧ precedence tok = op_precedence op ∧ 0 < op_precedence op.
Proof.
  intros Hop. unfold parser_ops in Hop.
  repeat (apply elem_of_cons in Hop as [-> | Hop]);
    [..|apply elem_of_nil in Hop; contradiction];
    eexists; (split; [reflexivity | split; [reflexivity | split; reflexivity]]).
Qed.

(** X26.  Precedence climbing.  Of two operators written in a row,
    [a op1 b op2 c], the second takes the middle operand when its
    precedence is higher, [a op1 (b op2 c)]; otherwise the first one
    does, [(a op1 b) op2 c]: operators of equal precedence group to
    the left, the comparisons included.  The operands are names,
    numbers, strings or operations in parentheses. *)
Theorem parse_expr_precedence a op1 b op2 c fuel :
  printable a = true → printable b = true → printable c = true →
  op1 ∈ parser_ops → op2 ∈ parser_ops →
  (4 * Nat.max (nesting a) (Nat.max (nesting b) (nesting c)) + 6 ≤ fuel)%nat →
  parse_expression fuel (chain a op1 b op2 c)
  = Ok (if op_precedence op2 >? op_precedence op1
        then EBinary op1 a (EBinary op2 b c)
        else EBinary op2 (EBinary op1 a b) c).
Proof.
  intros Ha Hb Hc Hop1 Hop2 Hfuel.
  set (R2 := chars " " ++ chars op2 ++ chars " " ++ render c).
  set (R1 := chars " " ++ chars op1 ++ chars " " ++ render b ++ R2).
  assert (Hd1 : delimited R1 = true) by reflexivity.
  assert (Hd2 : delimited R2 = true) by reflexivity.
  destruct (next_operator_precedence op1 (render b ++ R2) Hop1)
    as (tok1 & Htok1 & Htext1 & Hprec1 & Hpos1).
  destruct (next_operator_precedence op2 (render c) Hop2)
    as (tok2 & Htok2 & Htext2 & Hprec2 & Hpos2).
  assert (Hn1 : next R1 = Ok (tok1, chars " " ++ render b ++ R2))
    by (unfold R1; rewrite next_space; exact Htok1).
  assert (Hn2 : next R2 = Ok (tok2, chars " " ++ render c))
    by (unfold R2; rewrite next_space; exact Htok2).
  destruct (next_render_ok a R1 Ha Hd1) as (ta & la & Hata).
  destruct (next_render_ok b R2 Hb Hd2) as (tb & lb & Hatb).
  destruct (next_render_ok c [] Hc eq_refl) as (tc & lc & Hatc).
  assert (Pa : ∀ f, (4 * nesting a + 1 ≤ f)%nat →
                    parse_primary f (mkParser la ta)
                    = Ok (a, mkParser (chars " " ++ render b ++ R2) tok1)).
  { intros f Hf. apply (parse_primary_render a Ha f R1); assumption. }
  assert (Pb : ∀ f, (4 * nesting b + 1 ≤ f)%nat →
                    parse_primary f (mkParser lb tb)
                    = Ok (b, mkParser (chars " " ++ render c) tok2)).
  { intros f Hf. apply (parse_primary_render b Hb f R2); assumption. }
  assert (Pc : ∀ f, (4 * nesting c + 1 ≤ f)%nat →
                    parse_primary f (mkParser lc tc)
                    = Ok (c, mkParser [] (mkToken T_End ""))).
  { intros f Hf. apply (parse_primary_render c Hc f []); try assumption; reflexivity. }
  assert (Heat1 : eat (mkParser (chars " " ++ render b ++ R2) tok1) (type tok1)
                  = Ok (mkParser lb tb)).
  { apply eat_ok; [reflexivity|]. cbn [lexer]. rewrite next_space. exact Hatb. }
  assert (Heat2 : eat (mkParser (chars " " ++ render c) tok2) (type tok2)
                  = Ok (mkParser lc tc)).
  { apply eat_ok; [reflexivity|]. cbn [lexer]. rewrite next_space.
    rewrite app_nil_r in Hatc. exact Hatc. }
  unfold parse_expression, new_parser, chain.
  fold (chars (str (render a ++ chars " " ++ chars op1 ++ chars " "
                    ++ render b ++ chars " " ++ chars op2 ++ chars " " ++ render c))).
  rewrite chars_str. fold R2. fold R1. rewrite Hata.
  cbv beta iota delta [mbind Outcome_bind obind].
  destruct fuel as [|[|[|[|[|[|fuel]]]]]]; try lia.
  rewrite parse_expr_unfold, Pa by lia.
  cbv beta iota delta [mbind Outcome_bind obind].
  rewrite parse_loop_step by (cbn [current]; lia). cbn [current].
  rewrite Heat1. cbv beta iota delta [mbind Outcome_bind obind].
  rewrite parse_expr_unfold, Pb by lia.
  cbv beta iota delta [mbind Outcome_bind obind].
  rewrite Htext1, Hprec1.
  destruct (op_precedence op2 >? op_precedence op1) eqn:Ecmp.
  - rewrite parse_loop_step by (cbn [current]; lia). cbn [current].
    rewrite Heat2. cbv beta iota delta [mbind Outcome_bind obind].
    rewrite parse_expr_unfold, Pc by lia.
    cbv beta iota delta [mbind Outcome_bind obind].
    rewrite parse_loop_stop
      by (cbn [current]; change (precedence (mkToken T_End "")) with 0; lia).
    cbv beta iota delta [mbind Outcome_bind obind].
    rewrite parse_loop_stop
      by (cbn [current]; change (precedence (mkToken T_End "")) with 0; lia).
    cbv beta iota delta [mbind Outcome_bind obind].
    rewrite parse_loop_stop by reflexivity.
    rewrite Htext2. reflexivity.
  - rewrite parse_loop_stop by (cbn [current]; lia).
    cbv beta iota delta [mbind Outcome_bind obind].
    rewrite parse_loop_step by (cbn [current]; lia). cbn [current].
    rewrite Heat2. cbv beta iota delta [mbind Outcome_bind obind].
    rewrite parse_expr_unfold, Pc by lia.
    cbv beta iota delta [mbind Outcome_bind obind].
    rewrite parse_loop_stop
      by (cbn [current]; change (precedence (mkToken T_End "")) with 0; lia).
    cbv beta iota delta [mbind Outcome_bind obind].
    rewrite parse_loop_stop by reflexivity.
    rewrite Htext2. reflexivity.
Qed.

Lemma parse_expr_precedence_witness :
  parse_expression 6 "a - b - c"
  = Ok (EBinary "-" (EBinary "-" (EIdentifier "a") (EIdentifier "b")) (EIdentifier "c"))
  ∧ parse_expression 6 "a + b * 2"
    = Ok (EBinary "+" (EIdentifier "a") (EBinary "*" (EIdentifier "b") (ENumber 2))).
Proof.
  split.
  - apply (parse_expr_precedence (EIdentifier "a") "-" (EIdentifier "b") "-"
             (EIdentifier "c") 6);
      try reflexivity;
      unfold parser_ops; repeat (apply list_elem_of_here || apply list_elem_of_further).
  - apply (parse_expr_precedence (EIdentifier "a") "+" (EIdentifier "b") "*"
             (ENumber 2) 6);
      try reflexivity;
      unfold parser_ops; repeat (apply list_elem_of_here || apply list_elem_of_further).
Defined.

End Precedence.

(** ** The root after the first split, and the split after it *)

(** The root page of [create_new_root] is an INTERNAL page in order,
    with one entry and the rest of the page free. *)
Lemma new_root_internal_ok nid left_ key right_ root3 :
  key_size key ≤ 8152 →
  (let root := init_page nid INDEX INTERNAL in
   let root1 := set_header root (with_root_page (with_reserved (header root) left_) left_) in
   '(offset, root2) ← write_internal_entry root1 key right_;
   insert_slot root2 0 offset) = Ok root3 →
  internal_ok root3
  ∧ cell_count (header root3) = 1
  ∧ slot_key root3 0 = key ∧ slot_child root3 0 = right_
  ∧ reserved (header root3) = left_
  ∧ free_start (header root3) = SIZEOF_PageHeader + SIZEOF_InternalEntry + key_size key
  ∧ free_end (header root3) = PAGE_SIZE - 2.
Proof.
  intros Hk Hcomp. cbv zeta in Hcomp.
  pose proof (key_size_nonneg key) as Hk0.
  set (root1 := set_header (init_page nid INDEX INTERNAL)
                  (with_root_page (with_reserved (header (init_page nid INDEX INTERNAL)) left_)
                     left_)) in *.
  assert (Hok1 : internal_ok root1).
  { unfold internal_ok. simpl. unfold SIZEOF_PageHeader, PAGE_SIZE.
    repeat split; try lia.
    - intros i j Hi Hij Hj. simpl in Hj. lia. }
  assert (Hsr : search_record root1 key = mkBSearchResult false 0) by reflexivity.
  destruct (insert_internal_no_split_ok root1 key right_ Hok1)
    as (page' & Hrun & Hok' & Hh & _ & _ & [Hkey Hchild] & _ & _).
  { unfold SIZEOF_InternalEntry. lia. }
  { unfold can_insert, SIZEOF_InternalEntry, SIZEOF_slot. simpl.
    unfold SIZEOF_PageHeader, PAGE_SIZE. rewrite u16_small by lia. lia. }
  { rewrite Hsr. reflexivity. }
  rewrite Hsr in Hkey, Hchild. cbn [index] in Hkey, Hchild.
  assert (page' = root3) as ->.
  { unfold insert_internal_no_split in Hrun.
    rewrite Hsr in Hrun. cbn [found index] in Hrun.
    replace (can_insert root1 (u16 (SIZEOF_InternalEntry + key_size key))) with true in Hrun.
    2:{ unfold can_insert, SIZEOF_InternalEntry, SIZEOF_slot. simpl.
        unfold SIZEOF_PageHeader, PAGE_SIZE. rewrite u16_small by lia. lia. }
    change (bool_decide (page_level (header root1) = INTERNAL)) with true in Hrun.
    cbv beta iota delta [mbind Outcome_bind obind assert_that negb] in Hrun, Hcomp.
    destruct (write_internal_entry root1 key right_) as [[offset root2]| | | |];
      try discriminate.
    rewrite Hcomp in Hrun. congruence. }
  split; [exact Hok'|]. rewrite Hh. simpl.
  repeat split; try assumption; unfold SIZEOF_PageHeader, SIZEOF_InternalEntry, PAGE_SIZE; lia.
Qed.

(** [create_new_root] with the page it builds. *)
Lemma create_new_root_run th left_ key right_ :
  let nid := next_free_page_id th in
  nid ≠ 0 → nid ≠ left_ → nid ≠ right_ →
  key_size key ≤ 8152 →
  page_id (header (read_page (dm th) left_)) = left_ →
  ∃ th' root3,
    create_new_root th left_ key right_ = Ok th'
    ∧ (let root := init_page nid INDEX INTERNAL in
       let root1 :=
         set_header root (with_root_page (with_reserved (header root) left_) left_) in
       '(offset, root2) ← write_internal_entry root1 key right_;
       insert_slot root2 0 offset) = Ok root3
    ∧ th_root_page th' = nid
    ∧ read_page (dm th') nid = root3
    ∧ parent_page_id (header (read_page (dm th') left_)) = nid
    ∧ parent_page_id (header (read_page (dm th') right_)) = nid.
Proof.
  intros nid Hn0 Hnl Hnr Hk Hleft.
  destruct (new_root_page nid left_ key right_ Hk)
    as (root3 & Hroot & Hlvl & Hid & Hpar & Hres & Hrp & Hcc & Hkey & Hchild).
  cbv zeta in Hroot. unfold create_new_root.
  change (allocate_page th)
    with (nid, mkTableHandle (dm th) (th_root_page th) (u32 (nid + 1))).
  cbv beta iota zeta.
  unfold mbind, Outcome_bind in Hroot |- *.
  destruct (write_internal_entry _ key right_) as [[offset root2]| | | |]; try discriminate.
  simpl in Hroot |- *. rewrite Hroot. simpl.
  rewrite !read_write_page.
  assert (Hpid : page_id (header
             (if bool_decide (left_ = nid) then root3
              else if bool_decide (left_ = 0)
                   then set_header (read_page (dm th) 0)
                          (with_root_page (header (read_page (dm th) 0)) nid)
                   else read_page (dm th) left_)) = left_).
  { clear - Hleft Hid Hnl. repeat case_bool_decide; subst; try congruence; simpl; exact Hleft. }
  rewrite Hpid, Z.eqb_refl. simpl.
  eexists _, root3. split; [reflexivity|]. split; [reflexivity|]. simpl.
  rewrite !read_write_page.
  split; [reflexivity|].
  split; [repeat case_bool_decide; try congruence|].
  split; repeat case_bool_decide; try congruence; reflexivity.
Qed.

(** The binary search of a page with one entry. *)
Lemma search_record_one page key k :
  cell_count (header page) = 1 → slot_key page 0 = key →
  compare_keys k key ≠ 0 →
  search_record page k
  = mkBSearchResult false (if compare_keys k key <? 0 then 0 else 1).
Proof.
  intros Hcc Hkey Hne. unfold search_record. rewrite Hcc.
  change (S (Z.to_nat 1)) with 2%nat. cbn [search_record_loop].
  change (0 <=? 1 - 1) with true. cbv iota.
  change ((0 + (1 - 1)) `quot` 2) with 0. rewrite Hkey.
  replace (compare_keys k key =? 0) with false by lia.
  destruct (compare_keys k key <? 0); reflexivity.
Qed.

(** X27.  The root that [create_new_root] writes takes the next
    separator.  After [create_new_root] for [(left, key, right)], a
    call of [insert_into_parent] for a split of either child, with a
    separator different from the key of the root, finds the new root
    through the child's [parent_page_id] and puts its entry there: the
    root holds the two entries in key order and is an INTERNAL page
    in order again.  When the new separator is the smaller one, the
    leftmost child of the root becomes the child that was split,
    whichever it is. *)
Theorem insert_into_parent_after_new_root fuel th left_ key right_ child key2 right2 :
  let nid := next_free_page_id th in
  nid ≠ 0 → nid ≠ INVALID_PAGE_ID → nid ≠ left_ → nid ≠ right_ →
  page_id (header (read_page (dm th) left_)) = left_ →
  child = left_ ∨ child = right_ →
  compare_keys key2 key ≠ 0 →
  key_size key + key_size key2 ≤ 8000 →
  ∃ th1 th2 root,
    create_new_root th left_ key right_ = Ok th1
    ∧ insert_into_parent (S fuel) th1 child key2 right2 = Ok th2
    ∧ th_root_page th2 = nid
    ∧ read_page (dm th2) nid = root
    ∧ internal_ok root
    ∧ internal_entries root
      = (if compare_keys key2 key <? 0
         then [(key2, right2); (key, right_)] else [(key, right_); (key2, right2)])
    ∧ reserved (header root) = (if compare_keys key2 key <? 0 then child else left_).
Proof.
  intros nid Hn0 Hninv Hnl Hnr Hleft Hchild Hne Hsize.
  pose proof (key_size_nonneg key) as Hk0. pose proof (key_size_nonneg key2) as Hk20.
  destruct (create_new_root_run th left_ key right_ Hn0 Hnl Hnr ltac:(lia) Hleft)
    as (th1 & root3 & Hrun1 & Hcomp & Hroot1 & Hread & Hpl & Hpr).
  fold nid in Hroot1, Hread, Hpl, Hpr, Hcomp.
  destruct (new_root_internal_ok nid left_ key right_ root3 ltac:(lia) Hcomp)
    as (Hok3 & Hcc & Hkey & Hch & Hres & Hfs & Hfe).
  assert (Hparent : parent_page_id (header (read_page (dm th1) child)) = nid)
    by (destruct Hchild as [-> | ->]; assumption).
  pose proof (search_record_one root3 key key2 Hcc Hkey Hne) as Hsr.
  pose proof (insert_into_parent_room_ok fuel th1 child key2 right2) as Hins.
  cbv zeta in Hins. rewrite Hparent, Hread, Hsr in Hins. cbn [found index] in Hins.
  destruct Hins as (root & Hrun2 & Hok & Hentries & Hreserved & _);
    try assumption; try reflexivity.
  { unfold SIZEOF_InternalEntry. lia. }
  { unfold can_insert. rewrite Hfs, Hfe.
    unfold SIZEOF_InternalEntry, SIZEOF_PageHeader, SIZEOF_slot, PAGE_SIZE.
    rewrite u16_small by lia. lia. }
  assert (Hone : internal_entries root3 = [(key, right_)]).
  { unfold internal_entries. rewrite Hcc. change (seqZ 0 1) with [0].
    cbn [fmap list_fmap]. rewrite Hkey, Hch. reflexivity. }
  exists th1, (th_write th1 nid root), root.
  split; [exact Hrun1|]. split; [exact Hrun2|]. split; [exact Hroot1|].
  split; [cbn [th_write dm]; rewrite read_write_page, bool_decide_eq_true_2 by reflexivity;
          reflexivity|].
  split; [exact Hok|]. rewrite Hentries, Hreserved, Hone, Hres.
  destruct (compare_keys key2 key <? 0); split; reflexivity.
Qed.

Lemma insert_into_parent_after_new_root_witness :
  ∃ th1 th2,
    create_new_root (snd (allocate_page (leaf_root_table three_record_leaf)))
      1 (bytes "m") 2 = Ok th1
    ∧ insert_into_parent 1 th1 2 (bytes "t") 4 = Ok th2
    ∧ internal_entries (read_page (dm th2) 3) = [(bytes "m", 2); (bytes "t", 4)].
Proof.
  destruct (insert_into_parent_after_new_root 0
              (snd (allocate_page (leaf_root_table three_record_leaf)))
              1 (bytes "m") 2 2 (bytes "t") 4)
    as (th1 & th2 & root & Hrun1 & Hrun2 & _ & Hread & _ & Hentries & _).
  - vm_compute. discriminate.
  - vm_compute. discriminate.
  - vm_compute. discriminate.
  - vm_compute. discriminate.
  - vm_compute. reflexivity.
  - right. reflexivity.
  - vm_compute. discriminate.
  - vm_compute. discriminate.
  - exists th1, th2. split; [exact Hrun1|]. split; [exact Hrun2|].
    etransitivity; [exact (f_equal internal_entries Hread) | exact Hentries].
Defined.
